(** * quantreg: quantile regression by fixed-step subgradient descent

    A shallow embedding of the Go package [quantreg] (rq.go, nlrq.go and the
    multi-quantile orchestration and diagnostics file) together with the
    properties stated about it.

    Conventions of the embedding.
    - [float64] is Rocq's primitive binary64 float ([PrimFloat.float]); every
      arithmetic operation is the IEEE-754 round-to-nearest one, evaluated
      individually (no fused multiply-add).  Go's [==], [<], [<=] are
      [=?], [<?], [<=?]; [a > b] is written [b <? a] and [a >= b] is
      [b <=? a].
    - A slice is a [list]; an index expression [s[i]] is [idx s i], which
      panics when [i] is out of range, as the Go runtime does.
    - A Go function returning [(T, error)] returns a [result T]: [Ok v],
      [Err e], or [Panic] for a run-time panic.
    - A counted loop [for i := 0; i < n; i++] is [for_loop n body s]: the
      body is a state transformer over the variables the loop assigns.
    - A Go [string] is a [string]; the way [fmt.Sprintf] renders a number is
      left open (a [Formatter]), the literal text of its formats is kept. *)

From Stdlib Require Import Floats ZArith List Lia Bool Sorted Permutation.
From stdpp Require Import base list strings.
Import ListNotations.

Set Warnings "-inexact-float".
#[local] Open Scope float_scope.

(** ** Results: values, errors and panics *)

(** The error kinds.  The Go code builds them with [fmt.Errorf]; each
    constructor stands for one message:
    - [EmptyInput]: "empty input data";
    - [DimensionMismatch]: "x and y dimensions do not match" (fits),
      "number of variables in new data does not match model" (prediction);
    - [InvalidTau]: "tau must be between 0 and 1";
    - [EmptyTauSet]: "no quantile levels specified";
    - [OptimizationFailed e]: "optimization failed: e";
    - [FitFailed tau e]: "failed to fit model for tau=...: e";
    - [PredictionFailed tau e]: "prediction failed for tau=...: e". *)
Inductive error : Type :=
  | EmptyInput
  | DimensionMismatch
  | InvalidTau
  | EmptyTauSet
  | OptimizationFailed (e : error)
  | FitFailed (tau : float) (e : error)
  | PredictionFailed (tau : float) (e : error).

Inductive result (A : Type) : Type :=
  | Ok (a : A)
  | Err (e : error)
  | Panic.
Arguments Ok {A} a.
Arguments Err {A} e.
Arguments Panic {A}.

Definition bind {A B : Type} (m : result A) (k : A -> result B) : result B :=
  match m with
  | Ok a => k a
  | Err e => Err e
  | Panic => Panic
  end.

Notation "x <- m ;; k" := (bind m (fun x => k))
  (at level 20, m at level 99, k at level 200, only parsing).
Notation "' p <- m ;; k" := (bind m (fun x => match x with p => k end))
  (at level 20, p pattern, m at level 99, k at level 200, only parsing).

Definition is_ok {A : Type} (r : result A) : bool :=
  match r with Ok _ => true | _ => false end.

Definition is_panic {A : Type} (r : result A) : bool :=
  match r with Panic => true | _ => false end.

(** A result that is a value or a panic, never an error. *)
Definition no_err {A : Type} (r : result A) : Prop := forall e, r <> Err e.

(** [s[i]] on a slice. *)
Definition idx {A : Type} (s : list A) (i : nat) : result A :=
  match s !! i with
  | Some v => Ok v
  | None => Panic
  end.

(** [for i := lo; i < lo + k; i++ { s = body i s }]. *)
Fixpoint for_from {S : Type} (lo k : nat) (body : nat -> S -> result S) (s : S)
  : result S :=
  match k with
  | O => Ok s
  | Datatypes.S k' => s' <- body lo s ;; for_from (Datatypes.S lo) k' body s'
  end.

Definition for_loop {S : Type} (n : nat) (body : nat -> S -> result S) (s : S)
  : result S :=
  for_from 0 n body s.

(** [a := make([]T, n)] followed by [for i := 0; i < n; i++ { a[i] = f(i) }]. *)
Definition fill {A : Type} (n : nat) (zero : A) (f : nat -> result A)
  : result (list A) :=
  for_loop n (fun i a => v <- f i ;; Ok (<[i := v]> a)) (replicate n zero).

(** The same values collected in order; [fill] is shown equal to it below. *)
Fixpoint mapM {A B : Type} (f : A -> result B) (l : list A) : result (list B) :=
  match l with
  | [] => Ok []
  | a :: l' => b <- f a ;; bs <- mapM f l' ;; Ok (b :: bs)
  end.

(** ** The parts of Go's standard library the package calls *)

(** [math.Max]: +Inf wins, then NaN, then the larger; of two zeros a
    positive one is preferred. *)
Definition math_Max (x y : float) : float :=
  if (x =? infinity) || (y =? infinity) then infinity
  else if is_nan x || is_nan y then nan
  else if (x =? 0) && (x =? y) then (if get_sign x then y else x)
  else if y <? x then x else y.

(** [sort.Float64s]: ascending, with NaN ordered before every number.  The
    element order among values that compare equal (the two zeros) is not
    fixed by its contract; the stable order of straight insertion, which the
    library uses for short slices, is taken here.  On longer slices that
    mix the two zeros the library may leave the other zero at an index;
    nothing below states the sign of a zero, and what is said of a sorted
    position against values from elsewhere is said up to [==]. *)
Definition float_less (x y : float) : bool :=
  (x <? y) || (is_nan x && negb (is_nan y)).

Fixpoint sort_insert (x : float) (l : list float) : list float :=
  match l with
  | [] => [x]
  | y :: l' => if float_less y x then y :: sort_insert x l' else x :: y :: l'
  end.

Fixpoint sortFloat64s (l : list float) : list float :=
  match l with
  | [] => []
  | x :: l' => sort_insert x (sortFloat64s l')
  end.

(** [float64(n)] for a length [n]. *)
Definition float_of_len (n : nat) : float :=
  of_uint63 (Uint63.of_Z (Z.of_nat n)).

(** ** The sparse-matrix collaborator *)

(** Modelled from the spec: the package [sparsem] ([NewCSRMatrix], the field
    [Cols] and the method [ToDense]) is an external collaborator whose source
    is not part of this repository.  The specification describes it as a
    sparse representation with a dense-conversion utility that the linear
    solver consumes as a read-only numeric array source, over a covariate
    matrix of N rows and P columns: converting the covariate rows and reading
    them back densely yields the same rows, and the column count is P, the
    width of a row.  On rows of unequal width the specification is silent.
    There the model takes the width of the first row as the column count
    and hands the rows back unchanged; that is a choice of this model, not a
    word of the specification, and what is proved below of rows wider than
    the first rests on it.  What is proved of a row shorter than the first
    does not: [RQ]'s own loop over [x[i][j]] reads past its end. *)
Record CSRMatrix : Type := mkCSR {
  Rows : nat;
  Cols : nat;
  csr_rows : list (list float)
}.

Definition NewCSRMatrix (x : list (list float)) : CSRMatrix :=
  {| Rows := length x; Cols := length (hd [] x); csr_rows := x |}.

Definition ToDense (m : CSRMatrix) : list (list float) := csr_rows m.

(** ** rq.go: the linear fit *)

(** [RQFit].  The labels [Method] (always "br") and [Formula] (never set)
    carry no behaviour and are left out. *)
Module RQFit.
Record t : Type := mk {
  Coefficients : list float;
  Residuals : list float;
  Fitted : list float;
  Tau : float;
  N : Z;
  P : Z
}.
End RQFit.

Definition maxIter : nat := 1000.
Definition tolerance : float := 1e-8.
Definition learningRate : float := 0.01.

(** The check-loss weight of one observation: [tau - 1] when the residual is
    strictly positive, [tau] otherwise. *)
Definition br_weight (tau r : float) : float :=
  if 0 <? r then tau - 1 else tau.

(** rq.go lines 91-98. *)
Definition br_residuals (y : list float) (x : CSRMatrix)
  (solution : list float) (n p : nat) : result (list float) :=
  fill n 0 (fun i =>
    pred <- for_loop p (fun j pred =>
              row <- idx (ToDense x) i ;;
              xij <- idx row j ;;
              sj <- idx solution j ;;
              Ok (pred + xij * sj)) 0 ;;
    yi <- idx y i ;;
    Ok (yi - pred)).

(** rq.go lines 104-111: the inner loop for parameter [i]. *)
Definition br_grad (tau : float) (x : CSRMatrix) (residuals : list float)
  (n i : nat) : result float :=
  for_loop n (fun j grad =>
    rj <- idx residuals j ;;
    if 0 <? rj then
      row <- idx (ToDense x) j ;;
      xji <- idx row i ;;
      Ok (grad + xji * (tau - 1))
    else
      row <- idx (ToDense x) j ;;
      xji <- idx row i ;;
      Ok (grad + xji * tau)) 0.

(** rq.go lines 101-114: the gradient vector and its largest magnitude. *)
Definition br_gradients (tau : float) (x : CSRMatrix) (residuals : list float)
  (n p : nat) : result (list float * float) :=
  for_loop p (fun i '(gradients, maxGrad) =>
    grad <- br_grad tau x residuals n i ;;
    Ok (<[i := grad]> gradients, math_Max maxGrad (abs grad)))
  (replicate p 0, 0).

(** rq.go lines 121-123. *)
Definition br_update (solution gradients : list float) (p : nat)
  : result (list float) :=
  for_loop p (fun i solution =>
    si <- idx solution i ;;
    gi <- idx gradients i ;;
    Ok (<[i := si - learningRate * gi]> solution)) solution.

(** rq.go lines 89-124: [iters] is the number of iterations still allowed. *)
Fixpoint br_loop (iters : nat) (tau : float) (y : list float) (x : CSRMatrix)
  (n p : nat) (solution : list float) : result (list float) :=
  match iters with
  | O => Ok solution
  | S iters' =>
      residuals <- br_residuals y x solution n p ;;
      '(gradients, maxGrad) <- br_gradients tau x residuals n p ;;
      if maxGrad <? tolerance then Ok solution
      else
        solution' <- br_update solution gradients p ;;
        br_loop iters' tau y x n p solution'
  end.

Definition solveBarrodaleRoberts (tau : float) (y : list float) (x : CSRMatrix)
  : result (list float) :=
  let n := length y in
  let p := Cols x in
  br_loop maxIter tau y x n p (replicate p 0).

(** rq.go lines 61-71: fitted values and residuals. *)
Definition rq_fitted_residuals (y : list float) (x : list (list float))
  (coef : list float) (n p : nat) : result (list (float * float)) :=
  fill n (0, 0) (fun i =>
    fitted <- for_loop p (fun j fitted =>
                row <- idx x i ;;
                xij <- idx row j ;;
                cj <- idx coef j ;;
                Ok (fitted + xij * cj)) 0 ;;
    yi <- idx y i ;;
    Ok (fitted, yi - fitted)).

Definition RQ (y : list float) (x : list (list float)) (tau : float)
  : result RQFit.t :=
  if (length y =? 0)%nat || (length x =? 0)%nat then Err EmptyInput
  else
    let n := length y in
    let p := length (hd [] x) in
    if negb (n =? length x)%nat then Err DimensionMismatch
    else if (tau <=? 0) || (1 <=? tau) then Err InvalidTau
    else
      let xMat := NewCSRMatrix x in
      match solveBarrodaleRoberts tau y xMat with
      | Err e => Err (OptimizationFailed e)
      | Panic => Panic
      | Ok coef =>
          fr <- rq_fitted_residuals y x coef n p ;;
          Ok {| RQFit.Coefficients := coef;
                RQFit.Residuals := map snd fr;
                RQFit.Fitted := map fst fr;
                RQFit.Tau := tau;
                RQFit.N := Z.of_nat n;
                RQFit.P := Z.of_nat p |}
      end.

(** rq.go lines 130-151. *)
Definition RQFit_Predict (fit : RQFit.t) (newX : list (list float))
  : result (list float) :=
  if (length newX =? 0)%nat then Err EmptyInput
  else if negb (Z.of_nat (length (hd [] newX)) =? RQFit.P fit)%Z
  then Err DimensionMismatch
  else
    let n := length newX in
    fill n 0 (fun i =>
      for_loop (Z.to_nat (RQFit.P fit)) (fun j pred =>
        row <- idx newX i ;;
        xij <- idx row j ;;
        cj <- idx (RQFit.Coefficients fit) j ;;
        Ok (pred + xij * cj)) 0).

(** ** nlrq.go: the non-linear fit *)

(** [NonLinearModel]: the value function and its gradient with respect to the
    parameters; both are pure functions of (parameters, covariate row). *)
Record NonLinearModel : Type := mkModel {
  F : list float -> list float -> float;
  Gradient : list float -> list float -> list float
}.

Module NLRQFit.
Record t : Type := mk {
  Coefficients : list float;
  Residuals : list float;
  Fitted : list float;
  Tau : float;
  N : Z;
  P : Z;
  Model : NonLinearModel
}.
End NLRQFit.

(** nlrq.go lines 95-102: residuals and per-observation gradients. *)
Definition ip_residuals (model : NonLinearModel) (y : list float)
  (x : list (list float)) (beta : list float) (n : nat)
  : result (list (float * list float)) :=
  fill n (0, []) (fun i =>
    xi <- idx x i ;;
    let predicted := F model beta xi in
    yi <- idx y i ;;
    Ok (yi - predicted, Gradient model beta xi)).

(** nlrq.go lines 105-114: the objective gradient. *)
Definition ip_objGrad (tau : float) (residuals : list float)
  (gradients : list (list float)) (n p : nat) : result (list float) :=
  for_loop p (fun j objGrad =>
    for_loop n (fun i objGrad =>
      ri <- idx residuals i ;;
      if 0 <? ri then
        oj <- idx objGrad j ;;
        gi <- idx gradients i ;;
        gij <- idx gi j ;;
        Ok (<[j := oj + gij * (tau - 1)]> objGrad)
      else
        oj <- idx objGrad j ;;
        gi <- idx gradients i ;;
        gij <- idx gi j ;;
        Ok (<[j := oj + gij * tau]> objGrad)) objGrad)
  (replicate p 0).

(** nlrq.go lines 117-120. *)
Definition ip_maxGrad (objGrad : list float) (p : nat) : result float :=
  for_loop p (fun j maxGrad =>
    oj <- idx objGrad j ;;
    Ok (math_Max maxGrad (abs oj))) 0.

(** nlrq.go lines 127-129. *)
Definition ip_update (beta objGrad : list float) (p : nat)
  : result (list float) :=
  for_loop p (fun j beta =>
    bj <- idx beta j ;;
    oj <- idx objGrad j ;;
    Ok (<[j := bj - learningRate * oj]> beta)) beta.

(** The growth factor of the barrier coefficient (nlrq.go line 87). *)
Definition mu : float := 10.0.

(** nlrq.go lines 93-133: the loop state is the parameter vector [beta] and
    the barrier coefficient [t]. *)
Fixpoint ip_loop (iters : nat) (tau : float) (model : NonLinearModel)
  (y : list float) (x : list (list float)) (n p : nat)
  (beta : list float) (t : float) : result (list float) :=
  match iters with
  | O => Ok beta
  | S iters' =>
      rg <- ip_residuals model y x beta n ;;
      let residuals := map fst rg in
      let gradients := map snd rg in
      objGrad <- ip_objGrad tau residuals gradients n p ;;
      maxGrad <- ip_maxGrad objGrad p ;;
      if maxGrad <? tolerance then Ok beta
      else
        beta' <- ip_update beta objGrad p ;;
        let t' := t * mu in
        ip_loop iters' tau model y x n p beta' t'
  end.

Definition solveInteriorPoint (tau : float) (model : NonLinearModel)
  (y : list float) (x : list (list float)) (beta0 : list float)
  : result (list float) :=
  let n := length y in
  let p := length beta0 in
  let t := 1.0 in
  ip_loop maxIter tau model y x n p beta0 t.

(** nlrq.go lines 65-72. *)
Definition nlrq_fitted_residuals (model : NonLinearModel) (y : list float)
  (x : list (list float)) (coef : list float) (n : nat)
  : result (list (float * float)) :=
  fill n (0, 0) (fun i =>
    xi <- idx x i ;;
    let fitted := F model coef xi in
    yi <- idx y i ;;
    Ok (fitted, yi - fitted)).

Definition NLRQ (y : list float) (x : list (list float))
  (model : NonLinearModel) (beta0 : list float) (tau : float)
  : result NLRQFit.t :=
  if (length y =? 0)%nat || (length x =? 0)%nat then Err EmptyInput
  else
    let n := length y in
    let p := length beta0 in
    if negb (n =? length x)%nat then Err DimensionMismatch
    else if (tau <=? 0) || (1 <=? tau) then Err InvalidTau
    else
      match solveInteriorPoint tau model y x beta0 with
      | Err e => Err (OptimizationFailed e)
      | Panic => Panic
      | Ok coef =>
          fr <- nlrq_fitted_residuals model y x coef n ;;
          Ok {| NLRQFit.Coefficients := coef;
                NLRQFit.Residuals := map snd fr;
                NLRQFit.Fitted := map fst fr;
                NLRQFit.Tau := tau;
                NLRQFit.N := Z.of_nat n;
                NLRQFit.P := Z.of_nat p;
                NLRQFit.Model := model |}
      end.

(** nlrq.go lines 139-152. *)
Definition NLRQFit_Predict (fit : NLRQFit.t) (newX : list (list float))
  : result (list float) :=
  if (length newX =? 0)%nat then Err EmptyInput
  else
    let n := length newX in
    fill n 0 (fun i =>
      xi <- idx newX i ;;
      Ok (F (NLRQFit.Model fit) (NLRQFit.Coefficients fit) xi)).

(** ** The multi-quantile orchestration and its diagnostics *)

(** The file of [RQProcess], [NLRQProcess] and [ComputeDiagnostics]; the line
    numbers quoted in this part are its. *)

(** A Go [map[float64]V].  Keys are compared with [==], so a NaN key is never
    found again and a store under a key already present replaces its entry.
    A missing key reads as [None], Go's nil pointer. *)
Definition fmap (V : Type) : Type := list (float * V).

Fixpoint map_get {V : Type} (m : fmap V) (k : float) : option V :=
  match m with
  | [] => None
  | (k', v) :: m' => if k' =? k then Some v else map_get m' k
  end.

Fixpoint map_set {V : Type} (m : fmap V) (k : float) (v : V) : fmap V :=
  match m with
  | [] => [(k, v)]
  | (k', v') :: m' =>
      if k' =? k then (k, v) :: m' else (k', v') :: map_set m' k v
  end.

(** [for i, v := range l { s = body i v s }]. *)
Fixpoint range_from {A S : Type} (i : nat) (l : list A)
  (body : nat -> A -> S -> result S) (s : S) : result S :=
  match l with
  | [] => Ok s
  | v :: l' => s' <- body i v s ;; range_from (Datatypes.S i) l' body s'
  end.

Definition range_loop {A S : Type} (l : list A)
  (body : nat -> A -> S -> result S) (s : S) : result S :=
  range_from 0 l body s.

Module MultiRQFit.
Record t : Type := mk {
  Fits : fmap RQFit.t;
  Taus : list float;
  N : Z;
  P : Z
}.
End MultiRQFit.

Module MultiNLRQFit.
Record t : Type := mk {
  Fits : fmap NLRQFit.t;
  Taus : list float;
  N : Z;
  P : Z;
  Model : NonLinearModel
}.
End MultiNLRQFit.

(** Lines 43-47 (and 86-90): every requested level is checked before any
    fit is attempted. *)
Definition check_taus (sortedTaus : list float) : result unit :=
  range_loop sortedTaus (fun _ tau _ =>
    if (tau <=? 0) || (1 <=? tau) then Err InvalidTau else Ok tt) tt.

Definition RQProcess (y : list float) (x : list (list float))
  (taus : list float) : result MultiRQFit.t :=
  if (length taus =? 0)%nat then Err EmptyTauSet
  else
    let sortedTaus := sortFloat64s taus in
    _ <- check_taus sortedTaus ;;
    '(fits, firstFit) <-
      range_loop sortedTaus (fun _ tau '(fits, firstFit) =>
        match RQ y x tau with
        | Err e => Err (FitFailed tau e)
        | Panic => Panic
        | Ok fit =>
            Ok (map_set fits tau fit,
                match firstFit with None => Some fit | Some _ => firstFit end)
        end) ([], None) ;;
    match firstFit with
    | None => Panic
    | Some first =>
        Ok {| MultiRQFit.Fits := fits;
              MultiRQFit.Taus := sortedTaus;
              MultiRQFit.N := RQFit.N first;
              MultiRQFit.P := RQFit.P first |}
    end.

Definition NLRQProcess (y : list float) (x : list (list float))
  (model : NonLinearModel) (beta0 : list float) (taus : list float)
  : result MultiNLRQFit.t :=
  if (length taus =? 0)%nat then Err EmptyTauSet
  else
    let sortedTaus := sortFloat64s taus in
    _ <- check_taus sortedTaus ;;
    '(fits, firstFit) <-
      range_loop sortedTaus (fun _ tau '(fits, firstFit) =>
        match NLRQ y x model beta0 tau with
        | Err e => Err (FitFailed tau e)
        | Panic => Panic
        | Ok fit =>
            Ok (map_set fits tau fit,
                match firstFit with None => Some fit | Some _ => firstFit end)
        end) ([], None) ;;
    match firstFit with
    | None => Panic
    | Some first =>
        Ok {| MultiNLRQFit.Fits := fits;
              MultiNLRQFit.Taus := sortedTaus;
              MultiNLRQFit.N := NLRQFit.N first;
              MultiNLRQFit.P := NLRQFit.P first;
              MultiNLRQFit.Model := model |}
    end.

Record Stats : Type := mkStats {
  Min : float;
  Max : float;
  Median : float;
  Mean : float;
  StdDev : float
}.

Record Diagnostics : Type := mkDiagnostics {
  PseudoRSquared : float;
  ResidualStats : fmap Stats;
  CrossingMatrix : list (list Z)
}.

(** [computeStats].  The three reads of [sorted] are in range because
    sorting keeps the length ([sortFloat64s_length]) and [n] is positive. *)
Definition computeStats (data : list float) : Stats :=
  let n := length data in
  if (n =? 0)%nat then mkStats 0 0 0 0 0
  else
    let sorted := sortFloat64s data in
    let '(sum, sumSq) :=
      fold_left (fun '(sum, sumSq) v => (sum + v, sumSq + v * v)) data (0, 0) in
    let mean := sum / float_of_len n in
    let variance := (sumSq / float_of_len n) - (mean * mean) in
    {| Min := nth 0 sorted 0;
       Max := nth (n - 1) sorted 0;
       Median := nth (n / 2) sorted 0;
       Mean := mean;
       StdDev := sqrt variance |}.

(** The test of [countCrossings] at position [i] (lines 278-279). *)
Definition crossing_at (fit1 fit2 : list float) (i : nat) : bool :=
  ((nth (i - 1) fit1 0 <=? nth (i - 1) fit2 0) && (nth i fit2 0 <? nth i fit1 0))
  || ((nth (i - 1) fit2 0 <=? nth (i - 1) fit1 0) && (nth i fit1 0 <? nth i fit2 0)).

(** [countCrossings]: every index read is below the common length. *)
Definition countCrossings (fit1 fit2 : list float) : Z :=
  if negb (length fit1 =? length fit2)%nat then 0%Z
  else
    fold_left (fun crossings i =>
                 if crossing_at fit1 fit2 i then (crossings + 1)%Z else crossings)
              (seq 1 (length fit1 - 1)) 0%Z.

(** [median]. *)
Definition median (data : list float) : float :=
  if (length data =? 0)%nat then 0
  else
    let sorted := sortFloat64s data in
    nth (length sorted / 2) sorted 0.

(** [computePseudoRSquared]: [fit.Fitted[i]] is read for every index of
    [fit.Residuals]. *)
Definition computePseudoRSquared (fit : RQFit.t) : result float :=
  let median := median (RQFit.Residuals fit) in
  '(sumRes, sumTot) <-
    range_loop (RQFit.Residuals fit) (fun i res '(sumRes, sumTot) =>
      fi <- idx (RQFit.Fitted fit) i ;;
      Ok (sumRes + abs res, sumTot + abs (fi - median))) (0, 0) ;;
  if sumTot =? 0 then Ok 0
  else Ok (1 - (sumRes / sumTot)).

(** [m[i][j] = v] on a slice of slices. *)
Definition mat_set (m : list (list Z)) (i j : nat) (v : Z)
  : result (list (list Z)) :=
  row <- idx m i ;;
  if (j <? length row)%nat then Ok (<[i := <[j := v]> row]> m) else Panic.

(** [ComputeDiagnostics] (lines 204-240).  Reading a field of a fit that is
    missing from [Fits] dereferences nil and panics. *)
Definition ComputeDiagnostics (m : MultiRQFit.t) : result Diagnostics :=
  let taus := MultiRQFit.Taus m in
  let crossing0 := replicate (length taus) (replicate (length taus) 0%Z) in
  '(stats, crossing) <-
    range_loop taus (fun i tau1 '(stats, crossing) =>
      match map_get (MultiRQFit.Fits m) tau1 with
      | None => Panic
      | Some fit1 =>
          let st := computeStats (RQFit.Residuals fit1) in
          let stats := map_set stats tau1 st in
          crossing <-
            range_loop taus (fun j tau2 crossing =>
              if (j <=? i)%nat then Ok crossing
              else
                match map_get (MultiRQFit.Fits m) tau2 with
                | None => Panic
                | Some fit2 =>
                    let crossings :=
                      countCrossings (RQFit.Fitted fit1) (RQFit.Fitted fit2) in
                    crossing <- mat_set crossing i j crossings ;;
                    mat_set crossing j i crossings
                end) crossing ;;
          Ok (stats, crossing)
      end) ([], crossing0) ;;
  match map_get (MultiRQFit.Fits m) 0.5 with
  | Some medianFit =>
      r2 <- computePseudoRSquared medianFit ;;
      Ok {| PseudoRSquared := r2;
            ResidualStats := stats;
            CrossingMatrix := crossing |}
  | None =>
      Ok {| PseudoRSquared := 0;
            ResidualStats := stats;
            CrossingMatrix := crossing |}
  end.

(** ** Prediction over an aggregate *)

(** [fit.Predict(newX)] called through a pointer that may be nil, as
    [m.Fits[tau].Predict(newX)] does for a level without an entry.  Both
    methods test [len(newX)] before they read a field of the fit: a nil fit
    still answers empty rows with the error, and dereferences nil on
    anything else. *)
Definition RQFit_Predict_ptr (fit : option RQFit.t)
  (newX : list (list float)) : result (list float) :=
  match fit with
  | Some fit => RQFit_Predict fit newX
  | None => if (length newX =? 0)%nat then Err EmptyInput else Panic
  end.

Definition NLRQFit_Predict_ptr (fit : option NLRQFit.t)
  (newX : list (list float)) : result (list float) :=
  match fit with
  | Some fit => NLRQFit_Predict fit newX
  | None => if (length newX =? 0)%nat then Err EmptyInput else Panic
  end.

(** [MultiRQFit.Predict], lines 118-130. *)
Definition MultiRQFit_Predict (m : MultiRQFit.t) (newX : list (list float))
  : result (fmap (list float)) :=
  range_loop (MultiRQFit.Taus m) (fun _ tau predictions =>
    match RQFit_Predict_ptr (map_get (MultiRQFit.Fits m) tau) newX with
    | Err e => Err (PredictionFailed tau e)
    | Panic => Panic
    | Ok pred => Ok (map_set predictions tau pred)
    end) [].

(** [MultiNLRQFit.Predict], lines 133-145. *)
Definition MultiNLRQFit_Predict (m : MultiNLRQFit.t)
  (newX : list (list float)) : result (fmap (list float)) :=
  range_loop (MultiNLRQFit.Taus m) (fun _ tau predictions =>
    match NLRQFit_Predict_ptr (map_get (MultiNLRQFit.Fits m) tau) newX with
    | Err e => Err (PredictionFailed tau e)
    | Panic => Panic
    | Ok pred => Ok (map_set predictions tau pred)
    end) [].

(** ** Summaries *)

(** [fmt.Sprintf] renders numbers by rules of Go's library that are not
    modelled here.  The renderings of the verbs the package uses are the
    fields of a [Formatter]; the literal text of every format string is
    kept, and what is proved of a summary holds for every rendering. *)
Record Formatter : Type := mkFormatter {
  verb_2f : float -> string;
  verb_6f : float -> string;
  verb_f : float -> string;
  verb_d : Z -> string;
  verb_v : list float -> string
}.

(** The line feed that ends the lines of a summary. *)
Definition nl : string := String (Ascii.ascii_of_nat 10) EmptyString.

(** The loop over the coefficients that all four summaries share:
    [for i, coef := range fit.Coefficients
       { result += fmt.Sprintf("  Beta[%d]: %.6f\n", i, coef) }]. *)
Definition coefficient_lines (fmt : Formatter) (coefficients : list float)
  (out : string) : result string :=
  range_loop coefficients (fun i coef out =>
    Ok (out +:+ "  Beta[" +:+ verb_d fmt (Z.of_nat i) +:+ "]: "
               +:+ verb_6f fmt coef +:+ nl)) out.

(** The residual block the two single summaries share (rq.go lines
    165-178, nlrq.go lines 166-178): the residuals are sorted, their
    absolute values are summed into a variable that is never read, and the
    sorted values at [0], [len-1] and [len/2] are printed.  With no
    residuals the read at [0] is out of range, before the one at [len-1]
    is reached. *)
Definition residual_summary (fmt : Formatter) (residuals : list float)
  (out : string) : result string :=
  let sortedResiduals := sortFloat64s residuals in
  let sumAbs := fold_left (fun sumAbs r => sumAbs + abs r) sortedResiduals 0 in
  let out := out +:+ nl +:+ "Residual summary:" +:+ nl in
  v <- idx sortedResiduals 0 ;;
  let out := out +:+ "  Min: " +:+ verb_6f fmt v +:+ nl in
  v <- idx sortedResiduals (length sortedResiduals - 1)%nat ;;
  let out := out +:+ "  Max: " +:+ verb_6f fmt v +:+ nl in
  v <- idx sortedResiduals (length sortedResiduals / 2)%nat ;;
  let out := out +:+ "  Median: " +:+ verb_6f fmt v +:+ nl in
  Ok out.

(** [RQFit.Summary], rq.go lines 154-180. *)
Definition RQFit_Summary (fmt : Formatter) (fit : RQFit.t) : result string :=
  let out :=
    "Quantile Regression (tau = " +:+ verb_2f fmt (RQFit.Tau fit) +:+ ")"
    +:+ nl in
  let out :=
    out +:+ "Number of observations: " +:+ verb_d fmt (RQFit.N fit)
    +:+ nl in
  let out :=
    out +:+ "Number of parameters: " +:+ verb_d fmt (RQFit.P fit)
    +:+ nl +:+ nl in
  let out := out +:+ "Coefficients:" +:+ nl in
  out <- coefficient_lines fmt (RQFit.Coefficients fit) out ;;
  residual_summary fmt (RQFit.Residuals fit) out.

(** [NLRQFit.Summary], nlrq.go lines 155-181. *)
Definition NLRQFit_Summary (fmt : Formatter) (fit : NLRQFit.t)
  : result string :=
  let out :=
    "Non-linear Quantile Regression (tau = "
    +:+ verb_2f fmt (NLRQFit.Tau fit) +:+ ")" +:+ nl in
  let out :=
    out +:+ "Number of observations: " +:+ verb_d fmt (NLRQFit.N fit)
    +:+ nl in
  let out :=
    out +:+ "Number of parameters: " +:+ verb_d fmt (NLRQFit.P fit)
    +:+ nl +:+ nl in
  let out := out +:+ "Coefficients:" +:+ nl in
  out <- coefficient_lines fmt (NLRQFit.Coefficients fit) out ;;
  residual_summary fmt (NLRQFit.Residuals fit) out.

(** The loop over the levels that the two aggregate summaries share (lines
    154-162 and 174-182): [fit := m.Fits[tau]] is nil for a level without
    an entry, and [fit.Coefficients] then dereferences nil. *)
Definition level_blocks {Fit : Type} (coefficients : Fit -> list float)
  (fmt : Formatter) (fits : fmap Fit) (taus : list float) (out : string)
  : result string :=
  range_loop taus (fun _ tau out =>
    let fit := map_get fits tau in
    let out := out +:+ "=== Quantile " +:+ verb_f fmt tau +:+ " ==="
                  +:+ nl in
    let out := out +:+ "Coefficients:" +:+ nl in
    match fit with
    | None => Panic
    | Some fit =>
        out <- coefficient_lines fmt (coefficients fit) out ;;
        Ok (out +:+ nl)
    end) out.

(** [MultiRQFit.Summary], lines 148-165. *)
Definition MultiRQFit_Summary (fmt : Formatter) (m : MultiRQFit.t)
  : result string :=
  let out := "Multiple Quantile Regression" +:+ nl in
  let out :=
    out +:+ "Number of observations: " +:+ verb_d fmt (MultiRQFit.N m)
    +:+ nl in
  let out :=
    out +:+ "Number of parameters: " +:+ verb_d fmt (MultiRQFit.P m)
    +:+ nl in
  let out :=
    out +:+ "Quantile levels: " +:+ verb_v fmt (MultiRQFit.Taus m)
    +:+ nl +:+ nl in
  level_blocks RQFit.Coefficients fmt (MultiRQFit.Fits m) (MultiRQFit.Taus m)
    out.

(** [MultiNLRQFit.Summary], lines 168-185. *)
Definition MultiNLRQFit_Summary (fmt : Formatter) (m : MultiNLRQFit.t)
  : result string :=
  let out := "Multiple Non-linear Quantile Regression" +:+ nl in
  let out :=
    out +:+ "Number of observations: " +:+ verb_d fmt (MultiNLRQFit.N m)
    +:+ nl in
  let out :=
    out +:+ "Number of parameters: " +:+ verb_d fmt (MultiNLRQFit.P m)
    +:+ nl in
  let out :=
    out +:+ "Quantile levels: " +:+ verb_v fmt (MultiNLRQFit.Taus m)
    +:+ nl +:+ nl in
  level_blocks NLRQFit.Coefficients fmt (MultiNLRQFit.Fits m)
    (MultiNLRQFit.Taus m) out.

(** ** Reference definitions the properties are stated against *)

(** The one-sided subgradient of the check loss for parameter [j]: the sum
    over the [n] observations of the partial derivative of the fitted value
    times [tau - 1] where the residual is strictly positive and times [tau]
    elsewhere. *)
Definition subgradient (tau : float) (residuals : list float)
  (partials : list (list float)) (n j : nat) : float :=
  fold_left (fun acc i =>
               acc + nth j (nth i partials []) 0 * br_weight tau (nth i residuals 0))
            (seq 0 n) 0.

(** The non-linear iteration with the two barrier variables removed. *)
Fixpoint ip_loop_nobarrier (iters : nat) (tau : float) (model : NonLinearModel)
  (y : list float) (x : list (list float)) (n p : nat)
  (beta : list float) : result (list float) :=
  match iters with
  | O => Ok beta
  | S iters' =>
      rg <- ip_residuals model y x beta n ;;
      let residuals := map fst rg in
      let gradients := map snd rg in
      objGrad <- ip_objGrad tau residuals gradients n p ;;
      maxGrad <- ip_maxGrad objGrad p ;;
      if maxGrad <? tolerance then Ok beta
      else
        beta' <- ip_update beta objGrad p ;;
        ip_loop_nobarrier iters' tau model y x n p beta'
  end.

Definition solveInteriorPoint_nobarrier (tau : float) (model : NonLinearModel)
  (y : list float) (x : list (list float)) (beta0 : list float)
  : result (list float) :=
  ip_loop_nobarrier maxIter tau model y x (length y) (length beta0) beta0.

(** ** Quantile levels *)

(** The validity test the four fit operations apply to a quantile level:
    [tau <= 0 || tau >= 1]. *)
Definition tau_rejected (tau : float) : bool := (tau <=? 0) || (1 <=? tau).

(** A quantile level strictly between 0 and 1. *)
Definition valid_tau (tau : float) : Prop :=
  (0 <? tau) = true /\ (tau <? 1) = true.

(** Ascending order of a level sequence. *)
Definition ascending (l : list float) : Prop :=
  Sorted (fun a b => (a <=? b) = true) l.

(** Removal of repeated values from a sorted sequence. *)
Fixpoint dedup_sorted (l : list float) : list float :=
  match l with
  | [] => []
  | a :: l' =>
      match l' with
      | [] => [a]
      | b :: _ => if a =? b then dedup_sorted l' else a :: dedup_sorted l'
      end
  end.

(** A key that orders the binary64 values that are numbers: the sign class,
    then exponent and mantissa, both negated for negative values. *)
Definition order_key (f : spec_float) : Z * Z * Z :=
  match f with
  | S754_zero _ => (0, 0, 0)%Z
  | S754_infinity s => (if s then (-2)%Z else 2%Z, 0%Z, 0%Z)
  | S754_nan => (0, 0, 0)%Z
  | S754_finite s m e =>
      if s then ((-1)%Z, (- e)%Z, Zneg m) else (1%Z, e, Zpos m)
  end.

(** Lexicographic order of keys. *)
Definition key_le (p q : Z * Z * Z) : Prop :=
  let '(p1, p2, p3) := p in
  let '(q1, q2, q3) := q in
  (p1 < q1 \/ (p1 = q1 /\ (p2 < q2 \/ (p2 = q2 /\ p3 <= q3))))%Z.

(** ** Fixed-step subgradient descent, as the specification words it *)

(** The linear predictor [x[i] . beta] over [p] parameters. *)
Definition linear_predictor (x : list (list float)) (beta : list float)
  (p i : nat) : float :=
  fold_left (fun acc j => acc + nth j (nth i x []) 0 * nth j beta 0) (seq 0 p) 0.

(** The largest absolute gradient component. *)
Definition max_abs (g : list float) : float :=
  fold_left (fun m gj => math_Max m (abs gj)) g 0.

(** One step of fixed size [learningRate] against the gradient. *)
Definition descent_step (p : nat) (beta g : list float) : list float :=
  map (fun j => nth j beta 0 - learningRate * nth j g 0) (seq 0 p).

(** The subgradient of the total check loss of the linear model at [beta]. *)
Definition linear_gradient (tau : float) (y : list float)
  (x : list (list float)) (n p : nat) (beta : list float) : list float :=
  let residuals := map (fun i => nth i y 0 - linear_predictor x beta p i) (seq 0 n) in
  map (subgradient tau residuals x n) (seq 0 p).

(** The same for a non-linear model: fitted values and partial derivatives
    come from the model's functions at the current parameters. *)
Definition model_gradient (tau : float) (model : NonLinearModel)
  (y : list float) (x : list (list float)) (n p : nat) (beta : list float)
  : list float :=
  let residuals := map (fun i => nth i y 0 - F model beta (nth i x [])) (seq 0 n) in
  let partials := map (fun i => Gradient model beta (nth i x [])) (seq 0 n) in
  map (subgradient tau residuals partials n) (seq 0 p).

(** Descent for at most [k] iterations: stop, without stepping, as soon as
    the largest absolute gradient component is below [tolerance]. *)
Fixpoint descent (k : nat) (grad : list float -> list float) (p : nat)
  (beta : list float) : list float :=
  match k with
  | O => beta
  | S k' =>
      let g := grad beta in
      if max_abs g <? tolerance then beta
      else descent k' grad p (descent_step p beta g)
  end.

(** The number of steps [descent] takes. *)
Fixpoint descent_steps (k : nat) (grad : list float -> list float) (p : nat)
  (beta : list float) : nat :=
  match k with
  | O => O
  | S k' =>
      let g := grad beta in
      if max_abs g <? tolerance then O
      else S (descent_steps k' grad p (descent_step p beta g))
  end.

(** The iterate after exactly [m] steps, with no stopping rule. *)
Fixpoint iterate (m : nat) (grad : list float -> list float) (p : nat)
  (beta : list float) : list float :=
  match m with
  | O => beta
  | S m' => iterate m' grad p (descent_step p beta (grad beta))
  end.

(** [beta] is what descent from [beta0] returns within [k] iterations: the
    iterate after [m <= k] steps, where the largest absolute gradient
    component was not below [tolerance] before any of the [m] steps, and is
    below it at [beta] unless all [k] iterations were used. *)
Definition descent_result (k : nat) (grad : list float -> list float) (p : nat)
  (beta0 beta : list float) : Prop :=
  exists m,
    (m <= k)%nat /\
    beta = iterate m grad p beta0 /\
    ((m < k)%nat -> (max_abs (grad beta) <? tolerance) = true) /\
    (forall m', (m' < m)%nat ->
       (max_abs (grad (iterate m' grad p beta0)) <? tolerance) = false).

(** ** Diagnostics, as the specification words them *)

(** Entry [(a, b)] of a matrix of counts. *)
Definition mat_get (m : list (list Z)) (a b : nat) : Z :=
  nth b (nth a m []) 0%Z.

(** The fitted values of the fit stored under the [i]-th sorted level. *)
Definition fitted_of (m : MultiRQFit.t) (i : nat) : list float :=
  match map_get (MultiRQFit.Fits m) (nth i (MultiRQFit.Taus m) 0) with
  | Some fit => RQFit.Fitted fit
  | None => []
  end.

(** The ordering of two sequences flips at position [k >= 1]: the first is
    at most the second at [k - 1] but above it at [k], or the mirror case. *)
Definition ordering_flips (s1 s2 : list float) (k : nat) : bool :=
  ((nth (k - 1) s1 0 <=? nth (k - 1) s2 0) && (nth k s2 0 <? nth k s1 0))
  || ((nth (k - 1) s2 0 <=? nth (k - 1) s1 0) && (nth k s1 0 <? nth k s2 0)).

(** The number of positions [1 <= k < len] at which the ordering flips. *)
Definition flip_count (s1 s2 : list float) : Z :=
  Z.of_nat (length (List.filter (ordering_flips s1 s2) (seq 1 (length s1 - 1)))).

(** The pseudo-R-squared of a fit: one minus the sum of absolute residuals
    over the sum of absolute deviations of the fitted values from the median
    of the residuals, and 0 when that denominator is exactly zero. *)
Definition pseudo_r_squared (fit : RQFit.t) : float :=
  let m := median (RQFit.Residuals fit) in
  let num := fold_left (fun acc r => acc + abs r) (RQFit.Residuals fit) 0 in
  let den :=
    fold_left (fun acc i => acc + abs (nth i (RQFit.Fitted fit) 0 - m))
              (seq 0 (length (RQFit.Residuals fit))) 0 in
  if den =? 0 then 0 else 1 - num / den.

(** An aggregate as [RQProcess] builds it: every level has a fit, and
    every fit has as many fitted values as residuals. *)
Definition complete_aggregate (m : MultiRQFit.t) : Prop :=
  (forall tau, In tau (MultiRQFit.Taus m) ->
     exists fit, map_get (MultiRQFit.Fits m) tau = Some fit) /\
  (forall k fit, map_get (MultiRQFit.Fits m) k = Some fit ->
     length (RQFit.Residuals fit) = length (RQFit.Fitted fit)).

(** The variance [computeStats] takes the square root of:
    [sum(v^2)/n - mean^2]. *)
Definition variance (data : list float) : float :=
  let n := float_of_len (length data) in
  let sum := fold_left (fun s v => s + v) data 0 in
  let sumSq := fold_left (fun s v => s + v * v) data 0 in
  sumSq / n - (sum / n) * (sum / n).

(** The value of rank [k] among [data] in ascending order, said without
    sorting: it occurs in the data, at most [k] of the data are below it and
    more than [k] of them are at or below it.  The median of the
    specification, the element at index [n/2] of the sorted data, is the
    value of rank [n/2]. *)
Definition has_rank (data : list float) (k : nat) (m : float) : Prop :=
  In m data /\
  (length (List.filter (fun v => (v <? m)%float) data) <= k)%nat /\
  (k < length (List.filter (fun v => (v <=? m)%float) data))%nat.

(** The same in the order of [sort.Float64s], which also places NaN, below
    every number. *)
Definition has_sort_rank (data : list float) (k : nat) (m : float) : Prop :=
  In m data /\
  (length (List.filter (fun v => float_less v m) data) <= k)%nat /\
  (k < length (List.filter (fun v => negb (float_less m v)) data))%nat.

(** ** Example inputs *)

(** The data set of the README and of the package's tests. *)
Definition readme_x : list (list float) :=
  [[1; 0.5]; [1; 1.0]; [1; 1.5]; [1; 2.0]; [1; 2.5]].
Definition readme_y : list float := [1.0; 2.0; 2.5; 3.0; 4.0].

(** A one-parameter model, [f(beta, x) = beta[0] * x[0]], and its gradient. *)
Definition scale_model : NonLinearModel :=
  {| F := fun beta x => nth 0 beta 0 * nth 0 x 0;
     Gradient := fun beta x => [nth 0 x 0] |}.

(** Four observations of an intercept-only model. *)
Definition ones_x : list (list float) := [[1]; [1]; [1]; [1]].
Definition spread_y : list float := [0.1; 1; 1; 3].

(** Two responses with covariate rows of unequal width. *)
Definition ragged_y : list float := [1; 2].
Definition ragged_x : list (list float) := [[1; 1]; [1]].

(** A two-parameter model over one covariate,
    [f(beta, x) = beta[0] + beta[1] * x[0]], with the covariates, starting
    point and new rows of the package's non-linear test.  Where the Go model
    would index out of range and panic, [nth] gives 0: the model is used
    below with two parameters and rows of one entry only. *)
Definition affine_model : NonLinearModel :=
  {| F := fun beta x => nth 0 beta 0 + nth 1 beta 0 * nth 0 x 0;
     Gradient := fun beta x => [1; nth 0 x 0] |}.
Definition test_x : list (list float) := [[0.0]; [0.5]; [1.0]; [1.5]; [2.0]].
Definition line_y : list float := [1.0; 1.25; 1.5; 1.75; 2.0].
Definition test_beta0 : list float := [0.5; 0.1].
Definition test_newX : list (list float) := [[2.5]; [3.0]].

(** Three equal responses over an all-zero covariate: the fit is the zero
    coefficient and every residual is the response itself. *)
Definition const_y : list float := [0.1; 0.1; 0.1].
Definition zero_x : list (list float) := [[0]; [0]; [0]].

(** A stored linear fit with the single coefficient 2, an aggregate holding
    it under the level 0.5, and an aggregate that lists the level 0.5
    without holding a fit for it. *)
Definition doubling_fit : RQFit.t :=
  {| RQFit.Coefficients := [2]; RQFit.Residuals := [0.5; -0.5; 0];
     RQFit.Fitted := [1; 2; 3]; RQFit.Tau := 0.5;
     RQFit.N := 3; RQFit.P := 1 |}.
Definition doubling_aggregate : MultiRQFit.t :=
  {| MultiRQFit.Fits := [(0.5, doubling_fit)]; MultiRQFit.Taus := [0.5];
     MultiRQFit.N := 3; MultiRQFit.P := 1 |}.
Definition orphan_aggregate : MultiRQFit.t :=
  {| MultiRQFit.Fits := []; MultiRQFit.Taus := [0.5];
     MultiRQFit.N := 3; MultiRQFit.P := 1 |}.

(** The same for the non-linear fit, over [scale_model]. *)
Definition scaling_fit : NLRQFit.t :=
  {| NLRQFit.Coefficients := [2]; NLRQFit.Residuals := [0.5; -0.5; 0];
     NLRQFit.Fitted := [1; 2; 3]; NLRQFit.Tau := 0.5;
     NLRQFit.N := 3; NLRQFit.P := 1; NLRQFit.Model := scale_model |}.
Definition scaling_aggregate : MultiNLRQFit.t :=
  {| MultiNLRQFit.Fits := [(0.5, scaling_fit)]; MultiNLRQFit.Taus := [0.5];
     MultiNLRQFit.N := 3; MultiNLRQFit.P := 1;
     MultiNLRQFit.Model := affine_model |}.
Definition orphan_nl_aggregate : MultiNLRQFit.t :=
  {| MultiNLRQFit.Fits := []; MultiNLRQFit.Taus := [0.5];
     MultiNLRQFit.N := 3; MultiNLRQFit.P := 1;
     MultiNLRQFit.Model := scale_model |}.

(** A rendering that prints every number as a question mark, and a linear
    fit that holds coefficients but no residuals. *)
Definition mute_formatter : Formatter :=
  {| verb_2f := fun _ => "?"; verb_6f := fun _ => "?"; verb_f := fun _ => "?";
     verb_d := fun _ => "?"; verb_v := fun _ => "?" |}.
Definition bare_fit : RQFit.t :=
  {| RQFit.Coefficients := [2]; RQFit.Residuals := [];
     RQFit.Fitted := []; RQFit.Tau := 0.5; RQFit.N := 0; RQFit.P := 1 |}.
Definition bare_aggregate : MultiRQFit.t :=
  {| MultiRQFit.Fits := [(0.5, bare_fit)]; MultiRQFit.Taus := [0.5];
     MultiRQFit.N := 0; MultiRQFit.P := 1 |}.

(** Two stored linear fits with one and with two parameters, and an
    aggregate that holds the first under 0.25 and the second under 0.5. *)
Definition quarter_fit : RQFit.t :=
  {| RQFit.Coefficients := [2]; RQFit.Residuals := [0.5; -0.5; 0];
     RQFit.Fitted := [1; 2; 3]; RQFit.Tau := 0.25;
     RQFit.N := 3; RQFit.P := 1 |}.
Definition pair_fit : RQFit.t :=
  {| RQFit.Coefficients := [1; 1]; RQFit.Residuals := [0.5; -0.5; 0];
     RQFit.Fitted := [1; 2; 3]; RQFit.Tau := 0.5;
     RQFit.N := 3; RQFit.P := 2 |}.
Definition mixed_aggregate : MultiRQFit.t :=
  {| MultiRQFit.Fits := [(0.25, quarter_fit); (0.5, pair_fit)];
     MultiRQFit.Taus := [0.25; 0.5];
     MultiRQFit.N := 3; MultiRQFit.P := 1 |}.
(** The same levels with no fit stored under the second. *)
Definition halved_aggregate : MultiRQFit.t :=
  {| MultiRQFit.Fits := [(0.25, quarter_fit)];
     MultiRQFit.Taus := [0.25; 0.5];
     MultiRQFit.N := 3; MultiRQFit.P := 1 |}.

(** A model without parameters, [f(beta, x) = x[0]], whose gradient is
    empty. *)
Definition covariate_model : NonLinearModel :=
  {| F := fun beta x => nth 0 x 0; Gradient := fun beta x => [] |}.

(** ** Loops *)

#[local] Open Scope nat_scope.

Lemma idx_ok {A : Type} (s : list A) (i : nat) (d : A) :
  i < length s -> idx s i = Ok (nth i s d).
Proof.
  intros H. unfold idx. destruct (lookup_lt_is_Some_2 s i H) as [v Hv].
  rewrite Hv. f_equal. symmetry. now apply nth_lookup_Some.
Qed.

Lemma idx_panic {A : Type} (s : list A) (i : nat) :
  length s <= i -> idx s i = Panic.
Proof. intros H. unfold idx. now rewrite (lookup_ge_None_2 s i H). Qed.

(** A loop whose body never fails establishes its invariant. *)
Lemma for_from_inv {S : Type} (I : nat -> S -> Prop) (k lo : nat)
  (body : nat -> S -> result S) (s : S) :
  I lo s ->
  (forall i s, lo <= i < lo + k -> I i s ->
     exists s', body i s = Ok s' /\ I (Datatypes.S i) s') ->
  exists s', for_from lo k body s = Ok s' /\ I (lo + k) s'.
Proof.
  revert lo s. induction k as [|k IH]; intros lo s H0 Hstep; simpl.
  - exists s. split; [reflexivity|]. now replace (lo + 0) with lo by lia.
  - destruct (Hstep lo s ltac:(lia) H0) as (s1 & Hb & H1). rewrite Hb. simpl.
    destruct (IH (Datatypes.S lo) s1 H1) as (s2 & Hf & H2).
    + intros i s' Hi. apply Hstep. lia.
    + exists s2. split; [exact Hf|].
      now replace (lo + Datatypes.S k) with (Datatypes.S lo + k) by lia.
Qed.

Lemma for_loop_inv {S : Type} (I : nat -> S -> Prop) (n : nat)
  (body : nat -> S -> result S) (s : S) :
  I 0 s ->
  (forall i s, i < n -> I i s ->
     exists s', body i s = Ok s' /\ I (Datatypes.S i) s') ->
  exists s', for_loop n body s = Ok s' /\ I n s'.
Proof.
  intros H0 Hstep. apply (for_from_inv I n 0 body s H0).
  intros i s' Hi. apply Hstep. lia.
Qed.

(** A loop panics as soon as one iteration does, if none before it
    returned an error. *)
Lemma for_from_panic {S : Type} (k lo i : nat) (body : nat -> S -> result S)
  (s : S) :
  lo <= i < lo + k ->
  (forall s, body i s = Panic) ->
  (forall i' s e, lo <= i' < i -> body i' s <> Err e) ->
  for_from lo k body s = Panic.
Proof.
  revert lo s. induction k as [|k IH]; intros lo s Hi Hp Hne; [lia|]. simpl.
  destruct (Nat.eq_dec lo i) as [->|Hneq].
  - now rewrite Hp.
  - destruct (body lo s) as [s'| e |] eqn:Hb; simpl.
    + apply IH; [lia|exact Hp|]. intros i' s0 e Hi'. apply Hne. lia.
    + exfalso. apply (Hne lo s e); [lia|exact Hb].
    + reflexivity.
Qed.

Lemma mapM_seq_ok {B : Type} (f : nat -> result B) (g : nat -> B) (k lo : nat) :
  (forall i, lo <= i < lo + k -> f i = Ok (g i)) ->
  mapM f (seq lo k) = Ok (map g (seq lo k)).
Proof.
  revert lo. induction k as [|k IH]; intros lo H; simpl; [reflexivity|].
  rewrite (H lo) by lia. simpl. rewrite IH; [reflexivity|].
  intros i Hi. apply H. lia.
Qed.

Lemma mapM_length {A B : Type} (f : A -> result B) (l : list A) (bs : list B) :
  mapM f l = Ok bs -> length bs = length l.
Proof.
  revert bs. induction l as [|a l IH]; simpl; intros bs H.
  - now inversion H.
  - destruct (f a); simpl in H; try discriminate.
    destruct (mapM f l); simpl in H; try discriminate.
    inversion H. simpl. f_equal. now apply IH.
Qed.

Lemma mapM_nth {B : Type} (f : nat -> result B) (k lo : nat) (bs : list B)
  (d : B) (i : nat) :
  mapM f (seq lo k) = Ok bs -> i < k -> f (lo + i) = Ok (nth i bs d).
Proof.
  revert lo bs i. induction k as [|k IH]; intros lo bs i H Hi; [lia|].
  simpl in H. destruct (f lo) as [b| |] eqn:Hf; simpl in H; try discriminate.
  destruct (mapM f (seq (Datatypes.S lo) k)) as [bs'| |] eqn:Hm; simpl in H;
    try discriminate.
  inversion H; subst bs. destruct i as [|i]; simpl.
  - now replace (lo + 0) with lo by lia.
  - replace (lo + Datatypes.S i) with (Datatypes.S lo + i) by lia.
    apply IH; [exact Hm|lia].
Qed.

(** Filling a fresh slice index by index collects the values in order. *)
Lemma fill_from_mapM {A : Type} (f : nat -> result A) (k lo : nat) (a : list A) :
  lo + k <= length a ->
  for_from lo k (fun i a => v <- f i ;; Ok (<[i := v]> a)) a
  = (vs <- mapM f (seq lo k) ;; Ok (take lo a ++ vs ++ drop (lo + k) a)).
Proof.
  revert lo a. induction k as [|k IH]; intros lo a Hlen; simpl.
  - replace (lo + 0) with lo by lia. now rewrite take_drop.
  - destruct (f lo) as [v| |]; simpl; try reflexivity.
    rewrite IH by (rewrite length_insert; lia).
    destruct (mapM f (seq (Datatypes.S lo) k)) as [vs| |]; simpl; try reflexivity.
    f_equal.
    assert (Hv : <[lo := v]> a !! lo = Some v)
      by (apply list_lookup_insert_eq; lia).
    rewrite (take_S_r _ _ _ Hv), take_insert_ge by lia.
    rewrite drop_insert_lt by lia.
    rewrite <- app_assoc. simpl.
    now replace (lo + Datatypes.S k) with (Datatypes.S (lo + k)) by lia.
Qed.

Lemma fill_mapM {A : Type} (n : nat) (zero : A) (f : nat -> result A) :
  fill n zero f = mapM f (seq 0 n).
Proof.
  unfold fill, for_loop. rewrite fill_from_mapM by (rewrite length_replicate; lia).
  destruct (mapM f (seq 0 n)) as [vs| |] eqn:Hm; simpl; try reflexivity.
  rewrite drop_ge by (rewrite length_replicate; lia).
  now rewrite app_nil_r.
Qed.

(** ** The gradient loops of both solvers *)

Lemma fold_left_seq_S {A : Type} (f : A -> nat -> A) (n : nat) (a : A) :
  fold_left f (seq 0 (S n)) a = f (fold_left f (seq 0 n) a) n.
Proof. now rewrite seq_S, fold_left_app. Qed.

Section Subgradient.
Variables (tau : float) (residuals : list float) (partials : list (list float)).
Variables (n p : nat).
Hypothesis Hres : length residuals = n.
Hypothesis Hrows : n <= length partials.
Hypothesis Hcols : forall i, i < n -> p <= length (nth i partials []).

Let sg := subgradient tau residuals partials n.

Lemma br_grad_subgradient (x : CSRMatrix) (j : nat) :
  ToDense x = partials -> j < p ->
  br_grad tau x residuals n j = Ok (sg j).
Proof.
  intros Hx Hj. unfold br_grad, for_loop.
  destruct (for_from_inv
    (fun i acc => acc = fold_left (fun acc i =>
       (acc + nth j (nth i partials []) 0 * br_weight tau (nth i residuals 0))%float)
       (seq 0 i) 0%float) n 0
    (fun j0 grad =>
       bind (idx residuals j0) (fun rj =>
         if (0 <? rj)%float
         then bind (idx (ToDense x) j0) (fun row =>
                bind (idx row j) (fun xji => Ok (grad + xji * (tau - 1))%float))
         else bind (idx (ToDense x) j0) (fun row =>
                bind (idx row j) (fun xji => Ok (grad + xji * tau)%float))))
    0%float) as (acc & Hacc & Hinv).
  - reflexivity.
  - intros i acc Hi ->. rewrite Hx.
    rewrite (idx_ok residuals i 0%float) by lia. cbn [bind].
    rewrite (idx_ok partials i []) by lia.
    assert (Hc : j < length (nth i partials [])) by (specialize (Hcols i); lia).
    destruct (0 <? nth i residuals 0)%float eqn:Hr; cbn [bind];
      rewrite (idx_ok _ j 0%float Hc); cbn [bind];
      (eexists; split; [reflexivity|]); cbv beta;
      rewrite fold_left_seq_S; unfold br_weight; now rewrite Hr.
  - rewrite Hacc, Hinv. reflexivity.
Qed.

Lemma br_gradients_subgradient (x : CSRMatrix) :
  ToDense x = partials ->
  br_gradients tau x residuals n p
  = Ok (map sg (seq 0 p),
        fold_left (fun m g => math_Max m (abs g)) (map sg (seq 0 p)) 0%float).
Proof.
  intros Hx. unfold br_gradients, for_loop.
  destruct (for_from_inv
    (fun i (st : list float * float) =>
       st = (map sg (seq 0 i) ++ replicate (p - i) 0%float,
             fold_left (fun m g => math_Max m (abs g)) (map sg (seq 0 i)) 0%float))
    p 0
    (fun i '(gradients, maxGrad) =>
       bind (br_grad tau x residuals n i) (fun grad =>
         Ok (<[i := grad]> gradients, math_Max maxGrad (abs grad))))
    (replicate p 0%float, 0%float)) as (st & Hst & Hinv).
  - simpl. now rewrite Nat.sub_0_r.
  - intros i st Hi ->. rewrite (br_grad_subgradient x i Hx) by lia. cbn [bind].
    eexists. split; [reflexivity|]. f_equal.
    + rewrite seq_S, map_app. simpl.
      replace (p - i) with (S (p - S i)) by lia. simpl.
      replace i with (length (map sg (seq 0 i)) + 0) at 1
        by (rewrite length_map, length_seq; lia).
      rewrite insert_app_r. simpl. now rewrite <- app_assoc.
    + now rewrite seq_S, map_app, fold_left_app.
  - rewrite Hst, Hinv. simpl. now rewrite Nat.sub_diag, app_nil_r.
Qed.

Lemma ip_objGrad_subgradient :
  ip_objGrad tau residuals partials n p = Ok (map sg (seq 0 p)).
Proof.
  unfold ip_objGrad, for_loop.
  destruct (for_from_inv
    (fun j og => og = map sg (seq 0 j) ++ replicate (p - j) 0%float) p 0
    (fun j objGrad =>
       for_from 0 n (fun i objGrad =>
         bind (idx residuals i) (fun ri =>
           if (0 <? ri)%float
           then bind (idx objGrad j) (fun oj =>
                  bind (idx partials i) (fun gi =>
                    bind (idx gi j) (fun gij =>
                      Ok (<[j := (oj + gij * (tau - 1))%float]> objGrad))))
           else bind (idx objGrad j) (fun oj =>
                  bind (idx partials i) (fun gi =>
                    bind (idx gi j) (fun gij =>
                      Ok (<[j := (oj + gij * tau)%float]> objGrad))))))
         objGrad)
    (replicate p 0%float)) as (og & Hog & Hinv).
  - simpl. now rewrite Nat.sub_0_r.
  - intros j og0 Hj ->.
    set (pre := map sg (seq 0 j)).
    assert (Hpre : length pre = j) by (unfold pre; rewrite length_map, length_seq; lia).
    set (part := fun i => fold_left (fun acc i =>
       (acc + nth j (nth i partials []) 0 * br_weight tau (nth i residuals 0))%float)
       (seq 0 i) 0%float).
    destruct (for_from_inv
      (fun i og => og = pre ++ part i :: replicate (p - S j) 0%float) n 0
      (fun i objGrad =>
         bind (idx residuals i) (fun ri =>
           if (0 <? ri)%float
           then bind (idx objGrad j) (fun oj =>
                  bind (idx partials i) (fun gi =>
                    bind (idx gi j) (fun gij =>
                      Ok (<[j := (oj + gij * (tau - 1))%float]> objGrad))))
           else bind (idx objGrad j) (fun oj =>
                  bind (idx partials i) (fun gi =>
                    bind (idx gi j) (fun gij =>
                      Ok (<[j := (oj + gij * tau)%float]> objGrad))))))
      (pre ++ replicate (p - j) 0%float)) as (og & Hog & Hinv).
    + replace (p - j) with (S (p - S j)) by lia. reflexivity.
    + intros i og Hi ->.
      rewrite (idx_ok residuals i 0%float) by lia. cbn [bind].
      assert (Hoj : idx (pre ++ part i :: replicate (p - S j) 0%float) j
                    = Ok (part i)).
      { unfold idx. rewrite lookup_app_r by lia.
        now replace (j - length pre) with 0 by lia. }
      assert (Hc : j < length (nth i partials [])) by (specialize (Hcols i); lia).
      assert (Hins : forall v : float,
                <[j := v]> (pre ++ part i :: replicate (p - S j) 0%float)
                = pre ++ v :: replicate (p - S j) 0%float).
      { intros v. replace j with (length pre + 0) at 1 by lia.
        now rewrite insert_app_r. }
      destruct (0 <? nth i residuals 0)%float eqn:Hr; cbn [bind];
        rewrite Hoj; cbn [bind]; rewrite (idx_ok partials i []) by lia; cbn [bind];
        rewrite (idx_ok _ j 0%float Hc); cbn [bind]; rewrite Hins;
        (eexists; split; [reflexivity|]); cbv beta;
        unfold part at 2; rewrite fold_left_seq_S; fold (part i);
        unfold br_weight; now rewrite Hr.
    + exists og. split; [exact Hog|]. rewrite Hinv. cbv beta.
      rewrite seq_S, map_app. simpl map. fold pre.
      unfold part. fold (sg j). now rewrite <- app_assoc.
  - rewrite Hog, Hinv. now rewrite Nat.sub_diag, app_nil_r.
Qed.
End Subgradient.

(** ** The barrier variables of the non-linear solver *)

Lemma ip_loop_barrier_inert (iters : nat) (tau : float) (model : NonLinearModel)
  (y : list float) (x : list (list float)) (n p : nat) (beta : list float)
  (t : float) :
  ip_loop iters tau model y x n p beta t
  = ip_loop_nobarrier iters tau model y x n p beta.
Proof.
  revert beta t. induction iters as [|iters IH]; intros beta t; simpl.
  - reflexivity.
  - destruct (ip_residuals model y x beta n) as [rg| |]; simpl; try reflexivity.
    destruct (ip_objGrad tau (map fst rg) (map snd rg) n p) as [og| |]; simpl;
      try reflexivity.
    destruct (ip_maxGrad og p) as [mg| |]; simpl; try reflexivity.
    destruct (mg <? tolerance)%float; try reflexivity.
    destruct (ip_update beta og p) as [beta'| |]; simpl; try reflexivity.
    apply IH.
Qed.

(** C8.  The barrier coefficient and its growth factor are inert: for every
    input, [solveInteriorPoint] returns what the same iteration without the
    two barrier variables returns, and the result of the loop is the same
    for any two values of the barrier coefficient. *)
Theorem barrier_variables_inert (tau : float) (model : NonLinearModel)
  (y : list float) (x : list (list float)) (beta0 : list float) :
  solveInteriorPoint tau model y x beta0
  = solveInteriorPoint_nobarrier tau model y x beta0
  /\ forall iters n p beta t t',
       ip_loop iters tau model y x n p beta t
       = ip_loop iters tau model y x n p beta t'.
Proof.
  split.
  - apply ip_loop_barrier_inert.
  - intros. now rewrite !ip_loop_barrier_inert.
Qed.

(** ** Fitted values and residuals of a single fit *)

Lemma rq_fitted_residuals_spec (y : list float) (x : list (list float))
  (coef : list float) (n p : nat) (fr : list (float * float)) :
  rq_fitted_residuals y x coef n p = Ok fr ->
  length fr = n /\
  forall i, i < n ->
    snd (nth i fr (0, 0)%float)
    = (nth i y 0 - fst (nth i fr (0, 0)%float))%float.
Proof.
  unfold rq_fitted_residuals. rewrite fill_mapM. intros H. split.
  - rewrite (mapM_length _ _ _ H). apply length_seq.
  - intros i Hi.
    pose proof (mapM_nth _ _ _ _ (0, 0)%float i H Hi) as Hn. simpl in Hn.
    destruct (for_loop p _ _) as [fitted| |]; simpl in Hn; try discriminate.
    unfold idx in Hn. destruct (y !! i) as [yi|] eqn:Hy; simpl in Hn;
      try discriminate.
    rewrite (nth_lookup_Some _ _ 0%float _ Hy).
    inversion Hn as [Hn']. reflexivity.
Qed.

Lemma nlrq_fitted_residuals_spec (model : NonLinearModel) (y : list float)
  (x : list (list float)) (coef : list float) (n : nat)
  (fr : list (float * float)) :
  nlrq_fitted_residuals model y x coef n = Ok fr ->
  length fr = n /\
  forall i, i < n ->
    fst (nth i fr (0, 0)%float) = F model coef (nth i x []) /\
    snd (nth i fr (0, 0)%float)
    = (nth i y 0 - fst (nth i fr (0, 0)%float))%float.
Proof.
  unfold nlrq_fitted_residuals. rewrite fill_mapM. intros H. split.
  - rewrite (mapM_length _ _ _ H). apply length_seq.
  - intros i Hi.
    pose proof (mapM_nth _ _ _ _ (0, 0)%float i H Hi) as Hn. simpl in Hn.
    unfold idx in Hn.
    destruct (x !! i) as [xi|] eqn:Hx; simpl in Hn; try discriminate.
    destruct (y !! i) as [yi|] eqn:Hy; simpl in Hn; try discriminate.
    rewrite (nth_lookup_Some _ _ 0%float _ Hy), (nth_lookup_Some _ _ [] _ Hx).
    inversion Hn as [Hn']. split; reflexivity.
Qed.

(** What a successful [RQ] returns. *)
Lemma RQ_ok_inv (y : list float) (x : list (list float)) (tau : float)
  (fit : RQFit.t) :
  RQ y x tau = Ok fit ->
  exists coef fr,
    solveBarrodaleRoberts tau y (NewCSRMatrix x) = Ok coef /\
    rq_fitted_residuals y x coef (length y) (length (hd [] x)) = Ok fr /\
    fit = {| RQFit.Coefficients := coef;
             RQFit.Residuals := map snd fr;
             RQFit.Fitted := map fst fr;
             RQFit.Tau := tau;
             RQFit.N := Z.of_nat (length y);
             RQFit.P := Z.of_nat (length (hd [] x)) |}.
Proof.
  unfold RQ.
  destruct ((length y =? 0) || (length x =? 0)); [discriminate|].
  destruct (negb (length y =? length x)); [discriminate|].
  destruct ((tau <=? 0)%float || (1 <=? tau)%float); [discriminate|].
  destruct (solveBarrodaleRoberts tau y (NewCSRMatrix x)) as [coef| |];
    try discriminate.
  destruct (rq_fitted_residuals y x coef _ _) as [fr| |] eqn:Hfr; simpl;
    try discriminate.
  intros H. inversion H. eauto.
Qed.

Lemma NLRQ_ok_inv (y : list float) (x : list (list float))
  (model : NonLinearModel) (beta0 : list float) (tau : float)
  (fit : NLRQFit.t) :
  NLRQ y x model beta0 tau = Ok fit ->
  exists coef fr,
    solveInteriorPoint tau model y x beta0 = Ok coef /\
    nlrq_fitted_residuals model y x coef (length y) = Ok fr /\
    fit = {| NLRQFit.Coefficients := coef;
             NLRQFit.Residuals := map snd fr;
             NLRQFit.Fitted := map fst fr;
             NLRQFit.Tau := tau;
             NLRQFit.N := Z.of_nat (length y);
             NLRQFit.P := Z.of_nat (length beta0);
             NLRQFit.Model := model |}.
Proof.
  unfold NLRQ.
  destruct ((length y =? 0) || (length x =? 0)); [discriminate|].
  destruct (negb (length y =? length x)); [discriminate|].
  destruct ((tau <=? 0)%float || (1 <=? tau)%float); [discriminate|].
  destruct (solveInteriorPoint tau model y x beta0) as [coef| |];
    try discriminate.
  destruct (nlrq_fitted_residuals model y x coef _) as [fr| |] eqn:Hfr; simpl;
    try discriminate.
  intros H. inversion H. eauto.
Qed.

Lemma nth_map_pair {A B : Type} (f : A * B -> float) (l : list (A * B))
  (d : A * B) (i : nat) :
  i < length l -> nth i (map f l) 0%float = f (nth i l d).
Proof.
  intros Hi. rewrite (nth_indep _ 0%float (f d)) by (rewrite length_map; lia).
  apply map_nth.
Qed.

(** ** Results that are never errors *)

Lemma no_err_Ok {A : Type} (a : A) : no_err (Ok a).
Proof. intros e. discriminate. Qed.

Lemma no_err_Panic {A : Type} : no_err (@Panic A).
Proof. intros e. discriminate. Qed.

Lemma no_err_idx {A : Type} (s : list A) (i : nat) : no_err (idx s i).
Proof. unfold idx. destruct (s !! i); intros e; discriminate. Qed.

Lemma no_err_bind {A B : Type} (m : result A) (k : A -> result B) :
  no_err m -> (forall a, no_err (k a)) -> no_err (bind m k).
Proof.
  intros Hm Hk. destruct m as [a|e|]; simpl.
  - apply Hk.
  - exfalso. now apply (Hm e).
  - apply no_err_Panic.
Qed.

Lemma no_err_for_from {S : Type} (k lo : nat) (body : nat -> S -> result S)
  (s : S) :
  (forall i s, no_err (body i s)) -> no_err (for_from lo k body s).
Proof.
  intros Hb. revert lo s. induction k as [|k IH]; intros lo s; simpl.
  - apply no_err_Ok.
  - apply no_err_bind; [apply Hb|]. intros s'. apply IH.
Qed.

Ltac no_err_tac :=
  repeat first
    [ apply no_err_Ok | apply no_err_Panic | apply no_err_idx
    | apply no_err_for_from; intros
    | apply no_err_bind; [|intros]
    | match goal with
      | |- no_err (if ?c then _ else _) => destruct c
      | |- no_err (match ?c with _ => _ end) => destruct c
      end ].

Lemma fill_panic {A : Type} (n : nat) (zero : A) (f : nat -> result A) (i : nat) :
  i < n -> f i = Panic -> (forall i', i' < i -> no_err (f i')) ->
  fill n zero f = Panic.
Proof.
  intros Hi Hp Hne. unfold fill, for_loop.
  apply (for_from_panic n 0 i); [lia| |].
  - intros s. now rewrite Hp.
  - intros i' s e Hi' H. destruct (f i') as [v|e'|] eqn:Hf; simpl in H;
      try discriminate.
    apply (Hne i' ltac:(lia) e'). exact Hf.
Qed.

Lemma for_loop_panic {S : Type} (n i : nat) (body : nat -> S -> result S) (s : S) :
  i < n -> (forall s, body i s = Panic) -> (forall i' s, no_err (body i' s)) ->
  for_loop n body s = Panic.
Proof.
  intros Hi Hp Hne. apply (for_from_panic n 0 i); [lia|exact Hp|].
  intros i' s' e _. apply Hne.
Qed.

(** ** The loops of the two solvers in closed form *)

Lemma dot_loop (rows : list (list float)) (coef : list float) (p i : nat) :
  i < length rows -> p <= length (nth i rows []) -> p <= length coef ->
  for_loop p (fun j acc =>
    bind (idx rows i) (fun row =>
      bind (idx row j) (fun xij =>
        bind (idx coef j) (fun cj => Ok (acc + xij * cj)%float)))) 0%float
  = Ok (linear_predictor rows coef p i).
Proof.
  intros Hi Hrow Hcoef.
  destruct (for_loop_inv
    (fun j acc => acc = fold_left (fun acc j =>
       (acc + nth j (nth i rows []) 0 * nth j coef 0)%float) (seq 0 j) 0%float)
    p
    (fun j acc =>
      bind (idx rows i) (fun row =>
        bind (idx row j) (fun xij =>
          bind (idx coef j) (fun cj => Ok (acc + xij * cj)%float))))
    0%float) as (acc & Hacc & Hinv).
  - reflexivity.
  - intros j acc Hj ->.
    rewrite (idx_ok rows i []) by lia. cbn [bind].
    rewrite (idx_ok _ j 0%float) by lia. cbn [bind].
    rewrite (idx_ok coef j 0%float) by lia. cbn [bind].
    eexists. split; [reflexivity|]. now rewrite fold_left_seq_S.
  - rewrite Hacc, Hinv. reflexivity.
Qed.

Lemma update_loop (p : nat) (beta g : list float) :
  length beta = p -> p <= length g ->
  br_update beta g p = Ok (descent_step p beta g).
Proof.
  intros Hb Hg. unfold br_update.
  set (f := fun j => (nth j beta 0 - learningRate * nth j g 0)%float).
  destruct (for_loop_inv
    (fun i s => s = map f (seq 0 i) ++ drop i beta) p
    (fun i solution =>
       bind (idx solution i) (fun si =>
         bind (idx g i) (fun gi =>
           Ok (<[i := (si - learningRate * gi)%float]> solution))))
    beta) as (s & Hs & Hinv).
  - reflexivity.
  - intros i s Hi ->.
    assert (Hpre : length (map f (seq 0 i)) = i)
      by (rewrite length_map, length_seq; lia).
    assert (Hbi : beta !! i = Some (nth i beta 0%float)).
    { destruct (lookup_lt_is_Some_2 beta i ltac:(lia)) as [v Hv].
      rewrite Hv. f_equal. symmetry. now apply nth_lookup_Some. }
    assert (Hsi : idx (map f (seq 0 i) ++ drop i beta) i = Ok (nth i beta 0%float)).
    { unfold idx. rewrite lookup_app_r by lia. rewrite Hpre, Nat.sub_diag.
      rewrite lookup_drop, Nat.add_0_r. now rewrite Hbi. }
    rewrite Hsi. cbn [bind]. rewrite (idx_ok g i 0%float) by lia. cbn [bind].
    eexists. split; [reflexivity|]. cbv beta.
    rewrite seq_S, map_app. simpl map. rewrite <- app_assoc. simpl app.
    rewrite (drop_S _ _ _ Hbi).
    replace i with (length (map f (seq 0 i)) + 0) at 1 by lia.
    now rewrite insert_app_r.
  - rewrite Hs, Hinv. rewrite drop_ge by lia. now rewrite app_nil_r.
Qed.

Lemma maxGrad_loop (p : nat) (g : list float) :
  length g = p -> ip_maxGrad g p = Ok (max_abs g).
Proof.
  intros Hg. unfold ip_maxGrad.
  destruct (for_loop_inv
    (fun j m => m = max_abs (take j g)) p
    (fun j maxGrad =>
       bind (idx g j) (fun oj => Ok (math_Max maxGrad (abs oj))))
    0%float) as (m & Hm & Hinv).
  - reflexivity.
  - intros j m Hj ->. rewrite (idx_ok g j 0%float) by lia. cbn [bind].
    eexists. split; [reflexivity|]. cbv beta.
    assert (Hgj : g !! j = Some (nth j g 0%float)).
    { destruct (lookup_lt_is_Some_2 g j ltac:(lia)) as [v Hv].
      rewrite Hv. f_equal. symmetry. now apply nth_lookup_Some. }
    rewrite (take_S_r _ _ _ Hgj). unfold max_abs. now rewrite fold_left_app.
  - rewrite Hm, Hinv. now rewrite take_ge by lia.
Qed.

Lemma descent_step_length (p : nat) (beta g : list float) :
  length (descent_step p beta g) = p.
Proof. unfold descent_step. now rewrite length_map, length_seq. Qed.

Lemma nth_map_seq {A : Type} (f : nat -> A) (n i : nat) (d : A) :
  i < n -> nth i (map f (seq 0 n)) d = f i.
Proof.
  intros Hi. rewrite (nth_indep _ d (f 0)) by (rewrite length_map, length_seq; lia).
  rewrite map_nth. now rewrite seq_nth by lia.
Qed.

Lemma Forall_rows (x : list (list float)) (p : nat) :
  Forall (fun row => p <= length row) x ->
  forall i, i < length x -> p <= length (nth i x []).
Proof.
  intros H i Hi. rewrite Forall_lookup in H.
  destruct (lookup_lt_is_Some_2 x i Hi) as [row Hrow].
  rewrite (nth_lookup_Some _ _ [] _ Hrow). exact (H i row Hrow).
Qed.

(** ** The solvers are fixed-step subgradient descent *)

Section LinearSolver.
Variables (tau : float) (y : list float) (x : list (list float)) (n p : nat).
Hypothesis Hy : length y = n.
Hypothesis Hx : length x = n.
Hypothesis Hrow : forall i, i < n -> p <= length (nth i x []).

Lemma br_residuals_closed (solution : list float) :
  p <= length solution ->
  br_residuals y (NewCSRMatrix x) solution n p
  = Ok (map (fun i => (nth i y 0 - linear_predictor x solution p i)%float)
            (seq 0 n)).
Proof.
  intros Hs. unfold br_residuals. rewrite fill_mapM.
  apply mapM_seq_ok. intros i Hi. change (ToDense (NewCSRMatrix x)) with x.
  rewrite dot_loop by (try apply Hrow; lia). cbn [bind].
  rewrite (idx_ok y i 0%float) by lia. reflexivity.
Qed.

Lemma br_loop_descent (iters : nat) (solution : list float) :
  length solution = p ->
  br_loop iters tau y (NewCSRMatrix x) n p solution
  = Ok (descent iters (linear_gradient tau y x n p) p solution).
Proof.
  revert solution. induction iters as [|iters IH]; intros solution Hs.
  - reflexivity.
  - cbn [br_loop descent]. rewrite br_residuals_closed by lia. cbn [bind].
    rewrite (br_gradients_subgradient tau _ x n p); cycle 1.
    + now rewrite length_map, length_seq.
    + lia.
    + exact Hrow.
    + reflexivity.
    + cbn [bind]. fold (linear_gradient tau y x n p solution).
      fold (max_abs (linear_gradient tau y x n p solution)).
      destruct (max_abs (linear_gradient tau y x n p solution) <? tolerance)%float;
        [reflexivity|].
      rewrite update_loop; cycle 1.
      * exact Hs.
      * unfold linear_gradient. rewrite length_map, length_seq. lia.
      * cbn [bind]. apply IH. apply descent_step_length.
Qed.
End LinearSolver.

Section NonLinearSolver.
Variables (tau : float) (model : NonLinearModel).
Variables (y : list float) (x : list (list float)) (n p : nat).
Hypothesis Hy : length y = n.
Hypothesis Hx : length x = n.
Hypothesis Hgrad :
  forall beta i, i < n -> p <= length (Gradient model beta (nth i x [])).

Lemma ip_residuals_closed (beta : list float) :
  ip_residuals model y x beta n
  = Ok (map (fun i => ((nth i y 0 - F model beta (nth i x []))%float,
                       Gradient model beta (nth i x [])))
            (seq 0 n)).
Proof.
  unfold ip_residuals. rewrite fill_mapM.
  apply mapM_seq_ok. intros i Hi.
  rewrite (idx_ok x i []) by lia. cbn [bind].
  rewrite (idx_ok y i 0%float) by lia. reflexivity.
Qed.

Lemma ip_loop_descent (iters : nat) (beta : list float) :
  length beta = p ->
  ip_loop_nobarrier iters tau model y x n p beta
  = Ok (descent iters (model_gradient tau model y x n p) p beta).
Proof.
  revert beta. induction iters as [|iters IH]; intros beta Hb.
  - reflexivity.
  - cbn [ip_loop_nobarrier descent]. rewrite ip_residuals_closed. cbn [bind].
    rewrite !map_map. cbn [fst snd].
    rewrite (ip_objGrad_subgradient tau _ _ n p); cycle 1.
    + now rewrite length_map, length_seq.
    + rewrite length_map, length_seq. lia.
    + intros i Hi. rewrite nth_map_seq by lia. now apply Hgrad.
    + cbn [bind]. fold (model_gradient tau model y x n p beta).
      rewrite maxGrad_loop
        by (unfold model_gradient; now rewrite length_map, length_seq).
      cbn [bind].
      destruct (max_abs (model_gradient tau model y x n p beta) <? tolerance)%float;
        [reflexivity|].
      change (ip_update beta (model_gradient tau model y x n p beta) p)
        with (br_update beta (model_gradient tau model y x n p beta) p).
      rewrite update_loop; cycle 1.
      * exact Hb.
      * unfold model_gradient. rewrite length_map, length_seq. lia.
      * cbn [bind]. apply IH. apply descent_step_length.
Qed.
End NonLinearSolver.

(** ** What [descent] returns *)

Lemma descent_iterate (k : nat) (grad : list float -> list float) (p : nat)
  (beta : list float) :
  descent k grad p beta = iterate (descent_steps k grad p beta) grad p beta.
Proof.
  revert beta. induction k as [|k IH]; intros beta; simpl; [reflexivity|].
  destruct (max_abs (grad beta) <? tolerance)%float; simpl; [reflexivity|].
  apply IH.
Qed.

Lemma descent_steps_le (k : nat) (grad : list float -> list float) (p : nat)
  (beta : list float) :
  descent_steps k grad p beta <= k.
Proof.
  revert beta. induction k as [|k IH]; intros beta; simpl; [lia|].
  destruct (max_abs (grad beta) <? tolerance)%float; [lia|].
  specialize (IH (descent_step p beta (grad beta))). lia.
Qed.

Lemma descent_steps_stop (k : nat) (grad : list float -> list float) (p : nat)
  (beta : list float) :
  descent_steps k grad p beta < k ->
  (max_abs (grad (iterate (descent_steps k grad p beta) grad p beta))
   <? tolerance)%float = true.
Proof.
  revert beta. induction k as [|k IH]; intros beta; simpl; [lia|].
  destruct (max_abs (grad beta) <? tolerance)%float eqn:Hm; simpl.
  - intros _. exact Hm.
  - intros H. apply IH. lia.
Qed.

Lemma descent_steps_before (k : nat) (grad : list float -> list float) (p : nat)
  (beta : list float) (m : nat) :
  m < descent_steps k grad p beta ->
  (max_abs (grad (iterate m grad p beta)) <? tolerance)%float = false.
Proof.
  revert beta m. induction k as [|k IH]; intros beta m; simpl; [lia|].
  destruct (max_abs (grad beta) <? tolerance)%float eqn:Hm; simpl; [lia|].
  intros H. destruct m as [|m]; simpl; [exact Hm|]. apply IH. lia.
Qed.

Lemma iterate_length (m : nat) (grad : list float -> list float) (p : nat)
  (beta : list float) :
  length beta = p -> length (iterate m grad p beta) = p.
Proof.
  revert beta. induction m as [|m IH]; intros beta Hb; simpl; [exact Hb|].
  apply IH. apply descent_step_length.
Qed.

Lemma descent_descent_result (k : nat) (grad : list float -> list float)
  (p : nat) (beta0 : list float) :
  descent_result k grad p beta0 (descent k grad p beta0).
Proof.
  exists (descent_steps k grad p beta0). repeat split.
  - apply descent_steps_le.
  - apply descent_iterate.
  - intros H. rewrite descent_iterate. now apply descent_steps_stop.
  - intros m' H. now apply (descent_steps_before k).
Qed.

(** ** Order and equality of binary64 values *)

Lemma SFcompare_antisym (a b : spec_float) :
  SFcompare b a = option_map CompOpp (SFcompare a b).
Proof.
  destruct a as [sa|sa| |sa ma ea], b as [sb|sb| |sb mb eb]; simpl;
    try reflexivity;
    try (destruct sa; reflexivity);
    try (destruct sb; reflexivity);
    try (destruct sa, sb; reflexivity).
  pose proof (Pos.compare_cont_antisym ma mb Eq) as Hm. simpl in Hm.
  change (PosDef.Pos.compare_cont Eq ma mb) with (Pos.compare_cont Eq ma mb).
  change (PosDef.Pos.compare_cont Eq mb ma) with (Pos.compare_cont Eq mb ma).
  destruct sa, sb; simpl; try reflexivity;
    rewrite (Z.compare_antisym ea eb);
    destruct (ea ?= eb)%Z; simpl; try reflexivity;
    rewrite <- Hm; destruct (Pos.compare_cont Eq ma mb); reflexivity.
Qed.

Lemma SFcompare_Eq_cases (a b : spec_float) :
  SFcompare a b = Some Eq ->
  a = b \/ exists s s', a = S754_zero s /\ b = S754_zero s'.
Proof.
  destruct a as [sa|sa| |sa ma ea], b as [sb|sb| |sb mb eb]; simpl;
    try discriminate; try (destruct sa; discriminate);
    try (destruct sb; discriminate).
  - intros _. right. eauto.
  - destruct sa, sb; try discriminate; intros _; now left.
  - change (PosDef.Pos.compare_cont Eq ma mb) with (Pos.compare ma mb).
    destruct sa, sb; try discriminate;
      destruct (ea ?= eb)%Z eqn:He; try discriminate;
      apply Z.compare_eq in He; subst eb;
      destruct (Pos.compare ma mb) eqn:Hm; try discriminate;
      apply Pos.compare_eq in Hm; subst mb; intros _; now left.
Qed.

Lemma float_eqb_compare (a b : float) :
  (a =? b)%float = true <-> SFcompare (Prim2SF a) (Prim2SF b) = Some Eq.
Proof.
  rewrite FloatAxioms.eqb_spec. unfold SFeqb.
  destruct (SFcompare (Prim2SF a) (Prim2SF b)) as [[]|]; split; congruence.
Qed.

(** Values that compare equal are interchangeable in every comparison. *)
Lemma float_eqb_subst (a b c : float) :
  (a =? b)%float = true ->
  (a =? c)%float = (b =? c)%float /\ (c =? a)%float = (c =? b)%float.
Proof.
  intros H. apply float_eqb_compare in H.
  rewrite !FloatAxioms.eqb_spec. unfold SFeqb.
  destruct (SFcompare_Eq_cases _ _ H) as [E|(s & s' & Ea & Eb)].
  - now rewrite E.
  - rewrite Ea, Eb. split; [reflexivity|].
    destruct (Prim2SF c) as [sc|sc| |sc mc ec]; reflexivity.
Qed.

Lemma float_eqb_sym (a b : float) : (a =? b)%float = (b =? a)%float.
Proof.
  rewrite !FloatAxioms.eqb_spec. unfold SFeqb.
  rewrite (SFcompare_antisym (Prim2SF b) (Prim2SF a)).
  destruct (SFcompare (Prim2SF b) (Prim2SF a)) as [[]|]; reflexivity.
Qed.

Lemma ltb_asym (a b : float) : (a <? b)%float = true -> (b <? a)%float = false.
Proof.
  rewrite !ltb_spec. unfold SFltb.
  rewrite (SFcompare_antisym (Prim2SF a) (Prim2SF b)).
  destruct (SFcompare (Prim2SF a) (Prim2SF b)) as [[]|]; simpl; congruence.
Qed.

Lemma ltb_not_leb (a b : float) : (a <? b)%float = true -> (b <=? a)%float = false.
Proof.
  rewrite ltb_spec, leb_spec. unfold SFltb, SFleb.
  rewrite (SFcompare_antisym (Prim2SF a) (Prim2SF b)).
  destruct (SFcompare (Prim2SF a) (Prim2SF b)) as [[]|]; simpl; congruence.
Qed.

Lemma ltb_leb (a b : float) : (a <? b)%float = true -> (a <=? b)%float = true.
Proof.
  rewrite ltb_spec, leb_spec. unfold SFltb, SFleb.
  destruct (SFcompare (Prim2SF a) (Prim2SF b)) as [[]|]; simpl; congruence.
Qed.

Lemma is_nan_spec (a : float) : is_nan a = true <-> Prim2SF a = S754_nan.
Proof.
  unfold is_nan. rewrite FloatAxioms.eqb_spec. unfold SFeqb.
  destruct (Prim2SF a) as [s|s| |s m e]; simpl.
  - split; discriminate.
  - destruct s; split; discriminate.
  - split; reflexivity.
  - rewrite Z.compare_refl.
    change (PosDef.Pos.compare_cont Eq m m) with (Pos.compare_cont Eq m m).
    rewrite Pos.compare_cont_refl. destruct s; simpl; split; discriminate.
Qed.

Lemma not_nan_compare (a b : float) :
  is_nan a = false -> is_nan b = false ->
  exists c, SFcompare (Prim2SF a) (Prim2SF b) = Some c.
Proof.
  intros Ha Hb.
  assert (Ha' : Prim2SF a <> S754_nan) by (rewrite <- is_nan_spec; congruence).
  assert (Hb' : Prim2SF b <> S754_nan) by (rewrite <- is_nan_spec; congruence).
  destruct (Prim2SF a) as [sa|sa| |sa ma ea], (Prim2SF b) as [sb|sb| |sb mb eb];
    simpl in *; try congruence; eauto.
Qed.

Lemma not_ltb_leb (a b : float) :
  is_nan a = false -> is_nan b = false ->
  (a <? b)%float = false -> (b <=? a)%float = true.
Proof.
  intros Ha Hb. destruct (not_nan_compare a b Ha Hb) as [c Hc].
  rewrite ltb_spec, leb_spec. unfold SFltb, SFleb.
  rewrite (SFcompare_antisym (Prim2SF a) (Prim2SF b)), Hc.
  destruct c; simpl; congruence.
Qed.

Lemma ltb_not_nan (a b : float) :
  (a <? b)%float = true -> is_nan a = false /\ is_nan b = false.
Proof.
  rewrite ltb_spec. unfold SFltb. intros H.
  split; apply not_true_is_false; rewrite is_nan_spec; intros E; rewrite E in H.
  - discriminate.
  - destruct (Prim2SF a); discriminate.
Qed.

Lemma float_eqb_refl (a : float) : is_nan a = false -> (a =? a)%float = true.
Proof. unfold is_nan. now destruct (a =? a)%float. Qed.

Lemma float_eqb_eq (a b : float) :
  (a =? b)%float = true -> (b =? 0)%float = false -> a = b.
Proof.
  intros Hab Hb. apply float_eqb_compare in Hab.
  destruct (SFcompare_Eq_cases _ _ Hab) as [E|(s & s' & _ & E)].
  - now apply Prim2SF_inj.
  - rewrite FloatAxioms.eqb_spec, E in Hb. discriminate.
Qed.

(** ** The residual of a fit and the sum that undoes it *)

(** Adding back a difference taken from a value that is infinite or NaN
    gives NaN. *)
Lemma sum_with_difference_nan (y f : float) :
  (is_nan f || is_infinity f) = true ->
  is_nan (f + (y - f))%float = true.
Proof.
  intros Hf. apply is_nan_spec. rewrite add_spec, sub_spec.
  assert (Hc : Prim2SF f = S754_nan \/ exists s, Prim2SF f = S754_infinity s).
  { apply orb_true_iff in Hf as [Hf|Hf].
    - left. now apply is_nan_spec.
    - right. unfold is_infinity in Hf.
      rewrite FloatAxioms.eqb_spec, abs_spec in Hf.
      destruct (Prim2SF f) as [s|s| |s m e]; simpl in Hf; try discriminate.
      eauto. }
  destruct Hc as [->|[s ->]].
  - reflexivity.
  - destruct (Prim2SF y) as [sy|sy| |sy my ey]; destruct s; try destruct sy;
      reflexivity.
Qed.

(** C7 (as the code has it).  A successful fit, linear or non-linear, has
    residual and fitted vectors of length [N], the number of responses, and
    each residual is exactly the float difference [y[i] - fitted[i]].  The
    sum [fitted[i] + residuals[i]] is not [y[i]] in general: where the
    fitted value is infinite or NaN the sum is NaN, and where it is finite
    the sum can miss [y[i]] by the rounding of the two operations, as the
    fit of [spread_y] below does. *)
Theorem fit_residuals_definition :
  (forall y x tau fit, RQ y x tau = Ok fit ->
     RQFit.N fit = Z.of_nat (length y) /\
     length (RQFit.Residuals fit) = length y /\
     length (RQFit.Fitted fit) = length y /\
     forall i, i < length y ->
       nth i (RQFit.Residuals fit) 0%float
       = (nth i y 0 - nth i (RQFit.Fitted fit) 0)%float /\
       ((is_nan (nth i (RQFit.Fitted fit) 0%float)
         || is_infinity (nth i (RQFit.Fitted fit) 0%float)) = true ->
        is_nan (nth i (RQFit.Fitted fit) 0
                + nth i (RQFit.Residuals fit) 0)%float = true))
  /\
  (forall y x model beta0 tau fit, NLRQ y x model beta0 tau = Ok fit ->
     NLRQFit.N fit = Z.of_nat (length y) /\
     length (NLRQFit.Residuals fit) = length y /\
     length (NLRQFit.Fitted fit) = length y /\
     forall i, i < length y ->
       nth i (NLRQFit.Fitted fit) 0%float
       = F model (NLRQFit.Coefficients fit) (nth i x []) /\
       nth i (NLRQFit.Residuals fit) 0%float
       = (nth i y 0 - nth i (NLRQFit.Fitted fit) 0)%float /\
       ((is_nan (nth i (NLRQFit.Fitted fit) 0%float)
         || is_infinity (nth i (NLRQFit.Fitted fit) 0%float)) = true ->
        is_nan (nth i (NLRQFit.Fitted fit) 0
                + nth i (NLRQFit.Residuals fit) 0)%float = true)).
Proof.
  split.
  - intros y x tau fit H.
    destruct (RQ_ok_inv _ _ _ _ H) as (coef & fr & _ & Hfr & ->). simpl.
    destruct (rq_fitted_residuals_spec _ _ _ _ _ _ Hfr) as [Hlen Hnth].
    rewrite !length_map. repeat split; try exact Hlen.
    + rewrite (nth_map_pair snd fr (0, 0)%float),
        (nth_map_pair fst fr (0, 0)%float) by lia.
      now apply Hnth.
    + rewrite (nth_map_pair snd fr (0, 0)%float),
        (nth_map_pair fst fr (0, 0)%float) by lia.
      rewrite (Hnth i) by assumption. apply sum_with_difference_nan.
  - intros y x model beta0 tau fit H.
    destruct (NLRQ_ok_inv _ _ _ _ _ _ H) as (coef & fr & _ & Hfr & ->). simpl.
    destruct (nlrq_fitted_residuals_spec _ _ _ _ _ _ Hfr) as [Hlen Hnth].
    rewrite !length_map. repeat split; try exact Hlen.
    + rewrite (nth_map_pair fst fr (0, 0)%float) by lia. now apply Hnth.
    + rewrite (nth_map_pair snd fr (0, 0)%float),
        (nth_map_pair fst fr (0, 0)%float) by lia.
      now apply Hnth.
    + rewrite (nth_map_pair snd fr (0, 0)%float),
        (nth_map_pair fst fr (0, 0)%float) by lia.
      rewrite (proj2 (Hnth i ltac:(assumption))).
      apply sum_with_difference_nan.
Qed.

Lemma fit_residuals_definition_witness :
  (exists fit, RQ readme_y readme_x 0.5%float = Ok fit /\
     length (RQFit.Residuals fit) = 5 /\ length (RQFit.Fitted fit) = 5 /\
     nth 1 (RQFit.Residuals fit) 0%float
     = (nth 1 readme_y 0 - nth 1 (RQFit.Fitted fit) 0)%float)
  /\
  (exists fit, NLRQ spread_y ones_x scale_model [0.5%float] 0.5%float = Ok fit /\
     length (NLRQFit.Residuals fit) = 4 /\ length (NLRQFit.Fitted fit) = 4 /\
     nth 0 (NLRQFit.Residuals fit) 0%float
     = (nth 0 spread_y 0 - nth 0 (NLRQFit.Fitted fit) 0)%float)
  /\
  (exists fit, RQ [1e200%float] [[1e200%float]] 0.3%float = Ok fit /\
     is_nan (nth 0 (RQFit.Fitted fit) 0
             + nth 0 (RQFit.Residuals fit) 0)%float = true).
Proof.
  split; [|split].
  - destruct (RQ readme_y readme_x 0.5%float) as [fit| |] eqn:H;
      [|vm_compute in H; discriminate H|vm_compute in H; discriminate H].
    exists fit. split; [reflexivity|].
    destruct (proj1 fit_residuals_definition _ _ _ _ H) as (_ & Hr & Hf & Hi).
    repeat split; [exact Hr|exact Hf|]. apply Hi. simpl. lia.
  - destruct (NLRQ spread_y ones_x scale_model [0.5%float] 0.5%float)
      as [fit| |] eqn:H;
      [|vm_compute in H; discriminate H|vm_compute in H; discriminate H].
    exists fit. split; [reflexivity|].
    destruct (proj2 fit_residuals_definition _ _ _ _ _ _ H) as (_ & Hr & Hf & Hi).
    repeat split; [exact Hr|exact Hf|]. apply Hi. simpl. lia.
  - destruct (RQ [1e200%float] [[1e200%float]] 0.3%float) as [fit| |] eqn:H;
      [|vm_compute in H; discriminate H|vm_compute in H; discriminate H].
    exists fit. split; [reflexivity|].
    destruct (proj1 fit_residuals_definition _ _ _ _ H) as (_ & _ & _ & Hi).
    apply (Hi 0); [simpl; lia|].
    revert H. vm_compute. intros H. inversion H. reflexivity.
Defined.

(** C7, the claim as stated, fails: for the intercept-only fit of
    [spread_y] at the median the fit succeeds, yet at the first observation
    [fitted + residual] is not the response. *)
Lemma fit_identity_not_exact :
  match RQ spread_y ones_x 0.5%float with
  | Ok fit =>
      ((nth 0 (RQFit.Fitted fit) 0 + nth 0 (RQFit.Residuals fit) 0)%float
       =? nth 0 spread_y 0)%float
  | _ => true
  end = false.
Proof. vm_compute. reflexivity. Qed.

(** ** Sorting *)

Lemma sort_insert_perm (x : float) (l : list float) :
  Permutation (x :: l) (sort_insert x l).
Proof.
  induction l as [|y l IH]; simpl; [reflexivity|].
  destruct (float_less y x); [|reflexivity].
  rewrite perm_swap. now apply perm_skip.
Qed.

Lemma sortFloat64s_perm (l : list float) : Permutation l (sortFloat64s l).
Proof.
  induction l as [|x l IH]; simpl; [reflexivity|].
  rewrite <- sort_insert_perm. now apply perm_skip.
Qed.

Lemma sortFloat64s_length (l : list float) :
  length (sortFloat64s l) = length l.
Proof. symmetry. apply Permutation_length, sortFloat64s_perm. Qed.

Lemma sortFloat64s_In (l : list float) (x : float) :
  In x (sortFloat64s l) <-> In x l.
Proof.
  split; apply Permutation_in; [symmetry|]; apply sortFloat64s_perm.
Qed.

Lemma sort_insert_sorted (x : float) (l : list float) :
  is_nan x = false -> Forall (fun y => is_nan y = false) l ->
  Sorted (fun a b => (a <=? b)%float = true) l ->
  Sorted (fun a b => (a <=? b)%float = true) (sort_insert x l).
Proof.
  intros Hx Hl Hs. induction l as [|y l IH]; simpl.
  - repeat constructor.
  - inversion Hl as [|? ? Hy Hl']; subst. inversion Hs as [|? ? Hs' Hhd]; subst.
    unfold float_less. rewrite Hy, andb_false_l, orb_false_r.
    destruct (y <? x)%float eqn:Hyx.
    + constructor; [now apply IH|].
      destruct l as [|z l]; simpl.
      * constructor. now apply ltb_leb.
      * inversion Hl' as [|? ? Hz _]; subst.
        unfold float_less. rewrite Hz, andb_false_l, orb_false_r.
        destruct (z <? x)%float; constructor.
        -- now inversion Hhd.
        -- now apply ltb_leb.
    + constructor; [exact Hs|]. constructor. now apply not_ltb_leb.
Qed.

Lemma sortFloat64s_sorted (l : list float) :
  Forall (fun y => is_nan y = false) l ->
  Sorted (fun a b => (a <=? b)%float = true) (sortFloat64s l).
Proof.
  induction l as [|x l IH]; simpl; intros H; [constructor|].
  inversion H as [|? ? Hx Hl]; subst.
  apply sort_insert_sorted; [exact Hx| |now apply IH].
  exact (Permutation_Forall (sortFloat64s_perm l) Hl).
Qed.

(** ** Maps keyed by float64 *)

Lemma map_get_set {V : Type} (m : fmap V) (k k' : float) (v : V) :
  map_get (map_set m k v) k'
  = if (k =? k')%float then Some v else map_get m k'.
Proof.
  induction m as [|[k0 v0] m IH]; simpl; [reflexivity|].
  destruct (k0 =? k)%float eqn:H0; simpl.
  - destruct (float_eqb_subst k0 k k' H0) as [-> _].
    now destruct (k =? k')%float.
  - rewrite IH. destruct (k0 =? k')%float eqn:H1; [|reflexivity].
    destruct (k =? k')%float eqn:H2; [|reflexivity].
    rewrite float_eqb_sym in H2.
    destruct (float_eqb_subst k' k k0 H2) as [_ E].
    rewrite <- E, H1 in H0. discriminate.
Qed.

(** ** The subgradient convention *)

(** C1.  Both solvers compute the same one-sided subgradient of the check
    loss.  For a residual vector of length [n] and an [n]-row table of
    partial derivatives of the fitted value (the covariate matrix for the
    linear solver, the per-observation model gradients for the non-linear
    one), the gradient of each parameter [j] is the sum over the
    observations of the partial derivative times [tau - 1] where the
    residual is strictly positive and times [tau] elsewhere, a residual of
    exactly zero included.  Each solver is the same descent over its
    gradient, which is this sum at every iteration. *)
Theorem subgradient_convention :
  (forall tau residuals partials n p,
     length residuals = n ->
     n <= length partials ->
     (forall i, i < n -> p <= length (nth i partials [])) ->
     (forall x : CSRMatrix, ToDense x = partials ->
        exists maxGrad,
          br_gradients tau x residuals n p
          = Ok (map (subgradient tau residuals partials n) (seq 0 p), maxGrad))
     /\ ip_objGrad tau residuals partials n p
        = Ok (map (subgradient tau residuals partials n) (seq 0 p)))
  /\ (forall tau residuals partials n j,
        subgradient tau residuals partials n j
        = fold_left (fun acc i =>
                       (acc + nth j (nth i partials []) 0
                              * (if (0 <? nth i residuals 0)%float
                                 then tau - 1 else tau))%float)
                    (seq 0 n) 0%float)
  /\ (forall tau r, (0 <? r)%float = true -> br_weight tau r = (tau - 1)%float)
  /\ (forall tau r, (0 <? r)%float = false -> br_weight tau r = tau)
  /\ (forall tau, br_weight tau 0%float = tau)
  /\ (forall tau y x,
        length y = length x ->
        Forall (fun row => length (hd [] x) <= length row) x ->
        let n := length y in
        let p := length (hd [] x) in
        solveBarrodaleRoberts tau y (NewCSRMatrix x)
        = Ok (descent maxIter
                (fun beta =>
                   map (subgradient tau
                          (map (fun i => (nth i y 0
                                          - linear_predictor x beta p i)%float)
                               (seq 0 n))
                          x n)
                       (seq 0 p))
                p (replicate p 0%float)))
  /\ (forall tau model y x beta0,
        length y = length x ->
        (forall beta i, i < length y ->
           length beta0 <= length (Gradient model beta (nth i x []))) ->
        let n := length y in
        let p := length beta0 in
        solveInteriorPoint tau model y x beta0
        = Ok (descent maxIter
                (fun beta =>
                   map (subgradient tau
                          (map (fun i => (nth i y 0
                                          - F model beta (nth i x []))%float)
                               (seq 0 n))
                          (map (fun i => Gradient model beta (nth i x []))
                               (seq 0 n))
                          n)
                       (seq 0 p))
                p beta0)).
Proof.
  split; [|split; [|split; [|split; [|split; [|split]]]]].
  - intros tau residuals partials n p Hres Hrows Hcols. split.
    + intros x Hx. eexists.
      apply (br_gradients_subgradient tau residuals partials n p
               Hres Hrows Hcols x Hx).
    + apply (ip_objGrad_subgradient tau residuals partials n p Hres Hrows Hcols).
  - reflexivity.
  - intros tau r Hr. unfold br_weight. now rewrite Hr.
  - intros tau r Hr. unfold br_weight. now rewrite Hr.
  - reflexivity.
  - intros tau y x Hlen Hrect n p. unfold solveBarrodaleRoberts.
    change (Cols (NewCSRMatrix x)) with p.
    apply (br_loop_descent tau y x n p eq_refl (eq_sym Hlen)).
    + intros i Hi. apply Forall_rows; [exact Hrect|]. unfold n in Hi. lia.
    + apply length_replicate.
  - intros tau model y x beta0 Hlen Hgrad n p. unfold solveInteriorPoint.
    rewrite ip_loop_barrier_inert.
    now apply (ip_loop_descent tau model y x n p eq_refl (eq_sym Hlen) Hgrad).
Qed.

Lemma subgradient_convention_witness :
  let tau := 0.5%float in
  let residuals := [1; -1]%float in
  let partials := [[1; 0.5]; [1; 1]]%float in
  ((forall x : CSRMatrix, ToDense x = partials ->
      exists maxGrad,
        br_gradients tau x residuals 2 2
        = Ok (map (subgradient tau residuals partials 2) (seq 0 2), maxGrad))
   /\ ip_objGrad tau residuals partials 2 2
      = Ok (map (subgradient tau residuals partials 2) (seq 0 2)))
  /\ br_weight tau 1%float = (tau - 1)%float
  /\ br_weight tau (-1)%float = tau
  /\ is_ok (solveBarrodaleRoberts tau readme_y (NewCSRMatrix readme_x)) = true
  /\ is_ok (solveInteriorPoint tau scale_model spread_y ones_x [0.5%float])
     = true.
Proof.
  destruct subgradient_convention as (G & _ & W1 & W2 & _ & L & NL).
  split; [|split; [|split; [|split]]].
  - apply (G 0.5%float [1; -1]%float [[1; 0.5]; [1; 1]]%float 2 2).
    + reflexivity.
    + simpl. lia.
    + intros i Hi. destruct i as [|[|i]]; simpl; lia.
  - apply W1. reflexivity.
  - apply W2. reflexivity.
  - rewrite (L 0.5%float readme_y readme_x);
      [reflexivity|reflexivity|repeat constructor].
  - rewrite (NL 0.5%float scale_model spread_y ones_x [0.5%float]);
      [reflexivity|reflexivity|intros; simpl; lia].
Defined.

(** ** The single fits in closed form *)

Lemma validations_pass (y : list float) (x : list (list float)) :
  y <> [] -> length y = length x ->
  (length y =? 0) || (length x =? 0) = false
  /\ negb (length y =? length x) = false.
Proof.
  intros Hy Hlen. rewrite <- Hlen, Nat.eqb_refl.
  destruct y; [congruence|]. split; reflexivity.
Qed.

Lemma RQ_closed (y : list float) (x : list (list float)) (tau : float) :
  y <> [] -> length y = length x -> tau_rejected tau = false ->
  Forall (fun row => length (hd [] x) <= length row) x ->
  let n := length y in
  let p := length (hd [] x) in
  let coef := descent maxIter (linear_gradient tau y x n p) p (replicate p 0%float) in
  RQ y x tau
  = Ok {| RQFit.Coefficients := coef;
          RQFit.Residuals :=
            map (fun i => (nth i y 0 - linear_predictor x coef p i)%float) (seq 0 n);
          RQFit.Fitted := map (fun i => linear_predictor x coef p i) (seq 0 n);
          RQFit.Tau := tau;
          RQFit.N := Z.of_nat n;
          RQFit.P := Z.of_nat p |}.
Proof.
  intros Hy Hlen Htau Hrect n p coef.
  assert (Hrow : forall i, i < n -> p <= length (nth i x [])).
  { intros i Hi. apply Forall_rows; [exact Hrect|]. unfold n in Hi. lia. }
  unfold RQ. destruct (validations_pass y x Hy Hlen) as [-> ->].
  unfold tau_rejected in Htau. rewrite Htau.
  unfold solveBarrodaleRoberts. change (Cols (NewCSRMatrix x)) with p.
  rewrite (br_loop_descent tau y x n p eq_refl (eq_sym Hlen) Hrow)
    by apply length_replicate.
  fold n p coef.
  assert (Hfr : rq_fitted_residuals y x coef n p
                = Ok (map (fun i => (linear_predictor x coef p i,
                                     (nth i y 0 - linear_predictor x coef p i)%float))
                          (seq 0 n))).
  { unfold rq_fitted_residuals. rewrite fill_mapM. apply mapM_seq_ok.
    intros i Hi. rewrite dot_loop; cycle 1.
    - unfold n in Hi. lia.
    - apply Hrow. lia.
    - unfold coef. rewrite descent_iterate, iterate_length; [lia|].
      apply length_replicate.
    - cbn [bind]. rewrite (idx_ok y i 0%float) by (unfold n in Hi; lia).
      reflexivity. }
  rewrite Hfr. cbn [bind]. rewrite !map_map. reflexivity.
Qed.

Lemma NLRQ_closed (y : list float) (x : list (list float))
  (model : NonLinearModel) (beta0 : list float) (tau : float) :
  y <> [] -> length y = length x -> tau_rejected tau = false ->
  (forall beta i, i < length y ->
     length beta0 <= length (Gradient model beta (nth i x []))) ->
  let n := length y in
  let p := length beta0 in
  let coef := descent maxIter (model_gradient tau model y x n p) p beta0 in
  NLRQ y x model beta0 tau
  = Ok {| NLRQFit.Coefficients := coef;
          NLRQFit.Residuals :=
            map (fun i => (nth i y 0 - F model coef (nth i x []))%float) (seq 0 n);
          NLRQFit.Fitted := map (fun i => F model coef (nth i x [])) (seq 0 n);
          NLRQFit.Tau := tau;
          NLRQFit.N := Z.of_nat n;
          NLRQFit.P := Z.of_nat p;
          NLRQFit.Model := model |}.
Proof.
  intros Hy Hlen Htau Hgrad n p coef.
  unfold NLRQ. destruct (validations_pass y x Hy Hlen) as [-> ->].
  unfold tau_rejected in Htau. rewrite Htau.
  unfold solveInteriorPoint. rewrite ip_loop_barrier_inert.
  rewrite (ip_loop_descent tau model y x n p eq_refl (eq_sym Hlen) Hgrad)
    by reflexivity.
  fold n p coef.
  assert (Hfr : nlrq_fitted_residuals model y x coef n
                = Ok (map (fun i => (F model coef (nth i x []),
                                     (nth i y 0 - F model coef (nth i x []))%float))
                          (seq 0 n))).
  { unfold nlrq_fitted_residuals. rewrite fill_mapM. apply mapM_seq_ok.
    intros i Hi. rewrite (idx_ok x i []) by (unfold n in Hi; lia). cbn [bind].
    rewrite (idx_ok y i 0%float) by (unfold n in Hi; lia). reflexivity. }
  rewrite Hfr. cbn [bind]. rewrite !map_map. reflexivity.
Qed.

(** ** The orchestration loops *)

Lemma check_taus_from (l : list float) (i : nat) :
  range_from i l (fun _ tau _ =>
    if (tau <=? 0)%float || (1 <=? tau)%float then Err InvalidTau else Ok tt) tt
  = if forallb (fun tau => negb (tau_rejected tau)) l then Ok tt
    else Err InvalidTau.
Proof.
  revert i. induction l as [|tau l IH]; intros i; simpl; [reflexivity|].
  unfold tau_rejected at 1.
  destruct ((tau <=? 0)%float || (1 <=? tau)%float); simpl; [reflexivity|].
  apply IH.
Qed.

Lemma check_taus_spec (l : list float) :
  check_taus l
  = if forallb (fun tau => negb (tau_rejected tau)) l then Ok tt
    else Err InvalidTau.
Proof. apply check_taus_from. Qed.

Lemma check_taus_rejects (taus : list float) (tau : float) :
  In tau taus -> tau_rejected tau = true ->
  check_taus (sortFloat64s taus) = Err InvalidTau.
Proof.
  intros Hin Hrej. rewrite check_taus_spec.
  destruct (forallb _ (sortFloat64s taus)) eqn:Hall; [|reflexivity].
  rewrite forallb_forall in Hall.
  specialize (Hall tau (proj2 (sortFloat64s_In taus tau) Hin)).
  rewrite Hrej in Hall. discriminate.
Qed.

Lemma check_taus_accepts (taus : list float) :
  Forall (fun tau => tau_rejected tau = false) taus ->
  check_taus (sortFloat64s taus) = Ok tt.
Proof.
  intros Hall. rewrite check_taus_spec.
  destruct (forallb _ (sortFloat64s taus)) eqn:Hf; [reflexivity|].
  exfalso. rewrite <- not_true_iff_false in Hf. apply Hf.
  apply forallb_forall. intros tau Hin.
  apply (proj1 (sortFloat64s_In taus tau)) in Hin.
  rewrite List.Forall_forall in Hall. now rewrite (Hall tau Hin).
Qed.

Section FitLoop.
Variables (Fit : Type) (fitf : float -> result Fit).

Let body := fun (_ : nat) (tau : float) '(fits, firstFit) =>
  match fitf tau with
  | Err e => Err (FitFailed tau e)
  | Panic => Panic
  | Ok fit =>
      Ok (map_set fits tau fit,
          match firstFit with None => Some fit | Some _ => firstFit end)
  end.

Lemma fit_loop_ok (l : list float) (i : nat) (fits : fmap Fit)
  (firstFit : option Fit) :
  (forall tau, In tau l -> exists fit, fitf tau = Ok fit) ->
  exists s, range_from i l body (fits, firstFit) = Ok s.
Proof.
  revert i fits firstFit. induction l as [|tau l IH]; intros i fits ff H; simpl.
  - eauto.
  - destruct (H tau (or_introl eq_refl)) as [fit Hfit].
    unfold body at 1. rewrite Hfit. cbn [bind].
    apply IH. intros tau' Hin. apply H. now right.
Qed.

Lemma fit_loop_inv (l : list float) (i : nat) (fits fits' : fmap Fit)
  (firstFit firstFit' : option Fit) :
  range_from i l body (fits, firstFit) = Ok (fits', firstFit') ->
  (forall k fit, map_get fits' k = Some fit ->
     map_get fits k = Some fit \/
     exists tau, In tau l /\ (tau =? k)%float = true /\ fitf tau = Ok fit)
  /\ (forall k,
        (exists fit, map_get fits k = Some fit) \/
        (exists tau, In tau l /\ (tau =? k)%float = true) ->
        exists fit, map_get fits' k = Some fit)
  /\ (forall f, firstFit = Some f -> firstFit' = Some f)
  /\ (firstFit = None -> forall tau0 l', l = tau0 :: l' ->
        exists fit0, fitf tau0 = Ok fit0 /\ firstFit' = Some fit0)
  /\ (firstFit = None -> l = [] -> firstFit' = None).
Proof.
  revert i fits firstFit.
  induction l as [|tau l IH]; intros i fits ff H; simpl in H.
  - inversion H; subst. repeat split; try (intros; eauto; fail).
    + intros k [Hk|(tau & [] & _)]. exact Hk.
    + intros _ tau0 l' Hl. discriminate.
  - unfold body at 1 in H. destruct (fitf tau) as [fit| |] eqn:Hfit;
      cbn [bind] in H; try discriminate.
    destruct (IH _ _ _ H) as (K1 & K2 & F1 & F2 & _). repeat split.
    + intros k f Hk. destruct (K1 k f Hk) as [Hm|(tau' & Hin & He & Hf)].
      * rewrite map_get_set in Hm. destruct (tau =? k)%float eqn:Hk'.
        -- right. exists tau. repeat split; [now left|exact Hk'|].
           inversion Hm; subst. exact Hfit.
        -- now left.
      * right. exists tau'. repeat split; [now right|exact He|exact Hf].
    + intros k Hk. apply K2. rewrite map_get_set.
      destruct (tau =? k)%float eqn:Hk'; [left; eauto|].
      destruct Hk as [Hk|(tau' & [<-|Hin] & He)].
      * now left.
      * congruence.
      * right. eauto.
    + intros f ->. now apply F1.
    + intros -> tau0 l' Hl. inversion Hl; subst. exists fit. split; [exact Hfit|].
      now apply F1.
    + intros _ Hl. discriminate.
Qed.
End FitLoop.

(** ** Validation of the quantile level, and fits that always return *)

(** For a level that is a number, the test of the code rejects exactly the
    levels outside the open interval (0, 1). *)
Lemma tau_rejected_outside (tau : float) :
  is_nan tau = false -> (tau_rejected tau = true <-> ~ valid_tau tau).
Proof.
  intros Hnan. unfold tau_rejected, valid_tau. rewrite orb_true_iff. split.
  - intros [H|H] [H0 H1].
    + rewrite (ltb_not_leb _ _ H0) in H. discriminate.
    + rewrite (ltb_not_leb _ _ H1) in H. discriminate.
  - intros H. destruct (0 <? tau)%float eqn:H0.
    + destruct (tau <? 1)%float eqn:H1.
      * exfalso. apply H. split; reflexivity.
      * right. now apply not_ltb_leb.
    + left. now apply not_ltb_leb.
Qed.

(** NaN is not a number of the interval, and the test lets it through. *)
Lemma nan_tau_is_accepted :
  tau_rejected nan = false /\
  is_ok (RQ readme_y readme_x nan) = true /\
  is_ok (RQProcess readme_y readme_x [nan]) = true.
Proof. repeat split; vm_compute; reflexivity. Qed.

Lemma RQ_invalid_tau (y : list float) (x : list (list float)) (tau : float) :
  y <> [] -> length y = length x -> tau_rejected tau = true ->
  RQ y x tau = Err InvalidTau.
Proof.
  intros Hy Hlen Htau. unfold RQ.
  destruct (validations_pass y x Hy Hlen) as [-> ->].
  unfold tau_rejected in Htau. now rewrite Htau.
Qed.

Lemma NLRQ_invalid_tau (y : list float) (x : list (list float))
  (model : NonLinearModel) (beta0 : list float) (tau : float) :
  y <> [] -> length y = length x -> tau_rejected tau = true ->
  NLRQ y x model beta0 tau = Err InvalidTau.
Proof.
  intros Hy Hlen Htau. unfold NLRQ.
  destruct (validations_pass y x Hy Hlen) as [-> ->].
  unfold tau_rejected in Htau. now rewrite Htau.
Qed.

(** Rewrites the loop under the outermost [bind] of the goal with the
    equation [H], which states its result up to conversion. *)
Ltac rewrite_loop H :=
  match goal with
  | |- context [bind ?L _] =>
      match type of H with
      | _ = ?R => let HL := fresh in assert (HL : L = R) by exact H; rewrite HL; clear HL
      end
  end.

Lemma length_nonempty {A : Type} (l : list A) :
  l <> [] -> (length l =? 0) = false.
Proof. destruct l; [congruence|reflexivity]. Qed.

Lemma RQProcess_invalid_tau (y : list float) (x : list (list float))
  (taus : list float) (tau : float) :
  In tau taus -> tau_rejected tau = true ->
  RQProcess y x taus = Err InvalidTau.
Proof.
  intros Hin Htau. unfold RQProcess.
  rewrite length_nonempty by (intros ->; exact Hin).
  now rewrite (check_taus_rejects taus tau Hin Htau).
Qed.

Lemma NLRQProcess_invalid_tau (y : list float) (x : list (list float))
  (model : NonLinearModel) (beta0 : list float) (taus : list float)
  (tau : float) :
  In tau taus -> tau_rejected tau = true ->
  NLRQProcess y x model beta0 taus = Err InvalidTau.
Proof.
  intros Hin Htau. unfold NLRQProcess.
  rewrite length_nonempty by (intros ->; exact Hin).
  now rewrite (check_taus_rejects taus tau Hin Htau).
Qed.

Lemma sorted_nonempty (taus : list float) :
  taus <> [] -> exists tau0 l, sortFloat64s taus = tau0 :: l.
Proof.
  intros H. destruct (sortFloat64s taus) as [|tau0 l] eqn:Hs; [|eauto].
  exfalso. apply H. apply length_zero_iff_nil.
  now rewrite <- sortFloat64s_length, Hs.
Qed.

Lemma RQProcess_succeeds (y : list float) (x : list (list float))
  (taus : list float) :
  taus <> [] -> Forall (fun tau => tau_rejected tau = false) taus ->
  (forall tau, In tau taus -> exists fit, RQ y x tau = Ok fit) ->
  exists m, RQProcess y x taus = Ok m.
Proof.
  intros Hne Hall Hfit. unfold RQProcess.
  rewrite length_nonempty by exact Hne.
  rewrite (check_taus_accepts taus Hall). cbn [bind]. unfold range_loop.
  destruct (fit_loop_ok _ (RQ y x) (sortFloat64s taus) 0 [] None) as [[fits ff] Hs].
  { intros tau Hin. apply Hfit. now apply sortFloat64s_In. }
  cbv zeta in Hs. rewrite_loop Hs. cbn [bind].
  destruct (fit_loop_inv _ _ _ _ _ _ _ _ Hs) as (_ & _ & _ & F2 & _).
  destruct (sorted_nonempty taus Hne) as (tau0 & l & Hl).
  destruct (F2 eq_refl tau0 l Hl) as (fit0 & _ & ->). eauto.
Qed.

Lemma NLRQProcess_succeeds (y : list float) (x : list (list float))
  (model : NonLinearModel) (beta0 : list float) (taus : list float) :
  taus <> [] -> Forall (fun tau => tau_rejected tau = false) taus ->
  (forall tau, In tau taus -> exists fit, NLRQ y x model beta0 tau = Ok fit) ->
  exists m, NLRQProcess y x model beta0 taus = Ok m.
Proof.
  intros Hne Hall Hfit. unfold NLRQProcess.
  rewrite length_nonempty by exact Hne.
  rewrite (check_taus_accepts taus Hall). cbn [bind]. unfold range_loop.
  destruct (fit_loop_ok _ (fun tau => NLRQ y x model beta0 tau)
              (sortFloat64s taus) 0 [] None) as [[fits ff] Hs].
  { intros tau Hin. apply Hfit. now apply sortFloat64s_In. }
  cbv zeta in Hs. rewrite_loop Hs. cbn [bind].
  destruct (fit_loop_inv _ _ _ _ _ _ _ _ Hs) as (_ & _ & _ & F2 & _).
  destruct (sorted_nonempty taus Hne) as (tau0 & l & Hl).
  destruct (F2 eq_refl tau0 l Hl) as (fit0 & _ & ->). eauto.
Qed.

(** C2 (as the code has it).  A quantile level with [tau <= 0] or
    [tau >= 1], the endpoints 0 and 1 included, is rejected with
    [InvalidTau]: by [RQ] and [NLRQ] once the inputs are non-empty with
    equal row counts (those two checks come first), and by [RQProcess] and
    [NLRQProcess] whenever any requested level is such.  Non-convergence is
    never an error: for inputs that pass the validations and whose covariate
    rows all have at least [len(x[0])] entries (for the non-linear fit,
    whose model gradient has at least [len(beta0)] entries) the fit succeeds,
    and its coefficients are the descent iterate after [m <= 1000] steps,
    stopped before the cap only when the largest absolute gradient component
    is below [1e-8]. *)
Theorem tau_validation_and_unconditional_return :
  tau_rejected 0%float = true /\ tau_rejected 1%float = true /\
  (forall tau, tau_rejected tau = true <->
     (tau <=? 0)%float = true \/ (1 <=? tau)%float = true) /\
  (forall tau, is_nan tau = false ->
     (tau_rejected tau = true <-> ~ valid_tau tau)) /\
  (forall y x tau, y <> [] -> length y = length x -> tau_rejected tau = true ->
     RQ y x tau = Err InvalidTau) /\
  (forall y x model beta0 tau,
     y <> [] -> length y = length x -> tau_rejected tau = true ->
     NLRQ y x model beta0 tau = Err InvalidTau) /\
  (forall y x taus tau, In tau taus -> tau_rejected tau = true ->
     RQProcess y x taus = Err InvalidTau) /\
  (forall y x model beta0 taus tau, In tau taus -> tau_rejected tau = true ->
     NLRQProcess y x model beta0 taus = Err InvalidTau) /\
  (forall y x tau,
     y <> [] -> length y = length x -> tau_rejected tau = false ->
     Forall (fun row => length (hd [] x) <= length row) x ->
     exists fit, RQ y x tau = Ok fit /\
       descent_result 1000
         (linear_gradient tau y x (length y) (length (hd [] x)))
         (length (hd [] x)) (replicate (length (hd [] x)) 0%float)
         (RQFit.Coefficients fit)) /\
  (forall y x model beta0 tau,
     y <> [] -> length y = length x -> tau_rejected tau = false ->
     (forall beta i, i < length y ->
        length beta0 <= length (Gradient model beta (nth i x []))) ->
     exists fit, NLRQ y x model beta0 tau = Ok fit /\
       descent_result 1000
         (model_gradient tau model y x (length y) (length beta0))
         (length beta0) beta0 (NLRQFit.Coefficients fit)) /\
  (forall y x taus,
     taus <> [] -> Forall (fun tau => tau_rejected tau = false) taus ->
     y <> [] -> length y = length x ->
     Forall (fun row => length (hd [] x) <= length row) x ->
     exists m, RQProcess y x taus = Ok m) /\
  (forall y x model beta0 taus,
     taus <> [] -> Forall (fun tau => tau_rejected tau = false) taus ->
     y <> [] -> length y = length x ->
     (forall beta i, i < length y ->
        length beta0 <= length (Gradient model beta (nth i x []))) ->
     exists m, NLRQProcess y x model beta0 taus = Ok m).
Proof.
  split; [reflexivity|]. split; [reflexivity|].
  split. { intros tau. unfold tau_rejected. apply orb_true_iff. }
  split; [exact tau_rejected_outside|].
  split; [exact RQ_invalid_tau|]. split; [exact NLRQ_invalid_tau|].
  split; [exact RQProcess_invalid_tau|]. split; [exact NLRQProcess_invalid_tau|].
  split; [|split; [|split]].
  - intros y x tau Hy Hlen Htau Hrect. eexists. split.
    + now apply RQ_closed.
    + apply descent_descent_result.
  - intros y x model beta0 tau Hy Hlen Htau Hgrad. eexists. split.
    + now apply NLRQ_closed.
    + apply descent_descent_result.
  - intros y x taus Hne Hall Hy Hlen Hrect. apply RQProcess_succeeds; try assumption.
    intros tau Hin. eexists. apply RQ_closed; try assumption.
    rewrite List.Forall_forall in Hall. now apply Hall.
  - intros y x model beta0 taus Hne Hall Hy Hlen Hgrad.
    apply NLRQProcess_succeeds; try assumption.
    intros tau Hin. eexists. apply NLRQ_closed; try assumption.
    rewrite List.Forall_forall in Hall. now apply Hall.
Qed.

Lemma tau_validation_and_unconditional_return_witness :
  RQ readme_y readme_x 1.5%float = Err InvalidTau /\
  NLRQ spread_y ones_x scale_model [0.5%float] 0%float = Err InvalidTau /\
  RQProcess readme_y readme_x [0.25; 1.5]%float = Err InvalidTau /\
  NLRQProcess spread_y ones_x scale_model [0.5%float] [1; 0.5]%float
  = Err InvalidTau /\
  (exists fit, RQ readme_y readme_x 0.5%float = Ok fit /\
     descent_result 1000 (linear_gradient 0.5%float readme_y readme_x 5 2) 2
       [0; 0]%float (RQFit.Coefficients fit)) /\
  (exists fit, NLRQ spread_y ones_x scale_model [0.5%float] 0.5%float = Ok fit /\
     descent_result 1000 (model_gradient 0.5%float scale_model spread_y ones_x 4 1)
       1 [0.5%float] (NLRQFit.Coefficients fit)) /\
  (exists m, RQProcess readme_y readme_x [0.75; 0.25; 0.5]%float = Ok m) /\
  (exists m, NLRQProcess spread_y ones_x scale_model [0.5%float]
               [0.75; 0.25; 0.5]%float = Ok m).
Proof.
  destruct tau_validation_and_unconditional_return
    as (_ & _ & _ & _ & A1 & A2 & A3 & A4 & B1 & B2 & B3 & B4).
  split; [|split; [|split; [|split; [|split; [|split; [|split]]]]]].
  - apply A1; [discriminate|reflexivity|reflexivity].
  - apply A2; [discriminate|reflexivity|reflexivity].
  - apply (A3 _ _ _ 1.5%float); [simpl; auto|reflexivity].
  - apply (A4 _ _ _ _ _ 1%float); [simpl; auto|reflexivity].
  - apply (B1 readme_y readme_x 0.5%float);
      [discriminate|reflexivity|reflexivity|repeat constructor].
  - apply (B2 spread_y ones_x scale_model [0.5%float] 0.5%float);
      [discriminate|reflexivity|reflexivity|intros; simpl; lia].
  - apply B3; [discriminate|repeat constructor|discriminate|reflexivity
              |repeat constructor].
  - apply B4; [discriminate|repeat constructor|discriminate|reflexivity
              |intros; simpl; lia].
Defined.

(** A fit that uses all 1000 iterations without meeting the tolerance is
    returned like any other: the README data at the median. *)
Lemma cap_exhausted_fit_is_returned :
  descent_steps maxIter (linear_gradient 0.5%float readme_y readme_x 5 2) 2
    [0; 0]%float = 1000 /\
  match RQ readme_y readme_x 0.5%float with
  | Ok fit =>
      negb (max_abs (linear_gradient 0.5%float readme_y readme_x 5 2
                       (RQFit.Coefficients fit)) <? tolerance)%float
  | _ => false
  end = true.
Proof. split; vm_compute; reflexivity. Qed.

(** ** Prediction *)

Lemma RQFit_Predict_closed (fit : RQFit.t) (newX : list (list float)) :
  newX <> [] -> Z.of_nat (length (hd [] newX)) = RQFit.P fit ->
  Forall (fun row => Z.to_nat (RQFit.P fit) <= length row) newX ->
  Z.to_nat (RQFit.P fit) <= length (RQFit.Coefficients fit) ->
  RQFit_Predict fit newX
  = Ok (map (fun i => linear_predictor newX (RQFit.Coefficients fit)
                        (Z.to_nat (RQFit.P fit)) i)
            (seq 0 (length newX))).
Proof.
  intros Hne HP Hrows Hcoef. unfold RQFit_Predict.
  rewrite length_nonempty by exact Hne. rewrite HP, Z.eqb_refl. cbn [negb].
  rewrite fill_mapM. apply mapM_seq_ok. intros i Hi.
  apply dot_loop; [lia| |exact Hcoef].
  apply Forall_rows; [exact Hrows|lia].
Qed.

Lemma NLRQFit_Predict_closed (fit : NLRQFit.t) (newX : list (list float)) :
  newX <> [] ->
  NLRQFit_Predict fit newX
  = Ok (map (fun i => F (NLRQFit.Model fit) (NLRQFit.Coefficients fit)
                        (nth i newX []))
            (seq 0 (length newX))).
Proof.
  intros Hne. unfold NLRQFit_Predict. rewrite length_nonempty by exact Hne.
  rewrite fill_mapM. apply mapM_seq_ok. intros i Hi.
  rewrite (idx_ok newX i []) by lia. reflexivity.
Qed.

(** C9 (as the code has it).  Both [Predict] methods fail with [EmptyInput]
    on zero rows.  The linear one fails with [DimensionMismatch] when the
    first new row's width differs from the fit's [P]; the non-linear one
    compares no width with [P] and returns one prediction per row. *)
Theorem predict_errors :
  (forall fit, RQFit_Predict fit [] = Err EmptyInput) /\
  (forall fit, NLRQFit_Predict fit [] = Err EmptyInput) /\
  (forall fit row rest, Z.of_nat (length row) <> RQFit.P fit ->
     RQFit_Predict fit (row :: rest) = Err DimensionMismatch) /\
  (forall fit newX, newX <> [] ->
     NLRQFit_Predict fit newX
     = Ok (map (fun i => F (NLRQFit.Model fit) (NLRQFit.Coefficients fit)
                           (nth i newX []))
               (seq 0 (length newX)))).
Proof.
  repeat split.
  - intros fit row rest H. unfold RQFit_Predict. simpl.
    now rewrite (proj2 (Z.eqb_neq _ _) H).
  - exact NLRQFit_Predict_closed.
Qed.

Lemma predict_errors_witness :
  RQFit_Predict (RQFit.mk [1; 2]%float [] [] 0.5%float 0 2) [[1]; [1; 2]]%float
  = Err DimensionMismatch /\
  NLRQFit_Predict (NLRQFit.mk [1; 2]%float [] [] 0.5%float 0 2 affine_model)
    test_newX
  = Ok [(1 + 2 * 2.5)%float; (1 + 2 * 3.0)%float].
Proof.
  destruct predict_errors as (_ & _ & D & S). split.
  - apply D. simpl. lia.
  - apply (S (NLRQFit.mk [1; 2]%float [] [] 0.5%float 0 2 affine_model) test_newX).
    discriminate.
Defined.

(** C9, the claim as stated, fails for the non-linear fit: a fit with two
    parameters predicts from rows of width one, as the package's own test
    does, and succeeds. *)
Lemma nonlinear_predict_ignores_width :
  match NLRQ line_y test_x affine_model test_beta0 0.5%float with
  | Ok fit =>
      (NLRQFit.P fit =? 2)%Z
      && forallb (fun row => (Z.of_nat (length row) =? 1)%Z) test_newX
      && is_ok (NLRQFit_Predict fit test_newX)
  | _ => false
  end = true.
Proof. vm_compute. reflexivity. Qed.

(** ** Rows of unequal width *)

Lemma idx_lookup {A : Type} (s : list A) (i : nat) (v : A) :
  s !! i = Some v -> idx s i = Ok v.
Proof. intros H. unfold idx. now rewrite H. Qed.

(** The dot-product loop over a row that is too short panics. *)
Lemma dot_loop_short (rows : list (list float)) (coef : list float)
  (p i : nat) (row : list float) :
  rows !! i = Some row -> length row < p ->
  for_loop p (fun j acc =>
    bind (idx rows i) (fun row =>
      bind (idx row j) (fun xij =>
        bind (idx coef j) (fun cj => Ok (acc + xij * cj)%float)))) 0%float
  = Panic.
Proof.
  intros Hrow Hlen. apply (for_loop_panic p (length row)); [exact Hlen| |].
  - intros s. rewrite (idx_lookup _ _ _ Hrow). cbn [bind].
    now rewrite idx_panic.
  - intros j s. no_err_tac.
Qed.

Lemma br_residuals_short (y : list float) (x : list (list float))
  (solution : list float) (n p i : nat) (row : list float) :
  i < n -> x !! i = Some row -> length row < p ->
  br_residuals y (NewCSRMatrix x) solution n p = Panic.
Proof.
  intros Hi Hrow Hlen. unfold br_residuals.
  apply (fill_panic n 0%float _ i Hi).
  - change (ToDense (NewCSRMatrix x)) with x.
    now rewrite (dot_loop_short x solution p i row Hrow Hlen).
  - intros i' _. no_err_tac.
Qed.

Lemma br_loop_residuals_panic (iters : nat) (tau : float) (y : list float)
  (x : CSRMatrix) (n p : nat) (solution : list float) :
  br_residuals y x solution n p = Panic ->
  br_loop (S iters) tau y x n p solution = Panic.
Proof. intros H. cbn [br_loop]. now rewrite H. Qed.

Lemma rq_fitted_residuals_short (y : list float) (x : list (list float))
  (coef : list float) (n p i : nat) (row : list float) :
  i < n -> x !! i = Some row -> length row < p ->
  rq_fitted_residuals y x coef n p = Panic.
Proof.
  intros Hi Hrow Hlen. unfold rq_fitted_residuals.
  apply (fill_panic n (0, 0)%float _ i Hi).
  - now rewrite (dot_loop_short x coef p i row Hrow Hlen).
  - intros i' _. no_err_tac.
Qed.

Lemma RQ_short_row (y : list float) (x : list (list float)) (tau : float)
  (i : nat) (row : list float) :
  y <> [] -> length y = length x -> tau_rejected tau = false ->
  x !! i = Some row -> length row < length (hd [] x) ->
  RQ y x tau = Panic.
Proof.
  intros Hy Hlen Htau Hrow Hshort. unfold RQ.
  destruct (validations_pass y x Hy Hlen) as [-> ->].
  unfold tau_rejected in Htau. rewrite Htau.
  unfold solveBarrodaleRoberts.
  rewrite (br_loop_residuals_panic 999); [reflexivity|].
  apply (br_residuals_short y x _ _ _ i row); [|exact Hrow|exact Hshort].
  rewrite Hlen. now apply (lookup_lt_Some x i row).
Qed.

Lemma RQFit_Predict_short_row (fit : RQFit.t) (newX : list (list float))
  (i : nat) (row : list float) :
  Z.of_nat (length (hd [] newX)) = RQFit.P fit ->
  newX !! i = Some row -> (length row < Z.to_nat (RQFit.P fit)) ->
  RQFit_Predict fit newX = Panic.
Proof.
  intros HP Hrow Hshort. unfold RQFit_Predict.
  assert (Hi : i < length newX) by now apply (lookup_lt_Some newX i row).
  rewrite length_nonempty by (intros ->; simpl in Hi; lia).
  rewrite HP, Z.eqb_refl. cbn [negb].
  apply (fill_panic _ 0%float _ i Hi).
  - now apply (dot_loop_short newX _ _ i row).
  - intros i' _. no_err_tac.
Qed.

Lemma RQ_never_panics_on_wide_rows (y : list float) (x : list (list float))
  (tau : float) :
  Forall (fun row => length (hd [] x) <= length row) x ->
  is_panic (RQ y x tau) = false.
Proof.
  intros Hrect.
  destruct ((length y =? 0) || (length x =? 0)) eqn:He.
  { unfold RQ. now rewrite He. }
  destruct (negb (length y =? length x)) eqn:Hd.
  { unfold RQ. now rewrite He, Hd. }
  destruct (tau_rejected tau) eqn:Ht.
  { unfold RQ. unfold tau_rejected in Ht. now rewrite He, Hd, Ht. }
  rewrite RQ_closed; try assumption; [reflexivity| |].
  - intros ->. discriminate.
  - apply negb_false_iff, Nat.eqb_eq in Hd. exact Hd.
Qed.

Lemma RQFit_Predict_never_panics_on_wide_rows (fit : RQFit.t)
  (newX : list (list float)) :
  Forall (fun row => Z.to_nat (RQFit.P fit) <= length row) newX ->
  Z.to_nat (RQFit.P fit) <= length (RQFit.Coefficients fit) ->
  is_panic (RQFit_Predict fit newX) = false.
Proof.
  intros Hrows Hcoef.
  destruct newX as [|row rest]; [reflexivity|].
  destruct (Z.eq_dec (Z.of_nat (length row)) (RQFit.P fit)) as [HP|HP].
  - rewrite RQFit_Predict_closed; try assumption; [reflexivity|discriminate].
  - unfold RQFit_Predict. simpl. now rewrite (proj2 (Z.eqb_neq _ _) HP).
Qed.

(** C2, the claim as stated, fails: [ragged_y], [ragged_x] and the median
    level pass the empty-input, dimension and tau validations, and the fit
    does not return a result; whatever coefficients the solver were to
    return, the loop of rq.go lines 64-71 reads past the end of the second
    row. *)
Lemma validated_fit_may_panic :
  (length ragged_y =? 0) || (length ragged_x =? 0) = false /\
  negb (length ragged_y =? length ragged_x) = false /\
  tau_rejected 0.5%float = false /\
  RQ ragged_y ragged_x 0.5%float = Panic /\
  (forall coef, rq_fitted_residuals ragged_y ragged_x coef 2 2 = Panic).
Proof.
  split; [reflexivity|]. split; [reflexivity|]. split; [reflexivity|].
  split; [vm_compute; reflexivity|].
  intros coef.
  apply (rq_fitted_residuals_short ragged_y ragged_x coef 2 2 1 [1%float]);
    [lia|reflexivity|simpl; lia].
Qed.

(** An invariant carried through a loop that returns. *)
Lemma for_from_ok_inv {S : Type} (I : nat -> S -> Prop) (k lo : nat)
  (body : nat -> S -> result S) (s s' : S) :
  I lo s ->
  (forall i s s', body i s = Ok s' -> I i s -> I (Datatypes.S i) s') ->
  for_from lo k body s = Ok s' -> I (lo + k) s'.
Proof.
  revert lo s. induction k as [|k IH]; intros lo s H0 Hstep H; simpl in H.
  - inversion H; subst. now replace (lo + 0) with lo by lia.
  - destruct (body lo s) as [s1| |] eqn:Hb; simpl in H; try discriminate.
    replace (lo + Datatypes.S k) with (Datatypes.S lo + k) by lia.
    apply (IH (Datatypes.S lo) s1); [|exact Hstep|exact H].
    now apply (Hstep lo s s1).
Qed.

Lemma br_update_length (solution gradients : list float) (p : nat)
  (solution' : list float) :
  br_update solution gradients p = Ok solution' ->
  length solution' = length solution.
Proof.
  intros H. unfold br_update, for_loop in H.
  apply (for_from_ok_inv (fun _ s => length s = length solution) p 0 _ _ _
           eq_refl) in H; [exact H|].
  intros i s s' Hb Hs.
  destruct (idx s i) as [si| |]; simpl in Hb; try discriminate.
  destruct (idx gradients i) as [gi| |]; simpl in Hb; try discriminate.
  inversion Hb; subst. now rewrite length_insert.
Qed.

Lemma br_loop_length (iters : nat) (tau : float) (y : list float)
  (x : CSRMatrix) (n p : nat) (solution solution' : list float) :
  br_loop iters tau y x n p solution = Ok solution' ->
  length solution' = length solution.
Proof.
  revert solution. induction iters as [|iters IH]; intros solution H;
    simpl in H.
  - now inversion H.
  - destruct (br_residuals y x solution n p) as [r| |]; simpl in H;
      try discriminate.
    destruct (br_gradients tau x r n p) as [[g mg]| |]; simpl in H;
      try discriminate.
    destruct (mg <? tolerance)%float; [now inversion H|].
    destruct (br_update solution g p) as [s1| |] eqn:Hu; simpl in H;
      try discriminate.
    rewrite (IH _ H). now apply (br_update_length _ g p).
Qed.

Lemma RQ_coefficients_length (y : list float) (x : list (list float))
  (tau : float) (fit : RQFit.t) :
  RQ y x tau = Ok fit ->
  Z.of_nat (length (RQFit.Coefficients fit)) = RQFit.P fit.
Proof.
  intros H. destruct (RQ_ok_inv _ _ _ _ H) as (coef & fr & Hc & _ & ->). simpl.
  unfold solveBarrodaleRoberts in Hc. apply br_loop_length in Hc.
  rewrite Hc, length_replicate. reflexivity.
Qed.

(** C10.  [RQ] and the linear [Predict] read [x[i][j]] for every [j] below
    the first row's width ([P] for [Predict], which compares only the first
    new row with it) and check no other row.  When every row has at least
    that many entries no access is out of range and no panic occurs; when a
    row is shorter, an input that passes the validations makes the operation
    panic, in the solver and again in the loop of rq.go lines 64-71 for any
    coefficients, rather than return [DimensionMismatch]. *)
Theorem row_widths_are_not_validated :
  (forall y x tau,
     Forall (fun row => length (hd [] x) <= length row) x ->
     is_panic (RQ y x tau) = false) /\
  (forall fit newX,
     Forall (fun row => Z.to_nat (RQFit.P fit) <= length row) newX ->
     Z.to_nat (RQFit.P fit) <= length (RQFit.Coefficients fit) ->
     is_panic (RQFit_Predict fit newX) = false) /\
  (forall y x tau fit newX,
     RQ y x tau = Ok fit ->
     Forall (fun row => Z.to_nat (RQFit.P fit) <= length row) newX ->
     is_panic (RQFit_Predict fit newX) = false) /\
  (forall y x tau i row,
     y <> [] -> length y = length x -> tau_rejected tau = false ->
     x !! i = Some row -> length row < length (hd [] x) ->
     RQ y x tau = Panic /\
     forall coef,
       rq_fitted_residuals y x coef (length y) (length (hd [] x)) = Panic) /\
  (forall fit newX i row,
     Z.of_nat (length (hd [] newX)) = RQFit.P fit ->
     newX !! i = Some row -> length row < Z.to_nat (RQFit.P fit) ->
     RQFit_Predict fit newX = Panic).
Proof.
  split; [exact RQ_never_panics_on_wide_rows|].
  split; [exact RQFit_Predict_never_panics_on_wide_rows|].
  split; [|split].
  - intros y x tau fit newX Hfit Hrows.
    apply RQFit_Predict_never_panics_on_wide_rows; [exact Hrows|].
    pose proof (RQ_coefficients_length _ _ _ _ Hfit). lia.
  - intros y x tau i row Hy Hlen Htau Hrow Hshort. split.
    + now apply (RQ_short_row y x tau i row).
    + intros coef. apply (rq_fitted_residuals_short y x coef _ _ i row);
        [|exact Hrow|exact Hshort].
      rewrite Hlen. now apply (lookup_lt_Some x i row).
  - exact RQFit_Predict_short_row.
Qed.

Lemma row_widths_are_not_validated_witness :
  is_panic (RQ readme_y readme_x 0.5%float) = false /\
  is_panic (RQFit_Predict (RQFit.mk [1; 2]%float [] [] 0.5%float 5 2)
              [[1; 3]; [1; 3.5; 7]]%float) = false /\
  (RQ ragged_y ragged_x 0.5%float = Panic /\
   forall coef, rq_fitted_residuals ragged_y ragged_x coef 2 2 = Panic) /\
  RQFit_Predict (RQFit.mk [1; 2]%float [] [] 0.5%float 5 2)
    [[1; 3]; [1]]%float = Panic.
Proof.
  destruct row_widths_are_not_validated as (S1 & S2 & _ & P1 & P2).
  split; [|split; [|split]].
  - apply S1. repeat constructor.
  - apply S2; [repeat constructor; simpl; lia|simpl; lia].
  - apply (P1 ragged_y ragged_x 0.5%float 1 [1%float]);
      [discriminate|reflexivity|reflexivity|reflexivity|simpl; lia].
  - apply (P2 _ _ 1 [1%float]); [reflexivity|reflexivity|simpl; lia].
Defined.

(** ** The multi-quantile aggregate *)

Lemma valid_tau_not_nan (tau : float) : valid_tau tau -> is_nan tau = false.
Proof. intros [H _]. exact (proj2 (ltb_not_nan _ _ H)). Qed.

Lemma valid_taus_ascending (taus : list float) :
  Forall valid_tau taus -> ascending (sortFloat64s taus).
Proof.
  intros H. apply sortFloat64s_sorted.
  eapply Forall_impl; [exact H|]. intros tau. simpl. apply valid_tau_not_nan.
Qed.

Ltac key_case :=
  split;
  [ first [ discriminate
          | intros _; repeat split; first [discriminate | lia] ]
  | first [ reflexivity
          | intros (_ & _ & H); lia
          | intros (H1 & H2 & _); congruence ] ].

Lemma SFleb_key (a b : spec_float) :
  SFleb a b = true <->
  a <> S754_nan /\ b <> S754_nan /\ key_le (order_key a) (order_key b).
Proof.
  unfold SFleb, key_le, order_key.
  destruct a as [sa|sa| |sa ma ea], b as [sb|sb| |sb mb eb];
    try destruct sa; try destruct sb; simpl; try key_case;
    change (PosDef.Pos.compare_cont Eq ma mb) with (Pos.compare ma mb);
    destruct (Z.compare_spec ea eb) as [He|He|He]; simpl; try key_case;
    destruct (Pos.compare_spec ma mb) as [Hm|Hm|Hm]; simpl; key_case.
Qed.

Lemma key_le_trans (p q r : Z * Z * Z) :
  key_le p q -> key_le q r -> key_le p r.
Proof.
  destruct p as [[p1 p2] p3], q as [[q1 q2] q3], r as [[r1 r2] r3].
  unfold key_le. lia.
Qed.

Lemma leb_trans (a b c : float) :
  (a <=? b)%float = true -> (b <=? c)%float = true -> (a <=? c)%float = true.
Proof.
  rewrite !leb_spec, !SFleb_key.
  intros (Ha & Hb & Hab) (_ & Hc & Hbc).
  repeat split; try assumption. exact (key_le_trans _ _ _ Hab Hbc).
Qed.

Lemma valid_tau_nonzero (tau : float) : valid_tau tau -> (tau =? 0)%float = false.
Proof.
  intros [H _]. apply ltb_not_leb in H.
  destruct (tau =? 0)%float eqn:E; [|reflexivity].
  apply float_eqb_compare in E. rewrite leb_spec in H. unfold SFleb in H.
  rewrite E in H. discriminate.
Qed.

Lemma leb_antisym (a b : float) :
  (b =? 0)%float = false ->
  (a <=? b)%float = true -> (b <=? a)%float = true -> a = b.
Proof.
  intros Hb Hab Hba. apply float_eqb_eq; [|exact Hb].
  apply float_eqb_compare.
  rewrite leb_spec in Hab, Hba. unfold SFleb in Hab, Hba.
  rewrite (SFcompare_antisym (Prim2SF a) (Prim2SF b)) in Hba.
  destruct (SFcompare (Prim2SF a) (Prim2SF b)) as [[]|]; simpl in *;
    congruence.
Qed.

(** An ascending sequence of valid levels is determined by its elements. *)
Lemma ascending_perm_eq (l1 l2 : list float) :
  Forall valid_tau l1 -> ascending l1 -> ascending l2 ->
  Permutation l1 l2 -> l1 = l2.
Proof.
  unfold ascending. intros Hv H1 H2 Hp.
  assert (Htrans : Relations_1.Transitive (fun a b => (a <=? b)%float = true)).
  { intros a b c. apply leb_trans. }
  apply Sorted_StronglySorted in H1; [|exact Htrans].
  apply Sorted_StronglySorted in H2; [|exact Htrans].
  clear Htrans. revert l2 H2 Hp.
  induction H1 as [|a l1 Hs1 IH Ha]; intros l2 H2 Hp.
  - now apply Permutation_nil in Hp.
  - destruct H2 as [|b l2 Hs2 Hb].
    + apply Permutation_sym, Permutation_nil in Hp. discriminate.
    + inversion Hv as [|? ? Hva Hv1]; subst.
      assert (Hvb : valid_tau b).
      { rewrite List.Forall_forall in Hv. apply Hv.
        apply (Permutation_in _ (Permutation_sym Hp)). now left. }
      assert (Hab : a = b).
      { assert (Hin1 : In a (b :: l2)) by (apply (Permutation_in _ Hp); now left).
        assert (Hin2 : In b (a :: l1))
          by (apply (Permutation_in _ (Permutation_sym Hp)); now left).
        destruct Hin1 as [E|Hin1]; [now symmetry|].
        destruct Hin2 as [E|Hin2]; [exact E|].
        rewrite List.Forall_forall in Ha, Hb.
        apply leb_antisym; [now apply valid_tau_nonzero| |].
        - now apply Ha.
        - now apply Hb. }
      subst b. f_equal. apply IH; [exact Hv1|exact Hs2|].
      now apply Permutation_cons_inv in Hp.
Qed.

Lemma sortFloat64s_order_independent (taus taus' : list float) :
  Forall valid_tau taus -> Permutation taus taus' ->
  sortFloat64s taus = sortFloat64s taus'.
Proof.
  intros Hv Hp.
  assert (Hv' : Forall valid_tau taus') by exact (Permutation_Forall Hp Hv).
  apply ascending_perm_eq.
  - exact (Permutation_Forall (sortFloat64s_perm taus) Hv).
  - now apply valid_taus_ascending.
  - now apply valid_taus_ascending.
  - rewrite <- (sortFloat64s_perm taus), <- (sortFloat64s_perm taus'). exact Hp.
Qed.

Section Aggregate.
Variables (Fit : Type) (fitf : float -> result Fit) (taus : list float).
Variables (fits : fmap Fit) (firstFit : option Fit).
Hypothesis Hloop :
  range_from 0 (sortFloat64s taus)
    (fun (_ : nat) (tau : float) '(fits, firstFit) =>
       match fitf tau with
       | Err e => Err (FitFailed tau e)
       | Panic => Panic
       | Ok fit =>
           Ok (map_set fits tau fit,
               match firstFit with None => Some fit | Some _ => firstFit end)
       end) ([], None)
  = Ok (fits, firstFit).

Lemma aggregate_keys (k : float) :
  (exists fit, map_get fits k = Some fit) <->
  (exists tau, In tau taus /\ (tau =? k)%float = true).
Proof.
  destruct (fit_loop_inv _ _ _ _ _ _ _ _ Hloop) as (K1 & K2 & _).
  split.
  - intros [fit Hk]. destruct (K1 k fit Hk) as [Hm|(tau & Hin & He & _)].
    + discriminate.
    + exists tau. split; [now apply sortFloat64s_In|exact He].
  - intros (tau & Hin & He). apply K2. right. exists tau.
    split; [now apply sortFloat64s_In|exact He].
Qed.

Lemma aggregate_values (k : float) (fit : Fit) :
  map_get fits k = Some fit ->
  exists tau, In tau taus /\ (tau =? k)%float = true /\ fitf tau = Ok fit.
Proof.
  destruct (fit_loop_inv _ _ _ _ _ _ _ _ Hloop) as (K1 & _).
  intros Hk. destruct (K1 k fit Hk) as [Hm|(tau & Hin & He & Hf)].
  - discriminate.
  - exists tau. repeat split; [now apply sortFloat64s_In|exact He|exact Hf].
Qed.

Lemma aggregate_first (first : Fit) :
  firstFit = Some first ->
  exists tau0 rest,
    sortFloat64s taus = tau0 :: rest /\ fitf tau0 = Ok first.
Proof.
  destruct (fit_loop_inv _ _ _ _ _ _ _ _ Hloop) as (_ & _ & _ & F2 & F3).
  intros Hff. destruct (sortFloat64s taus) as [|tau0 rest] eqn:Hs.
  - rewrite (F3 eq_refl eq_refl) in Hff. discriminate.
  - destruct (F2 eq_refl tau0 rest eq_refl) as (fit0 & Hf & Hff').
    exists tau0, rest. split; [reflexivity|]. congruence.
Qed.
End Aggregate.

Lemma RQProcess_ok_inv (y : list float) (x : list (list float))
  (taus : list float) (m : MultiRQFit.t) :
  RQProcess y x taus = Ok m ->
  exists fits first,
    range_from 0 (sortFloat64s taus)
      (fun (_ : nat) (tau : float) '(fits, firstFit) =>
         match RQ y x tau with
         | Err e => Err (FitFailed tau e)
         | Panic => Panic
         | Ok fit =>
             Ok (map_set fits tau fit,
                 match firstFit with None => Some fit | Some _ => firstFit end)
         end) ([], None)
    = Ok (fits, Some first) /\
    m = {| MultiRQFit.Fits := fits;
           MultiRQFit.Taus := sortFloat64s taus;
           MultiRQFit.N := RQFit.N first;
           MultiRQFit.P := RQFit.P first |}.
Proof.
  unfold RQProcess, range_loop.
  destruct (length taus =? 0); [discriminate|].
  destruct (check_taus (sortFloat64s taus)); try discriminate. cbn [bind].
  match goal with
  | |- bind ?L _ = _ -> _ => destruct L as [[fits [first|]]| |] eqn:Hs
  end; cbn [bind]; try discriminate.
  intros H. inversion H. exists fits, first. split; reflexivity.
Qed.

Lemma NLRQProcess_ok_inv (y : list float) (x : list (list float))
  (model : NonLinearModel) (beta0 : list float) (taus : list float)
  (m : MultiNLRQFit.t) :
  NLRQProcess y x model beta0 taus = Ok m ->
  exists fits first,
    range_from 0 (sortFloat64s taus)
      (fun (_ : nat) (tau : float) '(fits, firstFit) =>
         match NLRQ y x model beta0 tau with
         | Err e => Err (FitFailed tau e)
         | Panic => Panic
         | Ok fit =>
             Ok (map_set fits tau fit,
                 match firstFit with None => Some fit | Some _ => firstFit end)
         end) ([], None)
    = Ok (fits, Some first) /\
    m = {| MultiNLRQFit.Fits := fits;
           MultiNLRQFit.Taus := sortFloat64s taus;
           MultiNLRQFit.N := NLRQFit.N first;
           MultiNLRQFit.P := NLRQFit.P first;
           MultiNLRQFit.Model := model |}.
Proof.
  unfold NLRQProcess, range_loop.
  destruct (length taus =? 0); [discriminate|].
  destruct (check_taus (sortFloat64s taus)); try discriminate. cbn [bind].
  match goal with
  | |- bind ?L _ = _ -> _ => destruct L as [[fits [first|]]| |] eqn:Hs
  end; cbn [bind]; try discriminate.
  intros H. inversion H. exists fits, first. split; reflexivity.
Qed.

(** C3 (as the code has it).  A successful [RQProcess] or [NLRQProcess]
    returns as [Taus] the requested levels sorted, every repetition kept: a
    permutation of the request that, for valid levels, is ascending and the
    same for every order of the request.  [Fits] has an entry exactly under
    the requested levels, each holding the single fit of a requested level
    equal to its key, and the aggregate's [N] and [P] are those of the
    single fit of the first sorted level. *)
Theorem process_aggregate :
  (forall y x taus m, RQProcess y x taus = Ok m ->
     MultiRQFit.Taus m = sortFloat64s taus /\
     Permutation taus (MultiRQFit.Taus m) /\
     (Forall valid_tau taus -> ascending (MultiRQFit.Taus m)) /\
     (forall k, (exists fit, map_get (MultiRQFit.Fits m) k = Some fit) <->
                (exists tau, In tau taus /\ (tau =? k)%float = true)) /\
     (forall k fit, map_get (MultiRQFit.Fits m) k = Some fit ->
        exists tau, In tau taus /\ (tau =? k)%float = true /\
                    RQ y x tau = Ok fit) /\
     (exists tau0 rest fit0,
        MultiRQFit.Taus m = tau0 :: rest /\ RQ y x tau0 = Ok fit0 /\
        MultiRQFit.N m = RQFit.N fit0 /\ MultiRQFit.P m = RQFit.P fit0) /\
     (forall taus', Forall valid_tau taus -> Permutation taus taus' ->
        MultiRQFit.Taus m = sortFloat64s taus'))
  /\
  (forall y x model beta0 taus m, NLRQProcess y x model beta0 taus = Ok m ->
     MultiNLRQFit.Taus m = sortFloat64s taus /\
     Permutation taus (MultiNLRQFit.Taus m) /\
     (Forall valid_tau taus -> ascending (MultiNLRQFit.Taus m)) /\
     (forall k, (exists fit, map_get (MultiNLRQFit.Fits m) k = Some fit) <->
                (exists tau, In tau taus /\ (tau =? k)%float = true)) /\
     (forall k fit, map_get (MultiNLRQFit.Fits m) k = Some fit ->
        exists tau, In tau taus /\ (tau =? k)%float = true /\
                    NLRQ y x model beta0 tau = Ok fit) /\
     (exists tau0 rest fit0,
        MultiNLRQFit.Taus m = tau0 :: rest /\
        NLRQ y x model beta0 tau0 = Ok fit0 /\
        MultiNLRQFit.N m = NLRQFit.N fit0 /\ MultiNLRQFit.P m = NLRQFit.P fit0) /\
     (forall taus', Forall valid_tau taus -> Permutation taus taus' ->
        MultiNLRQFit.Taus m = sortFloat64s taus')).
Proof.
  split.
  - intros y x taus m H.
    destruct (RQProcess_ok_inv _ _ _ _ H) as (fits & first & Hs & ->). simpl.
    split; [reflexivity|]. split; [apply sortFloat64s_perm|].
    split; [apply valid_taus_ascending|].
    split; [exact (aggregate_keys _ _ _ _ _ Hs)|].
    split; [exact (aggregate_values _ _ _ _ _ Hs)|].
    split; [|intros taus' Hv Hp; now apply sortFloat64s_order_independent].
    destruct (aggregate_first _ _ _ _ _ Hs first eq_refl) as (tau0 & rest & Hl & Hf).
    exists tau0, rest, first. auto.
  - intros y x model beta0 taus m H.
    destruct (NLRQProcess_ok_inv _ _ _ _ _ _ H) as (fits & first & Hs & ->). simpl.
    split; [reflexivity|]. split; [apply sortFloat64s_perm|].
    split; [apply valid_taus_ascending|].
    split; [exact (aggregate_keys _ _ _ _ _ Hs)|].
    split; [exact (aggregate_values _ _ _ _ _ Hs)|].
    split; [|intros taus' Hv Hp; now apply sortFloat64s_order_independent].
    destruct (aggregate_first _ _ _ _ _ Hs first eq_refl) as (tau0 & rest & Hl & Hf).
    exists tau0, rest, first. auto.
Qed.

Lemma process_aggregate_witness :
  (exists m, RQProcess readme_y readme_x [0.75; 0.25; 0.5]%float = Ok m /\
     MultiRQFit.Taus m = [0.25; 0.5; 0.75]%float /\
     ascending (MultiRQFit.Taus m) /\
     (exists fit, map_get (MultiRQFit.Fits m) 0.5%float = Some fit) /\
     MultiRQFit.N m = 5%Z /\ MultiRQFit.P m = 2%Z)
  /\
  (exists m, NLRQProcess line_y test_x affine_model test_beta0
               [0.75; 0.25; 0.5]%float = Ok m /\
     MultiNLRQFit.Taus m = [0.25; 0.5; 0.75]%float /\
     ascending (MultiNLRQFit.Taus m) /\
     (exists fit, map_get (MultiNLRQFit.Fits m) 0.25%float = Some fit) /\
     MultiNLRQFit.N m = 5%Z /\ MultiNLRQFit.P m = 2%Z).
Proof.
  assert (Hv : Forall valid_tau [0.75; 0.25; 0.5]%float)
    by (repeat constructor).
  split.
  - destruct (RQProcess readme_y readme_x [0.75; 0.25; 0.5]%float)
      as [m| |] eqn:H;
      [|vm_compute in H; discriminate H|vm_compute in H; discriminate H].
    exists m. split; [reflexivity|].
    destruct (proj1 process_aggregate _ _ _ _ H)
      as (HT & _ & Hasc & Hkeys & _
          & (tau0 & rest & fit0 & Hhd & Hfit & HN & HP) & _).
    split; [exact HT|]. split; [exact (Hasc Hv)|].
    split; [apply Hkeys; exists 0.5%float; split; [simpl; auto|reflexivity]|].
    rewrite HT in Hhd. inversion Hhd; subst tau0.
    vm_compute in Hfit. inversion Hfit; subst fit0.
    split; [exact HN|exact HP].
  - destruct (NLRQProcess line_y test_x affine_model test_beta0
                [0.75; 0.25; 0.5]%float) as [m| |] eqn:H;
      [|vm_compute in H; discriminate H|vm_compute in H; discriminate H].
    exists m. split; [reflexivity|].
    destruct (proj2 process_aggregate _ _ _ _ _ _ H)
      as (HT & _ & Hasc & Hkeys & _
          & (tau0 & rest & fit0 & Hhd & Hfit & HN & HP) & _).
    split; [exact HT|]. split; [exact (Hasc Hv)|].
    split; [apply Hkeys; exists 0.25%float; split; [simpl; auto|reflexivity]|].
    rewrite HT in Hhd. inversion Hhd; subst tau0.
    vm_compute in Hfit. inversion Hfit; subst fit0.
    split; [exact HN|exact HP].
Defined.

(** C3, the claim as stated, fails: a level requested twice appears twice
    in [Taus], which is not the deduplicated sequence. *)
Lemma repeated_tau_is_kept :
  bind (RQProcess [1%float] [[1%float]] [0.5; 0.5]%float)
       (fun m => Ok (MultiRQFit.Taus m)) = Ok [0.5; 0.5]%float
  /\ dedup_sorted (sortFloat64s [0.5; 0.5]%float) = [0.5%float].
Proof. split; vm_compute; reflexivity. Qed.

(** ** Diagnostics *)

(** A [range] loop is the counted loop over the indices of its slice. *)
Lemma range_from_for {A S : Type} (l pre : list A)
  (body : nat -> A -> S -> result S) (s : S) :
  range_from (length pre) l body s
  = for_from (length pre) (length l)
      (fun k s => match (pre ++ l) !! k with
                  | Some v => body k v s
                  | None => Panic
                  end) s.
Proof.
  revert pre s. induction l as [|v l IH]; intros pre s; simpl; [reflexivity|].
  rewrite list_lookup_middle by reflexivity.
  destruct (body (length pre) v s) as [s'| |]; simpl; try reflexivity.
  specialize (IH (pre ++ [v]) s'). rewrite length_app in IH. simpl in IH.
  rewrite Nat.add_1_r, <- app_assoc in IH. exact IH.
Qed.

Lemma range_loop_for {A S : Type} (l : list A)
  (body : nat -> A -> S -> result S) (s : S) :
  range_loop l body s
  = for_loop (length l)
      (fun k s => match l !! k with
                  | Some v => body k v s
                  | None => Panic
                  end) s.
Proof. exact (range_from_for l [] body s). Qed.

Lemma nth_insert {A : Type} (l : list A) (i a : nat) (x d : A) :
  i < length l ->
  nth a (<[i := x]> l) d = if a =? i then x else nth a l d.
Proof.
  intros Hi. rewrite !nth_lookup. destruct (Nat.eqb_spec a i) as [->|Hne].
  - now rewrite list_lookup_insert_eq.
  - now rewrite list_lookup_insert_ne by congruence.
Qed.

Lemma mat_set_spec (m m' : list (list Z)) (i j : nat) (v : Z) :
  mat_set m i j v = Ok m' ->
  length m' = length m /\
  (forall a, length (nth a m' []) = length (nth a m [])) /\
  (forall a b, mat_get m' a b
               = if (a =? i) && (b =? j) then v else mat_get m a b).
Proof.
  unfold mat_set, idx. destruct (m !! i) as [row|] eqn:Hrow; simpl;
    [|discriminate].
  destruct (Nat.ltb_spec j (length row)) as [Hj|Hj]; [|discriminate].
  intros H. inversion H; subst m'. clear H.
  assert (Hi : i < length m) by now apply (lookup_lt_Some m i row).
  assert (Hr : nth i m [] = row) by now apply nth_lookup_Some.
  split; [apply length_insert|]. split.
  - intros a. rewrite nth_insert by exact Hi.
    destruct (Nat.eqb_spec a i) as [->|_]; [|reflexivity].
    now rewrite length_insert, Hr.
  - intros a b. unfold mat_get. rewrite nth_insert by exact Hi.
    destruct (Nat.eqb_spec a i) as [->|_]; simpl; [|reflexivity].
    rewrite nth_insert by exact Hj. now rewrite Hr.
Qed.

Lemma mat_set_ok (m : list (list Z)) (i j : nat) (v : Z) :
  i < length m -> j < length (nth i m []) ->
  exists m', mat_set m i j v = Ok m'.
Proof.
  intros Hi Hj. unfold mat_set. rewrite (idx_ok m i []) by exact Hi.
  cbn [bind]. destruct (Nat.ltb_spec j (length (nth i m []))); [eauto|lia].
Qed.

Lemma count_fold_filter (f : nat -> bool) (l : list nat) (c : Z) :
  fold_left (fun crossings i => if f i then (crossings + 1)%Z else crossings) l c
  = (c + Z.of_nat (length (List.filter f l)))%Z.
Proof.
  revert c. induction l as [|i l IH]; intros c; simpl; [lia|].
  rewrite IH. destruct (f i); simpl; lia.
Qed.

Lemma countCrossings_flip_count (s1 s2 : list float) :
  countCrossings s1 s2
  = if length s1 =? length s2 then flip_count s1 s2 else 0%Z.
Proof.
  unfold countCrossings, flip_count.
  destruct (length s1 =? length s2); simpl; [|reflexivity].
  rewrite (count_fold_filter (crossing_at s1 s2)). reflexivity.
Qed.

Lemma countCrossings_sym (s1 s2 : list float) :
  countCrossings s1 s2 = countCrossings s2 s1.
Proof.
  unfold countCrossings. rewrite (Nat.eqb_sym (length s2) (length s1)).
  destruct (Nat.eqb_spec (length s1) (length s2)) as [Hlen|_]; simpl;
    [|reflexivity].
  rewrite !count_fold_filter, Hlen. do 3 f_equal.
  apply List.filter_ext. intros k. unfold crossing_at. apply orb_comm.
Qed.

Lemma countCrossings_ordered (s1 s2 : list float) :
  (forall k, k < length s1 -> (nth k s1 0 <? nth k s2 0)%float = true) ->
  countCrossings s1 s2 = 0%Z.
Proof.
  intros Hord. rewrite countCrossings_flip_count.
  destruct (length s1 =? length s2); [|reflexivity]. unfold flip_count.
  replace (List.filter (ordering_flips s1 s2) (seq 1 (length s1 - 1)))
    with (@nil nat); [reflexivity|].
  symmetry.
  assert (H : forall k, In k (seq 1 (length s1 - 1)) ->
                        ordering_flips s1 s2 k = false).
  { intros k Hk. apply in_seq in Hk. unfold ordering_flips.
    rewrite (ltb_asym _ _ (Hord k ltac:(lia))).
    rewrite (ltb_not_leb _ _ (Hord (k - 1) ltac:(lia))).
    now rewrite andb_false_r. }
  revert H. generalize (seq 1 (length s1 - 1)). intros l H.
  induction l as [|k l IH]; simpl; [reflexivity|].
  rewrite (H k (or_introl eq_refl)). apply IH. intros k' Hk'. apply H.
  now right.
Qed.

Section CrossingMatrix.
Variable m : MultiRQFit.t.

Let T := length (MultiRQFit.Taus m).
Let cc (a b : nat) : Z :=
  countCrossings (fitted_of m (Nat.min a b)) (fitted_of m (Nat.max a b)).

(** The matrix has [T] rows of [T] entries. *)
Let square (c : list (list Z)) : Prop :=
  length c = T /\ forall a, a < T -> length (nth a c []) = T.

(** The entries for which [filled] holds carry their count, the others 0. *)
Let entries (filled : nat -> nat -> Prop) (c : list (list Z)) : Prop :=
  forall a b, a < T -> b < T ->
    (filled a b -> mat_get c a b = cc a b) /\
    (~ filled a b -> mat_get c a b = 0%Z).

Lemma fitted_of_lookup (i : nat) (tau : float) (fit : RQFit.t) :
  MultiRQFit.Taus m !! i = Some tau ->
  map_get (MultiRQFit.Fits m) tau = Some fit ->
  fitted_of m i = RQFit.Fitted fit.
Proof.
  intros Hi Hf. unfold fitted_of.
  now rewrite (nth_lookup_Some _ _ 0%float _ Hi), Hf.
Qed.

(** The inner loop (lines 222-230) for row [i]. *)
Lemma crossing_inner_loop (i : nat) (tau1 : float) (fit1 : RQFit.t)
  (c c' : list (list Z)) :
  MultiRQFit.Taus m !! i = Some tau1 ->
  map_get (MultiRQFit.Fits m) tau1 = Some fit1 ->
  square c ->
  entries (fun a b => a <> b /\ Nat.min a b < i) c ->
  range_loop (MultiRQFit.Taus m) (fun j tau2 crossing =>
    if j <=? i then Ok crossing
    else
      match map_get (MultiRQFit.Fits m) tau2 with
      | None => Panic
      | Some fit2 =>
          let crossings :=
            countCrossings (RQFit.Fitted fit1) (RQFit.Fitted fit2) in
          bind (mat_set crossing i j crossings) (fun crossing =>
            mat_set crossing j i crossings)
      end) c = Ok c' ->
  square c' /\ entries (fun a b => a <> b /\ Nat.min a b < S i) c'.
Proof.
  intros Hi Hfit1 Hsq Hent Hloop.
  assert (HiT : i < T) by now apply (lookup_lt_Some _ i tau1).
  rewrite range_loop_for in Hloop. unfold for_loop in Hloop.
  apply (for_from_ok_inv
    (fun j c => square c /\
       entries (fun a b => a <> b /\
                  (Nat.min a b < i \/ (Nat.min a b = i /\ Nat.max a b < j))) c))
    in Hloop.
  - destruct Hloop as [Hsq' Hent']. split; [exact Hsq'|].
    intros a b Ha Hb. destruct (Hent' a b Ha Hb) as [H1 H2]. fold T in H1, H2.
    split; intros H; [apply H1|apply H2]; lia.
  - split; [exact Hsq|]. intros a b Ha Hb.
    destruct (Hent a b Ha Hb) as [H1 H2].
    split; intros H; [apply H1|apply H2]; lia.
  - clear c c' Hsq Hent Hloop. intros j c c' Hbody [Hsq Hent].
    destruct (MultiRQFit.Taus m !! j) as [tau2|] eqn:Hj; [|discriminate].
    assert (HjT : j < T) by now apply (lookup_lt_Some _ j tau2).
    destruct (Nat.leb_spec j i) as [Hle|Hlt].
    + inversion Hbody; subst c'. split; [exact Hsq|]. intros a b Ha Hb.
      destruct (Hent a b Ha Hb) as [H1 H2].
      split; intros H; [apply H1|apply H2]; lia.
    + destruct (map_get (MultiRQFit.Fits m) tau2) as [fit2|] eqn:Hfit2;
        [|discriminate].
      cbv zeta in Hbody.
      destruct (mat_set c i j _) as [c1| |] eqn:H1; cbn [bind] in Hbody;
        try discriminate.
      destruct (mat_set_spec _ _ _ _ _ H1) as (L1 & R1 & G1).
      destruct (mat_set_spec _ _ _ _ _ Hbody) as (L2 & R2 & G2).
      destruct Hsq as [Hlen Hrows]. split.
      * split; [congruence|]. intros a Ha. rewrite R2, R1. now apply Hrows.
      * intros a b Ha Hb. rewrite G2, G1.
        assert (Hc : countCrossings (RQFit.Fitted fit1) (RQFit.Fitted fit2)
                     = cc i j).
        { unfold cc. rewrite Nat.min_l, Nat.max_r by lia.
          now rewrite (fitted_of_lookup i tau1 fit1 Hi Hfit1),
                      (fitted_of_lookup j tau2 fit2 Hj Hfit2). }
        assert (Hsym : cc j i = cc i j)
          by (unfold cc; now rewrite Nat.min_comm, Nat.max_comm).
        destruct (Hent a b Ha Hb) as [E1 E2].
        destruct (Nat.eqb_spec a j) as [->|Haj];
          destruct (Nat.eqb_spec b i) as [->|Hbi]; simpl.
        -- split; intros H; [now rewrite Hc, Hsym|exfalso; apply H; lia].
        -- destruct (Nat.eqb_spec j i); [lia|]. simpl.
           split; intros H; [apply E1|apply E2]; lia.
        -- destruct (Nat.eqb_spec a i) as [->|Hai];
             destruct (Nat.eqb_spec i j); try lia; simpl;
             split; intros H; (apply E1 || apply E2); lia.
        -- destruct (Nat.eqb_spec a i) as [->|Hai];
             destruct (Nat.eqb_spec b j) as [->|Hbj]; simpl.
           ++ split; intros H; [exact Hc|exfalso; apply H; lia].
           ++ split; intros H; [apply E1|apply E2]; lia.
           ++ split; intros H; [apply E1|apply E2]; lia.
           ++ split; intros H; [apply E1|apply E2]; lia.
Qed.
End CrossingMatrix.
Lemma pseudo_loop (fitted : list float) (med : float) (l : list float)
  (i : nat) (a b a' b' : float) :
  range_from i l (fun i res '(sumRes, sumTot) =>
    bind (idx fitted i) (fun fi =>
      Ok ((sumRes + abs res)%float, (sumTot + abs (fi - med))%float))) (a, b)
  = Ok (a', b') ->
  a' = fold_left (fun acc r => (acc + abs r)%float) l a /\
  b' = fold_left (fun acc k => (acc + abs (nth k fitted 0 - med))%float)
                 (seq i (length l)) b.
Proof.
  revert i a b. induction l as [|res l IH]; intros i a b H; simpl in H.
  - inversion H. split; reflexivity.
  - unfold idx in H. destruct (fitted !! i) as [fi|] eqn:Hfi; simpl in H;
      [|discriminate].
    simpl. rewrite (nth_lookup_Some _ _ 0%float _ Hfi). now apply IH.
Qed.

Lemma pseudo_loop_ok (fitted : list float) (med : float) (l : list float)
  (i : nat) (s : float * float) :
  i + length l <= length fitted ->
  exists s',
    range_from i l (fun i res '(sumRes, sumTot) =>
      bind (idx fitted i) (fun fi =>
        Ok ((sumRes + abs res)%float, (sumTot + abs (fi - med))%float))) s
    = Ok s'.
Proof.
  revert i s. induction l as [|res l IH]; intros i [a b] H; simpl in *.
  - eauto.
  - rewrite (idx_ok fitted i 0%float) by lia. cbn [bind]. apply IH. lia.
Qed.

Lemma computePseudoRSquared_spec (fit : RQFit.t) (v : float) :
  computePseudoRSquared fit = Ok v -> v = pseudo_r_squared fit.
Proof.
  unfold computePseudoRSquared, range_loop. cbv zeta.
  match goal with
  | |- bind ?L _ = _ -> _ => destruct L as [[sumRes sumTot]| |] eqn:Hloop
  end; cbn [bind]; try discriminate.
  destruct (pseudo_loop _ _ _ _ _ _ _ _ Hloop) as [-> ->].
  unfold pseudo_r_squared. cbv zeta.
  match goal with
  | |- (if ?c then _ else _) = _ -> _ => destruct c
  end; intros H; now inversion H.
Qed.

Lemma computePseudoRSquared_ok (fit : RQFit.t) :
  length (RQFit.Residuals fit) <= length (RQFit.Fitted fit) ->
  exists v, computePseudoRSquared fit = Ok v.
Proof.
  intros Hlen. unfold computePseudoRSquared, range_loop. cbv zeta.
  destruct (pseudo_loop_ok (RQFit.Fitted fit) (median (RQFit.Residuals fit))
              (RQFit.Residuals fit) 0 (0, 0)%float Hlen) as [[a b] Hs].
  rewrite_loop Hs. cbn [bind]. destruct (b =? 0)%float; eauto.
Qed.

Section CrossingMatrixOuter.
Variable m : MultiRQFit.t.

Let T := length (MultiRQFit.Taus m).

Lemma zero_matrix_get (a b : nat) :
  a < T -> b < T ->
  length (nth a (replicate T (replicate T 0%Z)) []) = T /\
  mat_get (replicate T (replicate T 0%Z)) a b = 0%Z.
Proof.
  intros Ha Hb. unfold mat_get.
  rewrite (nth_lookup_Some _ _ [] (replicate T 0%Z))
    by now apply lookup_replicate_2.
  split; [apply length_replicate|].
  now rewrite (nth_lookup_Some _ _ 0%Z 0%Z) by now apply lookup_replicate_2.
Qed.

(** The crossing matrix a returning [ComputeDiagnostics] built. *)
Lemma ComputeDiagnostics_crossing (d : Diagnostics) :
  ComputeDiagnostics m = Ok d ->
  length (CrossingMatrix d) = T /\
  (forall a, a < T -> length (nth a (CrossingMatrix d) []) = T) /\
  (forall a b, a < T -> b < T ->
     mat_get (CrossingMatrix d) a b
     = if a =? b then 0%Z
       else countCrossings (fitted_of m (Nat.min a b))
                           (fitted_of m (Nat.max a b))).
Proof.
  unfold ComputeDiagnostics. cbv zeta. fold T.
  match goal with
  | |- bind ?L _ = _ -> _ => destruct L as [[stats c]| |] eqn:Hloop
  end; cbn [bind]; try discriminate.
  intros Hd.
  assert (Hc : CrossingMatrix d = c).
  { destruct (map_get (MultiRQFit.Fits m) 0.5%float) as [fit|].
    - destruct (computePseudoRSquared fit); cbn [bind] in Hd;
        try discriminate. now inversion Hd.
    - now inversion Hd. }
  rewrite Hc. clear Hd Hc d.
  rewrite range_loop_for in Hloop. unfold for_loop in Hloop.
  apply (for_from_ok_inv
    (fun i (st : fmap Stats * list (list Z)) =>
       (length (snd st) = T /\
        forall a, a < T -> length (nth a (snd st) []) = T) /\
       forall a b, a < T -> b < T ->
         (a <> b /\ Nat.min a b < i ->
          mat_get (snd st) a b
          = countCrossings (fitted_of m (Nat.min a b))
                           (fitted_of m (Nat.max a b))) /\
         (~ (a <> b /\ Nat.min a b < i) -> mat_get (snd st) a b = 0%Z)))
    in Hloop.
  - simpl in Hloop. destruct Hloop as [[Hlen Hrows] Hent].
    split; [exact Hlen|]. split; [exact Hrows|].
    intros a b Ha Hb. destruct (Hent a b Ha Hb) as [H1 H2].
    destruct (Nat.eqb_spec a b) as [->|Hne]; [apply H2|apply H1]; lia.
  - simpl. split; [split|].
    + apply length_replicate.
    + intros a Ha. now apply (zero_matrix_get a a).
    + intros a b Ha Hb. split; [lia|]. intros _. now apply zero_matrix_get.
  - clear stats c Hloop. intros i [stats c] [stats' c'] Hbody [Hsq Hent].
    simpl in Hsq, Hent. simpl.
    destruct (MultiRQFit.Taus m !! i) as [tau1|] eqn:Hi; [|discriminate].
    destruct (map_get (MultiRQFit.Fits m) tau1) as [fit1|] eqn:Hfit1;
      [|discriminate].
    cbv zeta in Hbody.
    match type of Hbody with
    | bind ?L _ = _ => destruct L as [c1| |] eqn:Hinner
    end; cbn [bind] in Hbody; try discriminate.
    inversion Hbody; subst stats' c'.
    exact (crossing_inner_loop m i tau1 fit1 c c1 Hi Hfit1 Hsq Hent Hinner).
Qed.

Lemma ComputeDiagnostics_pseudo (d : Diagnostics) :
  ComputeDiagnostics m = Ok d ->
  PseudoRSquared d
  = match map_get (MultiRQFit.Fits m) 0.5%float with
    | Some fit => pseudo_r_squared fit
    | None => 0%float
    end.
Proof.
  unfold ComputeDiagnostics. cbv zeta.
  match goal with
  | |- bind ?L _ = _ -> _ => destruct L as [[stats c]| |] eqn:Hloop
  end; cbn [bind]; try discriminate.
  destruct (map_get (MultiRQFit.Fits m) 0.5%float) as [fit|].
  - destruct (computePseudoRSquared fit) as [v| |] eqn:Hv; cbn [bind];
      try discriminate.
    intros H. inversion H; subst d. simpl.
    now apply computePseudoRSquared_spec.
  - intros H. now inversion H.
Qed.
End CrossingMatrixOuter.
(** [ComputeDiagnostics] returns on a complete aggregate. *)
Lemma ComputeDiagnostics_ok (m : MultiRQFit.t) :
  complete_aggregate m -> exists d, ComputeDiagnostics m = Ok d.
Proof.
  intros [Hall Hlen]. unfold ComputeDiagnostics. cbv zeta.
  set (T := length (MultiRQFit.Taus m)).
  assert (Hloop : exists st,
    range_loop (MultiRQFit.Taus m) (fun i tau1 '(stats, crossing) =>
      match map_get (MultiRQFit.Fits m) tau1 with
      | None => Panic
      | Some fit1 =>
          let st := computeStats (RQFit.Residuals fit1) in
          let stats := map_set stats tau1 st in
          bind
            (range_loop (MultiRQFit.Taus m) (fun j tau2 crossing =>
              if j <=? i then Ok crossing
              else
                match map_get (MultiRQFit.Fits m) tau2 with
                | None => Panic
                | Some fit2 =>
                    let crossings :=
                      countCrossings (RQFit.Fitted fit1) (RQFit.Fitted fit2) in
                    bind (mat_set crossing i j crossings) (fun crossing =>
                      mat_set crossing j i crossings)
                end) crossing)
            (fun crossing => Ok (stats, crossing))
      end) ([], replicate T (replicate T 0%Z)) = Ok st).
  { rewrite range_loop_for.
    destruct (for_loop_inv
      (fun _ (st : fmap Stats * list (list Z)) =>
         length (snd st) = T /\
         forall a, a < T -> length (nth a (snd st) []) = T)
      (length (MultiRQFit.Taus m)) 
      (fun k s => match MultiRQFit.Taus m !! k with
        | Some v => (fun i tau1 '(stats, crossing) =>
            match map_get (MultiRQFit.Fits m) tau1 with
            | None => Panic
            | Some fit1 =>
                let st := computeStats (RQFit.Residuals fit1) in
                let stats := map_set stats tau1 st in
                bind
                  (range_loop (MultiRQFit.Taus m) (fun j tau2 crossing =>
                    if j <=? i then Ok crossing
                    else
                      match map_get (MultiRQFit.Fits m) tau2 with
                      | None => Panic
                      | Some fit2 =>
                          let crossings :=
                            countCrossings (RQFit.Fitted fit1) (RQFit.Fitted fit2) in
                          bind (mat_set crossing i j crossings) (fun crossing =>
                            mat_set crossing j i crossings)
                      end) crossing)
                  (fun crossing => Ok (stats, crossing))
            end) k v s
        | None => Panic
        end)
      ([], replicate T (replicate T 0%Z))) as (st & Hst & _).
    - simpl. split; [apply length_replicate|].
      intros a Ha. now apply (zero_matrix_get m a a).
    - intros i [stats c] Hi [Hl Hr]. simpl in Hl, Hr.
      destruct (lookup_lt_is_Some_2 _ i Hi) as [tau1 Htau1]. rewrite Htau1.
      destruct (Hall tau1) as [fit1 Hfit1].
      { apply list_elem_of_In. now apply (list_elem_of_lookup_2 _ i). }
      rewrite Hfit1. cbv zeta. rewrite range_loop_for.
      destruct (for_loop_inv
        (fun _ (c : list (list Z)) =>
           length c = T /\ forall a, a < T -> length (nth a c []) = T)
        (length (MultiRQFit.Taus m))
        (fun k s => match MultiRQFit.Taus m !! k with
          | Some v => (fun j tau2 crossing =>
              if j <=? i then Ok crossing
              else
                match map_get (MultiRQFit.Fits m) tau2 with
                | None => Panic
                | Some fit2 =>
                    let crossings :=
                      countCrossings (RQFit.Fitted fit1) (RQFit.Fitted fit2) in
                    bind (mat_set crossing i j crossings) (fun crossing =>
                      mat_set crossing j i crossings)
                end) k v s
          | None => Panic
          end) c) as (c' & Hc' & Hinv).
      + split; assumption.
      + intros j c0 Hj [Hl0 Hr0].
        destruct (lookup_lt_is_Some_2 _ j Hj) as [tau2 Htau2]. rewrite Htau2.
        destruct (j <=? i); [eauto|].
        destruct (Hall tau2) as [fit2 Hfit2].
        { apply list_elem_of_In. now apply (list_elem_of_lookup_2 _ j). }
        rewrite Hfit2. cbv zeta.
        destruct (mat_set_ok c0 i j
                    (countCrossings (RQFit.Fitted fit1) (RQFit.Fitted fit2)))
          as [c1 Hc1]; [fold T in Hi; lia|rewrite Hr0; fold T in Hi, Hj; lia|].
        rewrite Hc1. cbn [bind].
        destruct (mat_set_spec _ _ _ _ _ Hc1) as (L1 & R1 & _).
        destruct (mat_set_ok c1 j i
                    (countCrossings (RQFit.Fitted fit1) (RQFit.Fitted fit2)))
          as [c2 Hc2];
          [fold T in Hj; lia|rewrite R1, Hr0; fold T in Hi, Hj; lia|].
        exists c2. split; [exact Hc2|].
        destruct (mat_set_spec _ _ _ _ _ Hc2) as (L2 & R2 & _).
        split; [congruence|]. intros a Ha. rewrite R2, R1. now apply Hr0.
      + rewrite_loop Hc'. cbn [bind]. eexists. split; [reflexivity|]. exact Hinv.
    - exists st. exact Hst. }
  destruct Hloop as [[stats c] Hloop]. rewrite_loop Hloop. cbn [bind].
  destruct (map_get (MultiRQFit.Fits m) 0.5%float) as [fit|] eqn:Hfit;
    [|eauto].
  destruct (computePseudoRSquared_ok fit) as [v Hv].
  { rewrite (Hlen _ _ Hfit). lia. }
  rewrite Hv. cbn [bind]. eauto.
Qed.
Lemma RQ_lengths (y : list float) (x : list (list float)) (tau : float)
  (fit : RQFit.t) :
  RQ y x tau = Ok fit ->
  length (RQFit.Residuals fit) = length y /\
  length (RQFit.Fitted fit) = length y.
Proof.
  intros H. destruct (RQ_ok_inv _ _ _ _ H) as (coef & fr & _ & Hfr & ->).
  destruct (rq_fitted_residuals_spec _ _ _ _ _ _ Hfr) as [Hlen _]. simpl.
  now rewrite !length_map.
Qed.

(** What [RQProcess] returns for valid levels is a complete aggregate whose
    fitted sequences all have one entry per response. *)
Lemma RQProcess_complete (y : list float) (x : list (list float))
  (taus : list float) (m : MultiRQFit.t) :
  Forall valid_tau taus -> RQProcess y x taus = Ok m ->
  complete_aggregate m /\
  forall a, a < length (MultiRQFit.Taus m) ->
    length (fitted_of m a) = length y.
Proof.
  intros Hvalid H.
  destruct (RQProcess_ok_inv _ _ _ _ H) as (fits & first & Hs & ->).
  assert (Hkey : forall tau, In tau (sortFloat64s taus) ->
                   exists fit, map_get fits tau = Some fit).
  { intros tau Hin. apply (aggregate_keys _ _ _ _ _ Hs).
    apply (proj1 (sortFloat64s_In taus tau)) in Hin.
    exists tau. split; [exact Hin|].
    apply float_eqb_refl, valid_tau_not_nan.
    rewrite List.Forall_forall in Hvalid. now apply Hvalid. }
  assert (Hlen : forall k fit, map_get fits k = Some fit ->
                   length (RQFit.Residuals fit) = length y /\
                   length (RQFit.Fitted fit) = length y).
  { intros k fit Hk.
    destruct (aggregate_values _ _ _ _ _ Hs k fit Hk) as (tau & _ & _ & Hfit).
    now apply (RQ_lengths y x tau). }
  split; [split|]; simpl.
  - exact Hkey.
  - intros k fit Hk. destruct (Hlen k fit Hk). congruence.
  - intros a Ha. unfold fitted_of. simpl.
    destruct (Hkey (nth a (sortFloat64s taus) 0%float)) as [fit Hfit].
    { apply nth_In. exact Ha. }
    rewrite Hfit. now apply (Hlen _ fit Hfit).
Qed.

(** C6.  The crossing matrix [ComputeDiagnostics] returns is square (one
    row and one column per sorted level), symmetric, and zero on the
    diagonal.  An off-diagonal entry [(a, b)] is the number of positions
    [k >= 1] at which the ordering of the fitted sequences of the [a]-th and
    [b]-th level flips (and 0 should their lengths differ, which no
    aggregate built by [RQProcess] exhibits).  If the fitted sequences are
    strictly ordered pointwise in tau, every off-diagonal entry is 0.
    [ComputeDiagnostics] returns on every complete aggregate, in particular
    on what [RQProcess] returns for valid levels. *)
Theorem crossing_matrix_properties :
  (forall m d, ComputeDiagnostics m = Ok d ->
     let T := length (MultiRQFit.Taus m) in
     let c := CrossingMatrix d in
     length c = T /\
     (forall a, a < T -> length (nth a c []) = T) /\
     (forall a b, a < T -> b < T -> mat_get c a b = mat_get c b a) /\
     (forall a, a < T -> mat_get c a a = 0%Z) /\
     (forall a b, a < T -> b < T -> a <> b ->
        mat_get c a b
        = if length (fitted_of m a) =? length (fitted_of m b)
          then flip_count (fitted_of m a) (fitted_of m b) else 0%Z) /\
     ((forall a b k, a < b -> b < T -> k < length (fitted_of m a) ->
         (nth k (fitted_of m a) 0 <? nth k (fitted_of m b) 0)%float = true) ->
      forall a b, a < T -> b < T -> a <> b -> mat_get c a b = 0%Z))
  /\ (forall m, complete_aggregate m -> exists d, ComputeDiagnostics m = Ok d)
  /\ (forall y x taus m,
        Forall valid_tau taus -> RQProcess y x taus = Ok m ->
        complete_aggregate m /\
        forall a, a < length (MultiRQFit.Taus m) ->
          length (fitted_of m a) = length y).
Proof.
  split; [|split; [exact ComputeDiagnostics_ok|exact RQProcess_complete]].
  intros m d Hd T c.
  destruct (ComputeDiagnostics_crossing m d Hd) as (Hlen & Hrows & Hget).
  fold T c in Hlen, Hrows, Hget.
  split; [exact Hlen|]. split; [exact Hrows|].
  split; [|split; [|split]].
  - intros a b Ha Hb. rewrite (Hget a b Ha Hb), (Hget b a Hb Ha).
    rewrite (Nat.eqb_sym b a), Nat.min_comm, Nat.max_comm. reflexivity.
  - intros a Ha. now rewrite (Hget a a Ha Ha), Nat.eqb_refl.
  - intros a b Ha Hb Hne. rewrite (Hget a b Ha Hb).
    destruct (Nat.eqb_spec a b) as [|_]; [contradiction|].
    destruct (Nat.le_ge_cases a b) as [Hle|Hge].
    + rewrite Nat.min_l, Nat.max_r by lia. apply countCrossings_flip_count.
    + rewrite Nat.min_r, Nat.max_l by lia. rewrite countCrossings_sym.
      apply countCrossings_flip_count.
  - intros Hord a b Ha Hb Hne. rewrite (Hget a b Ha Hb).
    destruct (Nat.eqb_spec a b) as [|_]; [contradiction|].
    apply countCrossings_ordered. intros k Hk.
    apply Hord; [lia|lia|exact Hk].
Qed.

Lemma crossing_matrix_properties_witness :
  exists m d,
    RQProcess readme_y readme_x [0.75; 0.25; 0.5]%float = Ok m /\
    ComputeDiagnostics m = Ok d /\
    length (CrossingMatrix d) = 3 /\
    mat_get (CrossingMatrix d) 0 1 = mat_get (CrossingMatrix d) 1 0 /\
    mat_get (CrossingMatrix d) 2 2 = 0%Z /\
    mat_get (CrossingMatrix d) 0 1
    = flip_count (fitted_of m 0) (fitted_of m 1).
Proof.
  destruct crossing_matrix_properties as (Hprop & Hok & Hcomplete).
  destruct (RQProcess readme_y readme_x [0.75; 0.25; 0.5]%float)
    as [m| |] eqn:H;
    [|vm_compute in H; discriminate H|vm_compute in H; discriminate H].
  assert (Hv : Forall valid_tau [0.75; 0.25; 0.5]%float)
    by (repeat constructor).
  destruct (Hcomplete _ _ _ _ Hv H) as [Hc Hfl].
  destruct (Hok m Hc) as [d Hd].
  assert (HT : length (MultiRQFit.Taus m) = 3).
  { destruct (RQProcess_ok_inv _ _ _ _ H) as (fits & first & _ & ->).
    reflexivity. }
  destruct (Hprop m d Hd) as (Hlen & _ & Hsym & Hdiag & Hflip & _).
  rewrite HT in Hlen, Hsym, Hdiag, Hflip.
  exists m, d. split; [reflexivity|]. split; [exact Hd|].
  split; [exact Hlen|]. split; [apply Hsym; lia|]. split; [apply Hdiag; lia|].
  rewrite (Hflip 0 1) by lia.
  now rewrite !Hfl, Nat.eqb_refl by (rewrite HT; lia).
Defined.

(** ** Rank in sorted order *)

Lemma float_less_irrefl (a : float) : float_less a a = false.
Proof.
  unfold float_less. destruct (is_nan a); cbn [negb andb]; rewrite ?orb_false_r.
  - destruct (a <? a)%float eqn:H; [|reflexivity].
    pose proof (ltb_asym _ _ H). congruence.
  - destruct (a <? a)%float eqn:H; [|reflexivity].
    pose proof (ltb_asym _ _ H). congruence.
Qed.

Lemma float_less_asym (a b : float) :
  float_less a b = true -> float_less b a = false.
Proof.
  unfold float_less. intros H. apply orb_true_iff in H as [H|H].
  - destruct (ltb_not_nan _ _ H) as [Ha Hb].
    now rewrite (ltb_asym _ _ H), Hb.
  - apply andb_true_iff in H as [Ha Hb]. apply negb_true_iff in Hb.
    rewrite Hb, andb_false_l, orb_false_r.
    destruct (b <? a)%float eqn:E; [|reflexivity].
    destruct (ltb_not_nan _ _ E) as [_ Ha']. congruence.
Qed.

Lemma float_not_less_trans (a b c : float) :
  float_less b a = false -> float_less c b = false -> float_less c a = false.
Proof.
  unfold float_less. intros Hba Hcb.
  apply orb_false_iff in Hba as [Hba Hba'], Hcb as [Hcb Hcb'].
  destruct ((c <? a)%float || is_nan c && negb (is_nan a)) eqn:H;
    [|reflexivity].
  exfalso. apply orb_true_iff in H as [H|H].
  - destruct (ltb_not_nan _ _ H) as [Hc Ha].
    rewrite Ha in Hba'. cbn [negb] in Hba'. rewrite andb_true_r in Hba'.
    pose proof (not_ltb_leb b a Hba' Ha Hba) as Hab.
    pose proof (not_ltb_leb c b Hc Hba' Hcb) as Hbc.
    pose proof (leb_trans _ _ _ Hab Hbc) as Hac.
    rewrite (ltb_not_leb _ _ H) in Hac. discriminate.
  - apply andb_true_iff in H as [Hc Ha]. apply negb_true_iff in Ha.
    rewrite Hc in Hcb'. cbn [andb] in Hcb'. apply negb_false_iff in Hcb'.
    rewrite Hcb', Ha in Hba'. discriminate.
Qed.

Lemma sort_insert_sort_order (x : float) (l : list float) :
  Sorted (fun a b => float_less b a = false) l ->
  Sorted (fun a b => float_less b a = false) (sort_insert x l).
Proof.
  intros Hs. induction l as [|y l IH]; cbn [sort_insert].
  - repeat constructor.
  - inversion Hs as [|? ? Hs' Hhd]; subst.
    destruct (float_less y x) eqn:Hyx.
    + constructor; [now apply IH|].
      destruct l as [|z l]; cbn [sort_insert].
      * constructor. now apply float_less_asym.
      * destruct (float_less z x); constructor.
        -- now inversion Hhd.
        -- now apply float_less_asym.
    + constructor; [exact Hs|]. constructor. exact Hyx.
Qed.

(** [sort.Float64s] leaves its slice in its own order, NaN included. *)
Lemma sortFloat64s_sort_order (l : list float) :
  StronglySorted (fun a b => float_less b a = false) (sortFloat64s l).
Proof.
  apply Sorted_StronglySorted.
  - intros a b c Hab Hbc. exact (float_not_less_trans a b c Hab Hbc).
  - induction l as [|x l IH]; cbn [sortFloat64s]; [constructor|].
    now apply sort_insert_sort_order.
Qed.

Lemma filter_none {A : Type} (f : A -> bool) (l : list A) :
  Forall (fun v => f v = false) l -> List.filter f l = [].
Proof.
  induction 1 as [|v l Hv _ IH]; [reflexivity|].
  cbn [List.filter]. now rewrite Hv.
Qed.

Lemma filter_length_perm {A : Type} (f : A -> bool) (l l' : list A) :
  Permutation l l' -> length (List.filter f l) = length (List.filter f l').
Proof.
  induction 1 as [|v l l' _ IH|v w l|l l' l'' _ IH1 _ IH2]; cbn [List.filter].
  - reflexivity.
  - destruct (f v); cbn [length]; now rewrite IH.
  - destruct (f v), (f w); reflexivity.
  - now rewrite IH1.
Qed.

Lemma filter_length_mono {A : Type} (f g : A -> bool) (l : list A) :
  (forall v, In v l -> f v = true -> g v = true) ->
  length (List.filter f l) <= length (List.filter g l).
Proof.
  induction l as [|v l IH]; intros H; [reflexivity|]. cbn [List.filter].
  assert (IH' : length (List.filter f l) <= length (List.filter g l))
    by (apply IH; intros w Hw; apply H; now right).
  destruct (f v) eqn:Hf.
  - rewrite (H v (or_introl eq_refl) Hf). cbn [length]. lia.
  - destruct (g v); cbn [length]; lia.
Qed.

(** In a slice in sorted order the element at index [k] has rank [k]. *)
Lemma sorted_index_rank (s : list float) :
  StronglySorted (fun a b => float_less b a = false) s ->
  forall k, k < length s ->
  length (List.filter (fun v => float_less v (nth k s 0%float)) s) <= k /\
  k < length (List.filter (fun v => negb (float_less (nth k s 0%float) v)) s).
Proof.
  induction 1 as [|x s Hs IH Hall]; intros k Hk; [simpl in Hk; lia|].
  destruct k as [|k]; cbn [nth List.filter].
  - rewrite float_less_irrefl. cbn [negb length]. split; [|lia].
    rewrite filter_none; [reflexivity|].
    apply List.Forall_forall. intros v Hv.
    exact (proj1 (List.Forall_forall _ _) Hall v Hv).
  - simpl in Hk. assert (Hk' : k < length s) by lia.
    destruct (IH k Hk') as [H1 H2].
    assert (Hx : float_less (nth k s 0%float) x = false).
    { apply (proj1 (List.Forall_forall _ _) Hall). now apply nth_In. }
    rewrite Hx. cbn [negb length]. split; [|lia].
    destruct (float_less x (nth k s 0%float)); cbn [length]; lia.
Qed.

Lemma median_nonempty (data : list float) :
  data <> [] ->
  median data = nth (length data / 2) (sortFloat64s data) 0%float.
Proof.
  intros Hd. unfold median. rewrite (length_nonempty _ Hd). cbv zeta.
  now rewrite sortFloat64s_length.
Qed.

Lemma half_lt (data : list float) : data <> [] -> length data / 2 < length data.
Proof.
  intros Hd. apply Nat.div_lt; [|lia].
  destruct data; [congruence|simpl; lia].
Qed.

(** The element [sort.Float64s] leaves at index [k] has rank [k] in its
    order. *)
Lemma sorted_position_sort_rank (data : list float) (k : nat) :
  k < length data ->
  has_sort_rank data k (nth k (sortFloat64s data) 0%float).
Proof.
  intros Hk. unfold has_sort_rank.
  assert (Hk' : k < length (sortFloat64s data))
    by now rewrite sortFloat64s_length.
  split.
  - apply (proj1 (sortFloat64s_In data _)). now apply nth_In.
  - rewrite (filter_length_perm _ _ _ (sortFloat64s_perm data)).
    rewrite (filter_length_perm (fun v => negb _) _ _ (sortFloat64s_perm data)).
    exact (sorted_index_rank _ (sortFloat64s_sort_order data) k Hk').
Qed.

Lemma negb_ltb_leb (a b : float) :
  is_nan a = false -> is_nan b = false ->
  negb (a <? b)%float = (b <=? a)%float.
Proof.
  intros Ha Hb. destruct (a <? b)%float eqn:H; cbn [negb].
  - now rewrite (ltb_not_leb _ _ H).
  - now rewrite (not_ltb_leb _ _ Ha Hb H).
Qed.

Lemma sort_rank_of_numbers (data : list float) (k : nat) (m : float) :
  Forall (fun v => is_nan v = false) data ->
  (has_sort_rank data k m <-> has_rank data k m).
Proof.
  intros Hn. unfold has_sort_rank, has_rank.
  assert (Hm : In m data ->
    List.filter (fun v => float_less v m) data
    = List.filter (fun v => (v <? m)%float) data /\
    List.filter (fun v => negb (float_less m v)) data
    = List.filter (fun v => (v <=? m)%float) data).
  { intros Hin.
    pose proof (proj1 (List.Forall_forall _ _) Hn m Hin) as Hmn.
    split; apply List.filter_ext_in; intros v Hv;
      pose proof (proj1 (List.Forall_forall _ _) Hn v Hv) as Hvn;
      unfold float_less.
    - now rewrite Hvn, andb_false_l, orb_false_r.
    - rewrite Hmn, andb_false_l, orb_false_r. now apply negb_ltb_leb. }
  split; intros (Hin & H); (split; [exact Hin|]);
    destruct (Hm Hin) as [E1 E2].
  - now rewrite <- E1, <- E2.
  - now rewrite E1, E2.
Qed.

Lemma leb_leb_eqb (a b : float) :
  (a <=? b)%float = true -> (b <=? a)%float = true -> (a =? b)%float = true.
Proof.
  rewrite !leb_spec, FloatAxioms.eqb_spec. unfold SFleb, SFeqb.
  rewrite (SFcompare_antisym (Prim2SF a) (Prim2SF b)).
  destruct (SFcompare (Prim2SF a) (Prim2SF b)) as [[]|]; simpl; congruence.
Qed.

Lemma leb_ltb_trans (a b c : float) :
  is_nan a = false -> is_nan c = false ->
  (a <=? b)%float = true -> (b <? c)%float = true -> (a <? c)%float = true.
Proof.
  intros Ha Hc Hab Hbc. destruct (a <? c)%float eqn:H; [reflexivity|].
  pose proof (not_ltb_leb a c Ha Hc H) as Hca.
  pose proof (leb_trans _ _ _ Hca Hab) as Hcb.
  rewrite (ltb_not_leb _ _ Hbc) in Hcb. discriminate.
Qed.

(** Among numbers a rank fixes its value, up to [==]. *)
Lemma rank_unique (data : list float) (k : nat) (a m : float) :
  Forall (fun v => is_nan v = false) data ->
  has_rank data k a -> has_rank data k m -> (a =? m)%float = true.
Proof.
  intros Hn (Ha & Ha1 & Ha2) (Hm & Hm1 & Hm2).
  pose proof (proj1 (List.Forall_forall _ _) Hn) as Hnan.
  assert (Hlt : forall p q, In p data -> In q data ->
            k < length (List.filter (fun v => (v <=? p)%float) data) ->
            length (List.filter (fun v => (v <? q)%float) data) <= k ->
            (p <? q)%float = false).
  { intros p q Hp Hq Hp2 Hq1. destruct (p <? q)%float eqn:E; [|reflexivity].
    exfalso.
    pose proof (filter_length_mono (fun v => (v <=? p)%float)
                  (fun v => (v <? q)%float) data) as Hmono.
    assert (length (List.filter (fun v => (v <=? p)%float) data)
            <= length (List.filter (fun v => (v <? q)%float) data)); [|lia].
    apply Hmono. intros v Hv Hvp.
    exact (leb_ltb_trans v p q (Hnan v Hv) (Hnan q Hq) Hvp E). }
  apply leb_leb_eqb.
  - apply not_ltb_leb; [now apply Hnan|now apply Hnan|].
    now apply Hlt.
  - apply not_ltb_leb; [now apply Hnan|now apply Hnan|].
    now apply Hlt.
Qed.

(** Among numbers, the element at index [k] of any ascending arrangement of
    the data has rank [k]. *)
Lemma ascending_position_rank (data s : list float) (k : nat) :
  Forall (fun v => is_nan v = false) data ->
  Permutation data s -> Sorted (fun a b => (a <=? b)%float = true) s ->
  k < length data -> has_rank data k (nth k s 0%float).
Proof.
  intros Hn Hp Hs Hk.
  assert (Hsn : Forall (fun v => is_nan v = false) s)
    by exact (Permutation_Forall Hp Hn).
  pose proof (proj1 (List.Forall_forall _ _) Hsn) as Hnan.
  assert (Hk' : k < length s) by now rewrite <- (Permutation_length Hp).
  apply (sort_rank_of_numbers data k _ Hn).
  assert (Hss : StronglySorted (fun a b => float_less b a = false) s).
  { apply Sorted_StronglySorted in Hs; [|intros a b c; apply leb_trans].
    clear Hk Hk' Hp. induction Hs as [|x s Hs IH Hall]; [constructor|].
    inversion Hsn as [|? ? Hx Hsn']; subst.
    constructor; [apply IH; [exact Hsn'|]|].
    - intros v Hv. apply Hnan. now right.
    - apply List.Forall_forall. intros v Hv.
      pose proof (proj1 (List.Forall_forall _ _) Hall v Hv) as Hxv.
      cbv beta in Hxv. unfold float_less.
      rewrite (proj1 (List.Forall_forall _ _) Hsn' v Hv), andb_false_l,
        orb_false_r.
      destruct (v <? x)%float eqn:E; [|reflexivity].
      rewrite (ltb_not_leb _ _ E) in Hxv. discriminate. }
  unfold has_sort_rank. split.
  - apply (Permutation_in _ (Permutation_sym Hp)). now apply nth_In.
  - rewrite (filter_length_perm _ _ _ Hp).
    rewrite (filter_length_perm (fun v => negb _) _ _ Hp).
    exact (sorted_index_rank s Hss k Hk').
Qed.

(** What [median] returns: the value of rank [n/2]. *)
Lemma median_rank (data : list float) :
  data <> [] ->
  has_sort_rank data (length data / 2) (median data) /\
  (Forall (fun v => is_nan v = false) data ->
   has_rank data (length data / 2) (median data) /\
   forall s, Permutation data s ->
     Sorted (fun a b => (a <=? b)%float = true) s ->
     (nth (length data / 2) s 0 =? median data)%float = true).
Proof.
  intros Hd. pose proof (half_lt data Hd) as Hk.
  rewrite (median_nonempty data Hd).
  pose proof (sorted_position_sort_rank data _ Hk) as Hr.
  split; [exact Hr|]. intros Hn.
  pose proof (proj1 (sort_rank_of_numbers data _ _ Hn) Hr) as Hr'.
  split; [exact Hr'|]. intros s Hp Hs.
  apply (rank_unique data (length data / 2)); [exact Hn| |exact Hr'].
  now apply ascending_position_rank.
Qed.

(** C5.  The pseudo-R-squared [ComputeDiagnostics] returns comes from the
    fit stored under 0.5 alone: it is one minus the sum of its absolute
    residuals over the sum of the absolute deviations of its fitted values
    from the median of its own residuals, 0 when that denominator is exactly
    zero, and the scalar 0 when no fit is stored under 0.5.  For what
    [RQProcess] returns for valid levels the diagnostics are returned, and a
    fit is stored under 0.5 exactly when 0.5 was requested.  The median is
    the element at index [n/2] of the sorted residuals, the upper one of the
    two middle elements when [n] is even: it occurs among the residuals, at
    most [n/2] of them are below it and more than [n/2] are at or below it,
    in the order of the sort and, when no residual is NaN, in the order of
    the numbers, where it is the element at index [n/2] of every ascending
    arrangement of the residuals; with no residuals it is 0. *)
Theorem pseudo_r_squared_from_median_fit :
  (forall m d, ComputeDiagnostics m = Ok d ->
     PseudoRSquared d
     = match map_get (MultiRQFit.Fits m) 0.5%float with
       | Some fit => pseudo_r_squared fit
       | None => 0%float
       end)
  /\ (forall fit,
        pseudo_r_squared fit
        = let med := median (RQFit.Residuals fit) in
          let num :=
            fold_left (fun acc r => (acc + abs r)%float) (RQFit.Residuals fit)
                      0%float in
          let den :=
            fold_left (fun acc i =>
                         (acc + abs (nth i (RQFit.Fitted fit) 0 - med))%float)
                      (seq 0 (length (RQFit.Residuals fit))) 0%float in
          if (den =? 0)%float then 0%float else (1 - num / den)%float)
  /\ (forall y x taus m,
        Forall valid_tau taus -> RQProcess y x taus = Ok m ->
        (exists d, ComputeDiagnostics m = Ok d) /\
        ((exists fit, map_get (MultiRQFit.Fits m) 0.5%float = Some fit)
         <-> In 0.5%float taus))
  /\ (forall residuals, residuals <> [] ->
        median residuals
        = nth (length residuals / 2) (sortFloat64s residuals) 0%float /\
        has_sort_rank residuals (length residuals / 2) (median residuals) /\
        (Forall (fun v => is_nan v = false) residuals ->
         has_rank residuals (length residuals / 2) (median residuals) /\
         forall s, Permutation residuals s ->
           Sorted (fun a b => (a <=? b)%float = true) s ->
           (nth (length residuals / 2) s 0 =? median residuals)%float = true))
  /\ median [] = 0%float.
Proof.
  split; [exact ComputeDiagnostics_pseudo|]. split; [reflexivity|].
  split; [|split; [|reflexivity]].
  - intros y x taus m Hv H. split.
    + apply ComputeDiagnostics_ok. now apply (RQProcess_complete y x taus).
    + destruct (RQProcess_ok_inv _ _ _ _ H) as (fits & first & Hs & ->). simpl.
      rewrite (aggregate_keys _ _ _ _ _ Hs). split.
      * intros (tau & Hin & He).
        now rewrite <- (float_eqb_eq tau 0.5%float He eq_refl).
      * intros Hin. exists 0.5%float. split; [exact Hin|reflexivity].
  - intros residuals Hr. split; [now apply median_nonempty|].
    exact (median_rank residuals Hr).
Qed.

Lemma pseudo_r_squared_from_median_fit_witness :
  (exists m d fit,
     RQProcess readme_y readme_x [0.75; 0.25; 0.5]%float = Ok m /\
     ComputeDiagnostics m = Ok d /\
     map_get (MultiRQFit.Fits m) 0.5%float = Some fit /\
     PseudoRSquared d = pseudo_r_squared fit)
  /\
  (exists m d,
     RQProcess readme_y readme_x [0.75; 0.25]%float = Ok m /\
     ComputeDiagnostics m = Ok d /\
     map_get (MultiRQFit.Fits m) 0.5%float = None /\
     PseudoRSquared d = 0%float)
  /\
  has_rank spread_y 2 (median spread_y).
Proof.
  destruct pseudo_r_squared_from_median_fit as (Hprs & _ & Hrun & Hmed & _).
  split; [|split].
  - destruct (RQProcess readme_y readme_x [0.75; 0.25; 0.5]%float)
      as [m| |] eqn:H;
      [|vm_compute in H; discriminate H|vm_compute in H; discriminate H].
    assert (Hv : Forall valid_tau [0.75; 0.25; 0.5]%float)
      by (repeat constructor).
    destruct (Hrun _ _ _ _ Hv H) as [[d Hd] Hkey].
    destruct (proj2 Hkey) as [fit Hfit]; [simpl; auto|].
    exists m, d, fit. split; [reflexivity|]. split; [exact Hd|].
    split; [exact Hfit|]. now rewrite (Hprs m d Hd), Hfit.
  - destruct (RQProcess readme_y readme_x [0.75; 0.25]%float)
      as [m| |] eqn:H;
      [|vm_compute in H; discriminate H|vm_compute in H; discriminate H].
    assert (Hv : Forall valid_tau [0.75; 0.25]%float) by (repeat constructor).
    destruct (Hrun _ _ _ _ Hv H) as [[d Hd] Hkey].
    destruct (map_get (MultiRQFit.Fits m) 0.5%float) as [fit|] eqn:Hfit.
    + exfalso. destruct (proj1 Hkey) as [E|[E|[]]]; [eauto| |];
        vm_compute in E; discriminate E.
    + exists m, d. split; [reflexivity|]. split; [exact Hd|].
      split; [exact Hfit|]. now rewrite (Hprs m d Hd), Hfit.
  - assert (Hd : spread_y <> []) by discriminate.
    destruct (Hmed spread_y Hd) as (_ & _ & Hnum).
    apply Hnum. repeat constructor.
Defined.
(** ** Residual statistics *)

Lemma sums_split (data : list float) (s q : float) :
  fold_left (fun '(sum, sumSq) v => ((sum + v)%float, (sumSq + v * v)%float))
            data (s, q)
  = (fold_left (fun s v => (s + v)%float) data s,
     fold_left (fun s v => (s + v * v)%float) data q).
Proof.
  revert s q. induction data as [|v data IH]; intros s q; simpl; [reflexivity|].
  apply IH.
Qed.

Lemma computeStats_StdDev (data : list float) :
  data <> [] -> StdDev (computeStats data) = sqrt (variance data).
Proof.
  intros Hne. unfold computeStats, variance.
  rewrite length_nonempty by exact Hne. now rewrite sums_split.
Qed.

(** C4.  The code does not clamp the variance: [computeStats] takes the
    square root of [sum(v^2)/n - mean^2] as it comes.  For the constant
    vector [0.1, 0.1, 0.1] that difference is negative and the standard
    deviation is NaN; the same vector arises as the residuals of the fit of
    [const_y] on [zero_x], whose diagnostics then report a NaN standard
    deviation under level 0.5. *)
Theorem constant_residuals_stddev_is_nan :
  (forall data, data <> [] ->
     StdDev (computeStats data) = sqrt (variance data)) /\
  (variance const_y <? 0)%float = true /\
  is_nan (StdDev (computeStats const_y)) = true /\
  bind (RQ const_y zero_x 0.5%float) (fun fit => Ok (RQFit.Residuals fit))
  = Ok const_y /\
  match bind (RQProcess const_y zero_x [0.5%float]) ComputeDiagnostics with
  | Ok d =>
      match map_get (ResidualStats d) 0.5%float with
      | Some st => is_nan (StdDev st)
      | None => false
      end
  | _ => false
  end = true.
Proof.
  split; [exact computeStats_StdDev|].
  repeat split; vm_compute; reflexivity.
Qed.

(** ** Input validation of the single fits *)

Lemma RQ_ok_valid (y : list float) (x : list (list float)) (tau : float)
  (fit : RQFit.t) :
  RQ y x tau = Ok fit ->
  y <> [] /\ length y = length x /\ tau_rejected tau = false.
Proof.
  unfold RQ, tau_rejected.
  destruct y as [|y0 y]; [discriminate|].
  destruct x as [|x0 x]; [discriminate|].
  cbn [length Nat.eqb orb].
  destruct (Nat.eqb_spec (length y) (length x)) as [Hlen|]; [|discriminate].
  simpl. destruct ((tau <=? 0)%float || (1 <=? tau)%float); [discriminate|].
  intros _. repeat split; [discriminate|now rewrite Hlen].
Qed.

Lemma NLRQ_ok_valid (y : list float) (x : list (list float))
  (model : NonLinearModel) (beta0 : list float) (tau : float)
  (fit : NLRQFit.t) :
  NLRQ y x model beta0 tau = Ok fit ->
  y <> [] /\ length y = length x /\ tau_rejected tau = false.
Proof.
  unfold NLRQ, tau_rejected.
  destruct y as [|y0 y]; [discriminate|].
  destruct x as [|x0 x]; [discriminate|].
  cbn [length Nat.eqb orb].
  destruct (Nat.eqb_spec (length y) (length x)) as [Hlen|]; [|discriminate].
  simpl. destruct ((tau <=? 0)%float || (1 <=? tau)%float); [discriminate|].
  intros _. repeat split; [discriminate|now rewrite Hlen].
Qed.

(** X1.  [RQ] and [NLRQ] validate in a fixed order, whatever the quantile
    level: an empty response or an empty covariate matrix gives
    [EmptyInput]; otherwise unequal row counts give [DimensionMismatch];
    only then is the level looked at.  A fit that succeeds had non-empty
    inputs of equal row counts and a level the test accepts. *)
Theorem fit_validation_order :
  (forall x tau, RQ [] x tau = Err EmptyInput) /\
  (forall y tau, RQ y [] tau = Err EmptyInput) /\
  (forall y x tau, y <> [] -> x <> [] -> length y <> length x ->
     RQ y x tau = Err DimensionMismatch) /\
  (forall y x tau fit, RQ y x tau = Ok fit ->
     y <> [] /\ length y = length x /\ tau_rejected tau = false) /\
  (forall x model beta0 tau, NLRQ [] x model beta0 tau = Err EmptyInput) /\
  (forall y model beta0 tau, NLRQ y [] model beta0 tau = Err EmptyInput) /\
  (forall y x model beta0 tau, y <> [] -> x <> [] -> length y <> length x ->
     NLRQ y x model beta0 tau = Err DimensionMismatch) /\
  (forall y x model beta0 tau fit, NLRQ y x model beta0 tau = Ok fit ->
     y <> [] /\ length y = length x /\ tau_rejected tau = false).
Proof.
  split; [reflexivity|]. split.
  { intros y tau. unfold RQ. simpl. now rewrite orb_true_r. }
  split.
  { intros y x tau Hy Hx Hne. unfold RQ.
    rewrite (length_nonempty y Hy), (length_nonempty x Hx). simpl.
    now rewrite (proj2 (Nat.eqb_neq _ _) Hne). }
  split; [exact RQ_ok_valid|].
  split; [reflexivity|]. split.
  { intros y model beta0 tau. unfold NLRQ. simpl. now rewrite orb_true_r. }
  split; [|exact NLRQ_ok_valid].
  intros y x model beta0 tau Hy Hx Hne. unfold NLRQ.
  rewrite (length_nonempty y Hy), (length_nonempty x Hx). simpl.
  now rewrite (proj2 (Nat.eqb_neq _ _) Hne).
Qed.

Lemma fit_validation_order_witness :
  RQ readme_y [[1%float]] 1.5%float = Err DimensionMismatch /\
  NLRQ spread_y [[1%float]] scale_model [0.5%float] 1.5%float
  = Err DimensionMismatch /\
  (exists fit, RQ readme_y readme_x 0.5%float = Ok fit /\
     length readme_y = length readme_x /\ tau_rejected 0.5%float = false).
Proof.
  destruct fit_validation_order as (_ & _ & D1 & V1 & _ & _ & D2 & _).
  split; [|split].
  - apply D1; [discriminate|discriminate|simpl; lia].
  - apply D2; [discriminate|discriminate|simpl; lia].
  - destruct (RQ readme_y readme_x 0.5%float) as [fit| |] eqn:H;
      [|vm_compute in H; discriminate H|vm_compute in H; discriminate H].
    exists fit. split; [reflexivity|]. exact (proj2 (V1 _ _ _ _ H)).
Defined.

(** ** What a fit records *)

Lemma ip_loop_length (iters : nat) (tau : float) (model : NonLinearModel)
  (y : list float) (x : list (list float)) (n p : nat)
  (beta beta' : list float) (t : float) :
  ip_loop iters tau model y x n p beta t = Ok beta' ->
  length beta' = length beta.
Proof.
  revert beta t. induction iters as [|iters IH]; intros beta t H; simpl in H.
  - now inversion H.
  - destruct (ip_residuals model y x beta n) as [rg| |]; simpl in H;
      try discriminate.
    destruct (ip_objGrad tau (map fst rg) (map snd rg) n p) as [og| |];
      simpl in H; try discriminate.
    destruct (ip_maxGrad og p) as [mg| |]; simpl in H; try discriminate.
    destruct (mg <? tolerance)%float; [now inversion H|].
    destruct (ip_update beta og p) as [b1| |] eqn:Hu; simpl in H;
      try discriminate.
    rewrite (IH _ _ H). now apply (br_update_length beta og p).
Qed.

(** X2.  A successful fit records the level it was fit at, the number of
    responses as [N], and as [P] the width of the first covariate row
    (linear) or the length of the starting vector (non-linear); its
    coefficient vector has exactly [P] entries, and the non-linear fit
    carries the model it was given.  This holds whether or not the descent
    converged. *)
Theorem fit_records :
  (forall y x tau fit, RQ y x tau = Ok fit ->
     RQFit.Tau fit = tau /\
     RQFit.N fit = Z.of_nat (length y) /\
     RQFit.P fit = Z.of_nat (length (hd [] x)) /\
     length (RQFit.Coefficients fit) = length (hd [] x)) /\
  (forall y x model beta0 tau fit, NLRQ y x model beta0 tau = Ok fit ->
     NLRQFit.Tau fit = tau /\
     NLRQFit.N fit = Z.of_nat (length y) /\
     NLRQFit.P fit = Z.of_nat (length beta0) /\
     length (NLRQFit.Coefficients fit) = length beta0 /\
     NLRQFit.Model fit = model).
Proof.
  split.
  - intros y x tau fit H.
    destruct (RQ_ok_inv _ _ _ _ H) as (coef & fr & Hc & _ & ->). simpl.
    repeat split. unfold solveBarrodaleRoberts in Hc.
    apply br_loop_length in Hc. now rewrite Hc, length_replicate.
  - intros y x model beta0 tau fit H.
    destruct (NLRQ_ok_inv _ _ _ _ _ _ H) as (coef & fr & Hc & _ & ->). simpl.
    repeat split. unfold solveInteriorPoint in Hc.
    now apply ip_loop_length in Hc.
Qed.

Lemma fit_records_witness :
  (exists fit, RQ readme_y readme_x 0.25%float = Ok fit /\
     RQFit.Tau fit = 0.25%float /\ RQFit.P fit = 2%Z /\
     length (RQFit.Coefficients fit) = 2) /\
  (exists fit, NLRQ line_y test_x affine_model test_beta0 0.75%float = Ok fit /\
     NLRQFit.Tau fit = 0.75%float /\ NLRQFit.P fit = 2%Z /\
     length (NLRQFit.Coefficients fit) = 2).
Proof.
  split.
  - destruct (RQ readme_y readme_x 0.25%float) as [fit| |] eqn:H;
      [|vm_compute in H; discriminate H|vm_compute in H; discriminate H].
    exists fit. split; [reflexivity|].
    destruct (proj1 fit_records _ _ _ _ H) as (HT & _ & HP & HC).
    split; [exact HT|]. split; [exact HP|exact HC].
  - destruct (NLRQ line_y test_x affine_model test_beta0 0.75%float)
      as [fit| |] eqn:H;
      [|vm_compute in H; discriminate H|vm_compute in H; discriminate H].
    exists fit. split; [reflexivity|].
    destruct (proj2 fit_records _ _ _ _ _ _ H) as (HT & _ & HP & HC & _).
    split; [exact HT|]. split; [exact HP|exact HC].
Defined.
(** ** Predicting at the training rows *)

Lemma bind_ok_inv {A B : Type} (m : result A) (k : A -> result B) (b : B) :
  bind m k = Ok b -> exists a, m = Ok a /\ k a = Ok b.
Proof. destruct m as [a| |]; simpl; try discriminate. now exists a. Qed.

Lemma map_nth_seq {A B : Type} (f : A -> B) (l : list A) (d : A) :
  map (fun i => f (nth i l d)) (seq 0 (length l)) = map f l.
Proof.
  induction l as [|a l IH]; [reflexivity|].
  cbn [length seq map nth]. f_equal.
  rewrite <- seq_shift, map_map. exact IH.
Qed.

(** X3.  Predicting at the rows a fit was trained on gives back exactly the
    fitted values the fit stores, in the linear and in the non-linear
    case. *)
Theorem predict_training_rows_is_fitted :
  (forall y x tau fit, RQ y x tau = Ok fit ->
     RQFit_Predict fit x = Ok (RQFit.Fitted fit)) /\
  (forall y x model beta0 tau fit, NLRQ y x model beta0 tau = Ok fit ->
     NLRQFit_Predict fit x = Ok (NLRQFit.Fitted fit)).
Proof.
  split.
  - intros y x tau fit H.
    destruct (RQ_ok_valid _ _ _ _ H) as (Hy & Hlen & _).
    destruct (RQ_ok_inv _ _ _ _ H) as (coef & fr & _ & Hfr & ->).
    unfold RQFit_Predict. cbn [RQFit.P RQFit.Coefficients RQFit.Fitted].
    rewrite <- Hlen, (length_nonempty y Hy), Z.eqb_refl, Nat2Z.id.
    cbn [negb]. unfold rq_fitted_residuals in Hfr.
    rewrite fill_mapM in Hfr. rewrite fill_mapM.
    pose proof (mapM_length _ _ _ Hfr) as Hn. rewrite length_seq in Hn.
    rewrite (mapM_seq_ok _ (fun i => fst (nth i fr (0%float, 0%float)))).
    + rewrite <- Hn. now rewrite (map_nth_seq fst fr).
    + intros i [_ Hi]. simpl in Hi.
      pose proof (mapM_nth _ _ _ _ (0%float, 0%float) i Hfr Hi) as Hi'.
      cbn [Nat.add] in Hi'.
      apply bind_ok_inv in Hi' as (fitted & Hdot & Hi').
      apply bind_ok_inv in Hi' as (yi & _ & Hi').
      inversion Hi' as [Heq]. rewrite Hdot. reflexivity.
  - intros y x model beta0 tau fit H.
    destruct (NLRQ_ok_valid _ _ _ _ _ _ H) as (Hy & Hlen & _).
    destruct (NLRQ_ok_inv _ _ _ _ _ _ H) as (coef & fr & _ & Hfr & ->).
    assert (Hx : x <> []) by (intros ->; destruct y; [congruence|discriminate]).
    rewrite (NLRQFit_Predict_closed _ _ Hx).
    cbn [NLRQFit.Model NLRQFit.Coefficients NLRQFit.Fitted].
    destruct (nlrq_fitted_residuals_spec _ _ _ _ _ _ Hfr) as (Hn & Hv).
    f_equal. rewrite <- Hlen, <- Hn, <- (map_nth_seq fst fr (0%float, 0%float)).
    apply map_ext_in. intros i Hi. apply in_seq in Hi.
    symmetry. apply Hv. lia.
Qed.

Lemma predict_training_rows_is_fitted_witness :
  (exists fit, RQ readme_y readme_x 0.5%float = Ok fit /\
     RQFit_Predict fit readme_x = Ok (RQFit.Fitted fit)) /\
  (exists fit, NLRQ line_y test_x affine_model test_beta0 0.5%float = Ok fit /\
     NLRQFit_Predict fit test_x = Ok (NLRQFit.Fitted fit)).
Proof.
  split.
  - destruct (RQ readme_y readme_x 0.5%float) as [fit| |] eqn:H;
      [|vm_compute in H; discriminate H|vm_compute in H; discriminate H].
    exists fit. split; [reflexivity|].
    exact (proj1 predict_training_rows_is_fitted _ _ _ _ H).
  - destruct (NLRQ line_y test_x affine_model test_beta0 0.5%float)
      as [fit| |] eqn:H;
      [|vm_compute in H; discriminate H|vm_compute in H; discriminate H].
    exists fit. split; [reflexivity|].
    exact (proj2 predict_training_rows_is_fitted _ _ _ _ _ _ H).
Defined.
(** ** Entries beyond the first row's width *)

Lemma for_from_ext {S : Type} (k lo : nat) (body body' : nat -> S -> result S)
  (s : S) :
  (forall i s0, lo <= i < lo + k -> body i s0 = body' i s0) ->
  for_from lo k body s = for_from lo k body' s.
Proof.
  revert lo s. induction k as [|k IH]; intros lo s H; [reflexivity|].
  cbn [for_from]. rewrite (H lo s) by lia.
  destruct (body' lo s) as [s'| |]; cbn [bind]; try reflexivity.
  apply IH. intros i s0 Hi. apply H. lia.
Qed.

Lemma for_loop_ext {S : Type} (n : nat) (body body' : nat -> S -> result S)
  (s : S) :
  (forall i s0, i < n -> body i s0 = body' i s0) ->
  for_loop n body s = for_loop n body' s.
Proof. intros H. apply for_from_ext. intros i s0 Hi. apply H. lia. Qed.

Lemma fill_ext {A : Type} (n : nat) (zero : A) (f g : nat -> result A) :
  (forall i, i < n -> f i = g i) -> fill n zero f = fill n zero g.
Proof.
  intros H. apply for_loop_ext. intros i a Hi. now rewrite (H i Hi).
Qed.

Lemma row_read_take {B : Type} (x : list (list float)) (p i j : nat)
  (k : float -> result B) :
  j < p ->
  bind (idx (map (take p) x) i) (fun row => bind (idx row j) k)
  = bind (idx x i) (fun row => bind (idx row j) k).
Proof.
  intros Hj. unfold idx.
  change (map (take p) x) with (take p <$> x).
  rewrite list_lookup_fmap.
  destruct (x !! i) as [row|]; [|reflexivity]. simpl.
  now rewrite lookup_take_lt.
Qed.

Lemma hd_map_take (x : list (list float)) :
  hd [] (map (take (length (hd [] x))) x) = hd [] x.
Proof. destruct x as [|x0 x]; [reflexivity|]. cbn [map hd]. apply firstn_all. Qed.

(** X4.  [RQFit.Predict] reads, of every row it is given, only the entries
    below the width of the first row: cutting every row down to that width
    changes nothing of its result, whether that is a value, an error or a
    panic.  What a wider later row holds beyond that width is never looked
    at. *)
Theorem entries_beyond_first_width_are_ignored (fit : RQFit.t)
  (newX : list (list float)) :
  RQFit_Predict fit (map (take (length (hd [] newX))) newX)
  = RQFit_Predict fit newX.
Proof.
  unfold RQFit_Predict.
  rewrite hd_map_take, length_map.
  destruct (length newX =? 0); [reflexivity|].
  destruct (Z.eqb_spec (Z.of_nat (length (hd [] newX))) (RQFit.P fit))
    as [HP|]; [|reflexivity].
  cbn [negb]. rewrite <- HP, Nat2Z.id.
  apply fill_ext. intros i _.
  apply for_loop_ext. intros j pred Hj.
  exact (row_read_take newX _ i j _ Hj).
Qed.

(** ** Failures of the orchestration *)

Lemma sorted_cons_nonempty (taus : list float) (tau0 : float)
  (rest : list float) :
  sortFloat64s taus = tau0 :: rest -> (length taus =? 0) = false.
Proof.
  intros H. rewrite <- (sortFloat64s_length taus), H. reflexivity.
Qed.

(** X5.  [RQProcess] and [NLRQProcess] answer an empty request of levels
    with [EmptyTauSet], whatever the data.  When every requested level is
    accepted, the fits run in ascending order of level and the first one
    decides: if the fit of the smallest level fails, the orchestration
    returns that error wrapped together with that level, and if it panics
    the orchestration panics.  In particular empty data and unequal row
    counts, which the orchestration does not check itself, come back as
    [FitFailed] of the smallest level. *)
Theorem process_failures :
  (forall y x, RQProcess y x [] = Err EmptyTauSet) /\
  (forall y x model beta0, NLRQProcess y x model beta0 [] = Err EmptyTauSet) /\
  (forall y x taus tau0 rest,
     Forall (fun tau => tau_rejected tau = false) taus ->
     sortFloat64s taus = tau0 :: rest ->
     (forall e, RQ y x tau0 = Err e ->
        RQProcess y x taus = Err (FitFailed tau0 e)) /\
     (RQ y x tau0 = Panic -> RQProcess y x taus = Panic) /\
     (y = [] \/ x = [] ->
        RQProcess y x taus = Err (FitFailed tau0 EmptyInput)) /\
     (y <> [] -> x <> [] -> length y <> length x ->
        RQProcess y x taus = Err (FitFailed tau0 DimensionMismatch))) /\
  (forall y x model beta0 taus tau0 rest,
     Forall (fun tau => tau_rejected tau = false) taus ->
     sortFloat64s taus = tau0 :: rest ->
     (forall e, NLRQ y x model beta0 tau0 = Err e ->
        NLRQProcess y x model beta0 taus = Err (FitFailed tau0 e)) /\
     (NLRQ y x model beta0 tau0 = Panic ->
        NLRQProcess y x model beta0 taus = Panic) /\
     (y = [] \/ x = [] ->
        NLRQProcess y x model beta0 taus = Err (FitFailed tau0 EmptyInput)) /\
     (y <> [] -> x <> [] -> length y <> length x ->
        NLRQProcess y x model beta0 taus
        = Err (FitFailed tau0 DimensionMismatch))).
Proof.
  split; [reflexivity|]. split; [reflexivity|]. split.
  - intros y x taus tau0 rest Hacc Hs.
    assert (HE : forall e, RQ y x tau0 = Err e ->
                 RQProcess y x taus = Err (FitFailed tau0 e)).
    { intros e He. unfold RQProcess.
      rewrite (sorted_cons_nonempty _ _ _ Hs), (check_taus_accepts _ Hacc), Hs.
      unfold range_loop. cbn [bind range_from]. now rewrite He. }
    split; [exact HE|]. split; [|split].
    + intros Hp. unfold RQProcess.
      rewrite (sorted_cons_nonempty _ _ _ Hs), (check_taus_accepts _ Hacc), Hs.
      unfold range_loop. cbn [bind range_from]. now rewrite Hp.
    + intros Hyx. apply HE. unfold RQ.
      destruct Hyx as [-> | ->]; [reflexivity|].
      cbn [length Nat.eqb]. now rewrite orb_true_r.
    + intros Hy Hx Hne. apply HE. unfold RQ.
      rewrite (length_nonempty y Hy), (length_nonempty x Hx). cbn [orb].
      now rewrite (proj2 (Nat.eqb_neq _ _) Hne).
  - intros y x model beta0 taus tau0 rest Hacc Hs.
    assert (HE : forall e, NLRQ y x model beta0 tau0 = Err e ->
                 NLRQProcess y x model beta0 taus = Err (FitFailed tau0 e)).
    { intros e He. unfold NLRQProcess.
      rewrite (sorted_cons_nonempty _ _ _ Hs), (check_taus_accepts _ Hacc), Hs.
      unfold range_loop. cbn [bind range_from]. now rewrite He. }
    split; [exact HE|]. split; [|split].
    + intros Hp. unfold NLRQProcess.
      rewrite (sorted_cons_nonempty _ _ _ Hs), (check_taus_accepts _ Hacc), Hs.
      unfold range_loop. cbn [bind range_from]. now rewrite Hp.
    + intros Hyx. apply HE. unfold NLRQ.
      destruct Hyx as [-> | ->]; [reflexivity|].
      cbn [length Nat.eqb]. now rewrite orb_true_r.
    + intros Hy Hx Hne. apply HE. unfold NLRQ.
      rewrite (length_nonempty y Hy), (length_nonempty x Hx). cbn [orb].
      now rewrite (proj2 (Nat.eqb_neq _ _) Hne).
Qed.

Lemma process_failures_witness :
  RQProcess [] readme_x [0.75%float; 0.25%float]
  = Err (FitFailed 0.25%float EmptyInput) /\
  RQProcess readme_y [[1%float]] [0.75%float; 0.25%float]
  = Err (FitFailed 0.25%float DimensionMismatch) /\
  RQProcess ragged_y ragged_x [0.5%float] = Panic /\
  NLRQProcess line_y [] affine_model test_beta0 [0.75%float; 0.25%float]
  = Err (FitFailed 0.25%float EmptyInput).
Proof.
  destruct process_failures as (_ & _ & HL & HN).
  assert (Hacc : Forall (fun tau => tau_rejected tau = false)
                   [0.75%float; 0.25%float])
    by (repeat constructor).
  assert (Hs : sortFloat64s [0.75%float; 0.25%float]
               = [0.25%float; 0.75%float]) by reflexivity.
  split; [|split; [|split]].
  - apply (HL [] readme_x _ _ _ Hacc Hs). now left.
  - apply (HL readme_y [[1%float]] _ _ _ Hacc Hs);
      [discriminate|discriminate|simpl; lia].
  - apply (HL ragged_y ragged_x [0.5%float] 0.5%float []);
      [repeat constructor|reflexivity|vm_compute; reflexivity].
  - apply (HN line_y [] affine_model test_beta0 _ _ _ Hacc Hs). now right.
Defined.
(** ** Prediction over an aggregate *)

Section PredictLoop.
Variables (Fit : Type) (fits : fmap Fit).
Variable predict : option Fit -> result (list float).

Let body := fun (_ : nat) (tau : float) (predictions : fmap (list float)) =>
  match predict (map_get fits tau) with
  | Err e => Err (PredictionFailed tau e)
  | Panic => Panic
  | Ok pred => Ok (map_set predictions tau pred)
  end.

Lemma predict_loop_ok (l : list float) (i : nat)
  (predictions : fmap (list float)) :
  (forall tau, In tau l -> exists pred, predict (map_get fits tau) = Ok pred) ->
  exists predictions', range_from i l body predictions = Ok predictions'.
Proof.
  revert i predictions.
  induction l as [|tau l IH]; intros i predictions H; simpl.
  - eauto.
  - destruct (H tau (or_introl eq_refl)) as [pred Hpred].
    unfold body at 1. rewrite Hpred. cbn [bind].
    apply IH. intros tau' Hin. apply H. now right.
Qed.

Lemma predict_loop_inv (l : list float) (i : nat)
  (predictions predictions' : fmap (list float)) :
  range_from i l body predictions = Ok predictions' ->
  (forall k pred, map_get predictions' k = Some pred ->
     map_get predictions k = Some pred \/
     exists tau, In tau l /\ (tau =? k)%float = true /\
                 predict (map_get fits tau) = Ok pred)
  /\ (forall k,
        (exists pred, map_get predictions k = Some pred) \/
        (exists tau, In tau l /\ (tau =? k)%float = true) ->
        exists pred, map_get predictions' k = Some pred)
  /\ (forall tau, In tau l ->
        exists pred, predict (map_get fits tau) = Ok pred).
Proof.
  revert i predictions.
  induction l as [|tau l IH]; intros i predictions H; simpl in H.
  - inversion H; subst. repeat split.
    + intros k pred Hk. now left.
    + intros k [Hk|(tau & [] & _)]. exact Hk.
    + intros tau [].
  - unfold body at 1 in H.
    destruct (predict (map_get fits tau)) as [pred| |] eqn:Hpred;
      cbn [bind] in H; try discriminate.
    destruct (IH _ _ H) as (K1 & K2 & K3). repeat split.
    + intros k p Hk. destruct (K1 k p Hk) as [Hm|(tau' & Hin & He & Hf)].
      * rewrite map_get_set in Hm. destruct (tau =? k)%float eqn:Hk'.
        -- right. exists tau. repeat split; [now left|exact Hk'|].
           inversion Hm; subst. exact Hpred.
        -- now left.
      * right. exists tau'. repeat split; [now right|exact He|exact Hf].
    + intros k Hk. apply K2. rewrite map_get_set.
      destruct (tau =? k)%float eqn:Hk'; [left; eauto|].
      destruct Hk as [Hk|(tau' & [<-|Hin] & He)].
      * now left.
      * congruence.
      * right. eauto.
    + intros tau' [<-|Hin]; [eauto|now apply K3].
Qed.

Lemma predict_loop_first (tau0 : float) (l : list float)
  (predictions : fmap (list float)) :
  (forall e, predict (map_get fits tau0) = Err e ->
     range_loop (tau0 :: l) body predictions = Err (PredictionFailed tau0 e)) /\
  (predict (map_get fits tau0) = Panic ->
     range_loop (tau0 :: l) body predictions = Panic).
Proof.
  unfold range_loop. cbn [range_from]. unfold body at 1 3.
  split; [intros e H|intros H]; now rewrite H.
Qed.

End PredictLoop.

Lemma map_get_eqb {V : Type} (m : fmap V) (k k' : float) :
  (k =? k')%float = true -> map_get m k = map_get m k'.
Proof.
  intros Hk. induction m as [|[k0 v] m IH]; [reflexivity|]. cbn [map_get].
  rewrite (proj2 (float_eqb_subst k k' k0 Hk)). now rewrite IH.
Qed.

(** The loop stops at the first level whose prediction does not return. *)
Lemma predict_loop_stops {Fit : Type} (fits : fmap Fit)
  (predict : option Fit -> result (list float))
  (pre : list float) (tau : float) (post : list float) (i : nat)
  (predictions : fmap (list float)) :
  (forall t, In t pre -> exists pred, predict (map_get fits t) = Ok pred) ->
  (forall e, predict (map_get fits tau) = Err e ->
     range_from i (pre ++ tau :: post)
       (fun (_ : nat) (tau : float) (predictions : fmap (list float)) =>
          match predict (map_get fits tau) with
          | Err e => Err (PredictionFailed tau e)
          | Panic => Panic
          | Ok pred => Ok (map_set predictions tau pred)
          end) predictions
     = Err (PredictionFailed tau e)) /\
  (predict (map_get fits tau) = Panic ->
     range_from i (pre ++ tau :: post)
       (fun (_ : nat) (tau : float) (predictions : fmap (list float)) =>
          match predict (map_get fits tau) with
          | Err e => Err (PredictionFailed tau e)
          | Panic => Panic
          | Ok pred => Ok (map_set predictions tau pred)
          end) predictions
     = Panic).
Proof.
  revert i predictions. induction pre as [|t pre IH]; intros i predictions Hpre.
  - cbn [app range_from]. split; [intros e H|intros H]; now rewrite H.
  - cbn [app range_from].
    destruct (Hpre t (or_introl eq_refl)) as [pred ->]. cbn [bind].
    apply IH. intros t' Hin. apply Hpre. now right.
Qed.

(** X6.  [MultiRQFit.Predict] asks the fit stored under each level of
    [Taus], in order, and the first level whose prediction does not return
    decides: its error is returned wrapped together with that level, its
    panic is a panic of the call, and a level without a stored fit makes the
    call panic on rows that are not empty.  Empty rows are answered with
    [EmptyInput] wrapped with the first level, stored fit or not, and an
    aggregate without levels predicts the empty map, even from empty rows.
    A map that is returned has an entry exactly under the levels of [Taus],
    each the prediction of the fit stored under its key; and the call
    returns whenever every level has a fit whose own prediction returns. *)
Theorem multi_predict_linear :
  (forall m newX, MultiRQFit.Taus m = [] -> MultiRQFit_Predict m newX = Ok []) /\
  (forall m tau0 rest, MultiRQFit.Taus m = tau0 :: rest ->
     MultiRQFit_Predict m [] = Err (PredictionFailed tau0 EmptyInput)) /\
  (forall m newX pre tau post,
     MultiRQFit.Taus m = pre ++ tau :: post ->
     (forall t, In t pre ->
        exists fit pred, map_get (MultiRQFit.Fits m) t = Some fit /\
                         RQFit_Predict fit newX = Ok pred) ->
     (forall fit e, map_get (MultiRQFit.Fits m) tau = Some fit ->
        RQFit_Predict fit newX = Err e ->
        MultiRQFit_Predict m newX = Err (PredictionFailed tau e)) /\
     (forall fit, map_get (MultiRQFit.Fits m) tau = Some fit ->
        RQFit_Predict fit newX = Panic ->
        MultiRQFit_Predict m newX = Panic) /\
     (map_get (MultiRQFit.Fits m) tau = None -> newX <> [] ->
      MultiRQFit_Predict m newX = Panic)) /\
  (forall m newX predictions, MultiRQFit_Predict m newX = Ok predictions ->
     (forall k, (exists pred, map_get predictions k = Some pred) <->
                (exists tau, In tau (MultiRQFit.Taus m) /\
                             (tau =? k)%float = true)) /\
     (forall k pred, map_get predictions k = Some pred ->
        exists fit, map_get (MultiRQFit.Fits m) k = Some fit /\
                    RQFit_Predict fit newX = Ok pred)) /\
  (forall m newX,
     (forall tau, In tau (MultiRQFit.Taus m) ->
        exists fit pred, map_get (MultiRQFit.Fits m) tau = Some fit /\
                         RQFit_Predict fit newX = Ok pred) ->
     exists predictions, MultiRQFit_Predict m newX = Ok predictions).
Proof.
  split; [|split; [|split; [|split]]].
  - intros m newX H. unfold MultiRQFit_Predict. now rewrite H.
  - intros m tau0 rest H. unfold MultiRQFit_Predict. rewrite H.
    apply (predict_loop_first _ (MultiRQFit.Fits m)
             (fun fit => RQFit_Predict_ptr fit [])).
    now destruct (map_get (MultiRQFit.Fits m) tau0).
  - intros m newX pre tau post H Hpre.
    destruct (predict_loop_stops (MultiRQFit.Fits m)
                (fun fit => RQFit_Predict_ptr fit newX) pre tau post 0 [])
      as [HE HP].
    { intros t Hin. destruct (Hpre t Hin) as (fit & pred & Hf & Hp).
      exists pred. now rewrite Hf. }
    unfold MultiRQFit_Predict, range_loop. rewrite H.
    split; [|split].
    + intros fit e Hfit He. apply HE. now rewrite Hfit.
    + intros fit Hfit Hp. apply HP. now rewrite Hfit.
    + intros Hnone Hx. apply HP. rewrite Hnone. cbn [RQFit_Predict_ptr].
      now rewrite (length_nonempty _ Hx).
  - intros m newX predictions H.
    destruct (predict_loop_inv _ (MultiRQFit.Fits m)
                (fun fit => RQFit_Predict_ptr fit newX) _ _ _ _ H)
      as (K1 & K2 & _).
    split.
    + intros k. split.
      * intros [pred Hk]. destruct (K1 k pred Hk) as [Hm|(tau & Hin & He & _)];
          [discriminate|eauto].
      * intros Hk. apply K2. now right.
    + intros k pred Hk.
      destruct (K1 k pred Hk) as [Hm|(tau & Hin & He & Hp)]; [discriminate|].
      rewrite (map_get_eqb _ _ _ He) in Hp.
      destruct (map_get (MultiRQFit.Fits m) k) as [fit|]; [eauto|].
      cbn [RQFit_Predict_ptr] in Hp. now destruct (length newX =? 0).
  - intros m newX H. unfold MultiRQFit_Predict.
    apply (predict_loop_ok _ (MultiRQFit.Fits m)
             (fun fit => RQFit_Predict_ptr fit newX)).
    intros tau Hin. destruct (H tau Hin) as (fit & pred & Hf & Hp).
    exists pred. now rewrite Hf.
Qed.

Lemma multi_predict_linear_witness :
  MultiRQFit_Predict doubling_aggregate []
  = Err (PredictionFailed 0.5%float EmptyInput) /\
  MultiRQFit_Predict doubling_aggregate [[1%float; 2%float]]
  = Err (PredictionFailed 0.5%float DimensionMismatch) /\
  MultiRQFit_Predict mixed_aggregate [[1%float]]
  = Err (PredictionFailed 0.5%float DimensionMismatch) /\
  MultiRQFit_Predict halved_aggregate [[1%float]] = Panic /\
  MultiRQFit_Predict orphan_aggregate [[1%float]] = Panic /\
  (exists predictions,
     MultiRQFit_Predict doubling_aggregate [[1%float]; [3%float]]
     = Ok predictions /\
     exists fit, map_get (MultiRQFit.Fits doubling_aggregate) 0.5%float
                 = Some fit /\
       exists pred, map_get predictions 0.5%float = Some pred /\
                    RQFit_Predict fit [[1%float]; [3%float]] = Ok pred).
Proof.
  destruct multi_predict_linear as (_ & HE & HS & HV & HT).
  assert (Hq : forall t, In t [0.25%float] ->
            exists fit pred,
              map_get [(0.25%float, quarter_fit)] t = Some fit /\
              RQFit_Predict fit [[1%float]] = Ok pred).
  { intros t [<-|[]]. exists quarter_fit. eexists.
    split; [reflexivity|vm_compute; reflexivity]. }
  split; [|split; [|split; [|split; [|split]]]].
  - exact (HE doubling_aggregate 0.5%float [] eq_refl).
  - destruct (HS doubling_aggregate [[1%float; 2%float]] [] 0.5%float []
                eq_refl) as (HErr & _); [intros t []|].
    exact (HErr doubling_fit DimensionMismatch eq_refl eq_refl).
  - destruct (HS mixed_aggregate [[1%float]] [0.25%float] 0.5%float []
                eq_refl) as (HErr & _).
    { intros t [<-|[]]. exists quarter_fit. eexists.
      split; [reflexivity|vm_compute; reflexivity]. }
    exact (HErr pair_fit DimensionMismatch eq_refl eq_refl).
  - destruct (HS halved_aggregate [[1%float]] [0.25%float] 0.5%float []
                eq_refl) as (_ & _ & HPanic); [exact Hq|].
    apply HPanic; [reflexivity|discriminate].
  - destruct (HS orphan_aggregate [[1%float]] [] 0.5%float [] eq_refl)
      as (_ & _ & HPanic); [intros t []|].
    apply HPanic; [reflexivity|discriminate].
  - destruct (HT doubling_aggregate [[1%float]; [3%float]]) as [preds Hp].
    { intros tau [<-|[]]. exists doubling_fit. eexists.
      split; [reflexivity|vm_compute; reflexivity]. }
    exists preds. split; [exact Hp|].
    destruct (HV _ _ _ Hp) as (HK & HVal).
    destruct (proj2 (HK 0.5%float)) as [pred Hpred].
    { exists 0.5%float. split; [now left|reflexivity]. }
    destruct (HVal _ _ Hpred) as (fit & Hfit & Hok).
    exists fit. split; [exact Hfit|]. exists pred. now split.
Defined.

Section PredictLoopPanic.
Variables (Fit : Type) (fits : fmap Fit).
Variable predict : option Fit -> result (list float).

Lemma predict_loop_panic (l : list float) (i : nat)
  (predictions : fmap (list float)) (tau : float) :
  (forall tau', In tau' l -> no_err (predict (map_get fits tau'))) ->
  In tau l -> predict (map_get fits tau) = Panic ->
  range_from i l (fun (_ : nat) (tau : float) (predictions : fmap (list float)) =>
    match predict (map_get fits tau) with
    | Err e => Err (PredictionFailed tau e)
    | Panic => Panic
    | Ok pred => Ok (map_set predictions tau pred)
    end) predictions = Panic.
Proof.
  revert i predictions.
  induction l as [|tau0 l IH]; intros i predictions Hne Hin Hp; [destruct Hin|].
  cbn [range_from].
  destruct (predict (map_get fits tau0)) as [pred|e|] eqn:H0; cbn [bind].
  - destruct Hin as [->|Hin]; [congruence|].
    apply IH; [|exact Hin|exact Hp]. intros tau' H'. apply Hne. now right.
  - exfalso. exact (Hne tau0 (or_introl eq_refl) e H0).
  - reflexivity.
Qed.

End PredictLoopPanic.

Lemma NLRQFit_Predict_rows (fit : NLRQFit.t) (newX : list (list float)) :
  newX <> [] ->
  NLRQFit_Predict fit newX
  = Ok (map (F (NLRQFit.Model fit) (NLRQFit.Coefficients fit)) newX).
Proof.
  intros Hx. rewrite (NLRQFit_Predict_closed fit newX Hx).
  now rewrite (map_nth_seq (F (NLRQFit.Model fit) (NLRQFit.Coefficients fit))).
Qed.

(** X7.  [MultiNLRQFit.Predict] answers empty rows with the error of its
    first level, wrapped together with that level, and an aggregate without
    levels with the empty map.  On rows that are not empty nothing is
    checked: the call returns exactly when every level of [Taus] has a stored
    fit and panics as soon as one has none.  The map returned has an entry
    exactly under the levels of [Taus], and each entry is the model of the
    fit stored under its key, the aggregate's own [Model] being unused,
    applied with that fit's coefficients to every row. *)
Theorem multi_predict_nonlinear :
  (forall m newX, MultiNLRQFit.Taus m = [] ->
     MultiNLRQFit_Predict m newX = Ok []) /\
  (forall m tau0 rest, MultiNLRQFit.Taus m = tau0 :: rest ->
     MultiNLRQFit_Predict m [] = Err (PredictionFailed tau0 EmptyInput)) /\
  (forall m newX tau, newX <> [] -> In tau (MultiNLRQFit.Taus m) ->
     map_get (MultiNLRQFit.Fits m) tau = None ->
     MultiNLRQFit_Predict m newX = Panic) /\
  (forall m newX, newX <> [] ->
     (forall tau, In tau (MultiNLRQFit.Taus m) ->
        exists fit, map_get (MultiNLRQFit.Fits m) tau = Some fit) ->
     exists predictions, MultiNLRQFit_Predict m newX = Ok predictions /\
       (forall k, (exists pred, map_get predictions k = Some pred) <->
                  (exists tau, In tau (MultiNLRQFit.Taus m) /\
                               (tau =? k)%float = true)) /\
       (forall k pred, map_get predictions k = Some pred ->
          exists fit, map_get (MultiNLRQFit.Fits m) k = Some fit /\
            pred = map (F (NLRQFit.Model fit) (NLRQFit.Coefficients fit))
                       newX)).
Proof.
  split; [|split; [|split]].
  - intros m newX H. unfold MultiNLRQFit_Predict. now rewrite H.
  - intros m tau0 rest H. unfold MultiNLRQFit_Predict. rewrite H.
    apply (predict_loop_first _ (MultiNLRQFit.Fits m)
             (fun fit => NLRQFit_Predict_ptr fit [])).
    now destruct (map_get (MultiNLRQFit.Fits m) tau0).
  - intros m newX tau Hx Hin Hnone. unfold MultiNLRQFit_Predict, range_loop.
    apply (predict_loop_panic _ (MultiNLRQFit.Fits m)
             (fun fit => NLRQFit_Predict_ptr fit newX) _ _ _ tau).
    + intros tau' _ e.
      destruct (map_get (MultiNLRQFit.Fits m) tau') as [fit|];
        cbn [NLRQFit_Predict_ptr].
      * now rewrite (NLRQFit_Predict_rows fit newX Hx).
      * now rewrite (length_nonempty _ Hx).
    + exact Hin.
    + rewrite Hnone. cbn [NLRQFit_Predict_ptr].
      now rewrite (length_nonempty _ Hx).
  - intros m newX Hx Hall.
    destruct (predict_loop_ok _ (MultiNLRQFit.Fits m)
                (fun fit => NLRQFit_Predict_ptr fit newX)
                (MultiNLRQFit.Taus m) 0 []) as [preds Hp].
    { intros tau Hin. destruct (Hall tau Hin) as [fit ->].
      cbn [NLRQFit_Predict_ptr]. rewrite (NLRQFit_Predict_rows fit newX Hx).
      eauto. }
    exists preds. split; [exact Hp|].
    destruct (predict_loop_inv _ (MultiNLRQFit.Fits m)
                (fun fit => NLRQFit_Predict_ptr fit newX) _ _ _ _ Hp)
      as (K1 & K2 & _).
    split.
    + intros k. split.
      * intros [pred Hk]. destruct (K1 k pred Hk) as [Hm|(tau & Hin & He & _)];
          [discriminate|eauto].
      * intros Hk. apply K2. now right.
    + intros k pred Hk.
      destruct (K1 k pred Hk) as [Hm|(tau & Hin & He & Hpr)]; [discriminate|].
      rewrite (map_get_eqb _ _ _ He) in Hpr.
      destruct (map_get (MultiNLRQFit.Fits m) k) as [fit|];
        cbn [NLRQFit_Predict_ptr] in Hpr.
      * exists fit. split; [reflexivity|].
        rewrite (NLRQFit_Predict_rows fit newX Hx) in Hpr. now inversion Hpr.
      * now rewrite (length_nonempty _ Hx) in Hpr.
Qed.

Lemma multi_predict_nonlinear_witness :
  MultiNLRQFit_Predict scaling_aggregate []
  = Err (PredictionFailed 0.5%float EmptyInput) /\
  MultiNLRQFit_Predict orphan_nl_aggregate [[1%float]] = Panic /\
  (exists predictions,
     MultiNLRQFit_Predict scaling_aggregate [[1%float]; [3%float]]
     = Ok predictions /\
     exists fit pred,
       map_get (MultiNLRQFit.Fits scaling_aggregate) 0.5%float = Some fit /\
       map_get predictions 0.5%float = Some pred /\
       pred = map (F (NLRQFit.Model fit) (NLRQFit.Coefficients fit))
                  [[1%float]; [3%float]]).
Proof.
  destruct multi_predict_nonlinear as (_ & HE & HP & HT).
  split; [|split].
  - exact (HE scaling_aggregate 0.5%float [] eq_refl).
  - apply (HP orphan_nl_aggregate [[1%float]] 0.5%float);
      [discriminate|now left|reflexivity].
  - destruct (HT scaling_aggregate [[1%float]; [3%float]])
      as (preds & Hp & HK & HVal).
    { discriminate. }
    { intros tau [<-|[]]. exists scaling_fit. reflexivity. }
    exists preds. split; [exact Hp|].
    destruct (proj2 (HK 0.5%float)) as [pred Hpred].
    { exists 0.5%float. split; [now left|reflexivity]. }
    destruct (HVal _ _ Hpred) as (fit & Hfit & Hok).
    exists fit, pred. now repeat split.
Defined.
(** ** Predicting from the aggregate of a process *)

Lemma aggregate_lookup (Fit : Type) (fitf : float -> result Fit)
  (taus : list float) (fits : fmap Fit) (firstFit : option Fit) :
  range_from 0 (sortFloat64s taus)
    (fun (_ : nat) (tau : float) '(fits0, firstFit0) =>
       match fitf tau with
       | Ok fit =>
           Ok (map_set fits0 tau fit,
               match firstFit0 with
               | Some _ => firstFit0
               | None => Some fit
               end)
       | Err e => Err (FitFailed tau e)
       | Panic => Panic
       end) ([], None) = Ok (fits, firstFit) ->
  forall tau, In tau taus -> valid_tau tau ->
  exists fit, map_get fits tau = Some fit /\ fitf tau = Ok fit.
Proof.
  intros Hs tau Hin Hv.
  destruct (proj2 (aggregate_keys _ _ _ _ _ Hs tau)) as [fit Hfit].
  { exists tau. split; [exact Hin|].
    apply float_eqb_refl. now apply valid_tau_not_nan. }
  exists fit. split; [exact Hfit|].
  destruct (aggregate_values _ _ _ _ _ Hs tau fit Hfit) as (tau' & _ & He & Hf).
  rewrite (float_eqb_eq tau' tau He (valid_tau_nonzero tau Hv)) in Hf.
  exact Hf.
Qed.

(** X8.  Fitting with [RQProcess] at valid levels and then predicting with
    [MultiRQFit.Predict] from rows that are not empty, whose first row is as
    wide as the first training row and whose other rows are at least as
    wide, always returns, and under every requested level the map holds the
    prediction of the single fit [RQ] makes at that level.  The same holds
    for [NLRQProcess] and [MultiNLRQFit.Predict] from any non-empty rows,
    where the entry under a level is the model applied with the coefficients
    fitted at that level. *)
Theorem predict_after_process :
  (forall y x taus m newX,
     RQProcess y x taus = Ok m -> Forall valid_tau taus ->
     newX <> [] -> length (hd [] newX) = length (hd [] x) ->
     Forall (fun row => length (hd [] x) <= length row) newX ->
     exists predictions, MultiRQFit_Predict m newX = Ok predictions /\
       forall tau, In tau taus ->
         exists fit pred, RQ y x tau = Ok fit /\
           RQFit_Predict fit newX = Ok pred /\
           map_get predictions tau = Some pred) /\
  (forall y x model beta0 taus m newX,
     NLRQProcess y x model beta0 taus = Ok m -> Forall valid_tau taus ->
     newX <> [] ->
     exists predictions, MultiNLRQFit_Predict m newX = Ok predictions /\
       forall tau, In tau taus ->
         exists fit, NLRQ y x model beta0 tau = Ok fit /\
           map_get predictions tau
           = Some (map (F model (NLRQFit.Coefficients fit)) newX)).
Proof.
  split.
  - intros y x taus m newX H Hv Hx Hw Hrows.
    destruct (RQProcess_ok_inv _ _ _ _ H) as (fits & first & Hs & ->).
    pose proof (aggregate_lookup _ _ _ _ _ Hs) as Hlook.
    assert (Hfit : forall tau, In tau taus ->
              exists fit pred, RQ y x tau = Ok fit /\
                map_get fits tau = Some fit /\
                RQFit_Predict fit newX = Ok pred).
    { intros tau Hin.
      destruct (Hlook tau Hin (proj1 (List.Forall_forall _ _) Hv tau Hin))
        as (fit & Hget & HRQ).
      exists fit. eexists. split; [exact HRQ|]. split; [exact Hget|].
      pose proof (RQ_coefficients_length _ _ _ _ HRQ) as Hc.
      destruct (RQ_ok_inv _ _ _ _ HRQ) as (coef & fr & _ & _ & Hrec).
      assert (HP : RQFit.P fit = Z.of_nat (length (hd [] x)))
        by (rewrite Hrec; reflexivity).
      apply RQFit_Predict_closed; [exact Hx|now rewrite HP, Hw| |lia].
      rewrite HP, Nat2Z.id. exact Hrows. }
    unfold MultiRQFit_Predict. cbn [MultiRQFit.Taus MultiRQFit.Fits].
    destruct (predict_loop_ok _ fits (fun fit => RQFit_Predict_ptr fit newX)
                (sortFloat64s taus) 0 []) as [preds Hp].
    { intros tau Hin. apply (proj1 (sortFloat64s_In taus tau)) in Hin.
      destruct (Hfit tau Hin) as (fit & pred & _ & Hget & Hpred).
      exists pred. now rewrite Hget. }
    exists preds. split; [exact Hp|].
    destruct (predict_loop_inv _ fits (fun fit => RQFit_Predict_ptr fit newX)
                _ _ _ _ Hp) as (K1 & K2 & _).
    intros tau Hin.
    assert (Htt : (tau =? tau)%float = true).
    { apply float_eqb_refl, valid_tau_not_nan.
      exact (proj1 (List.Forall_forall _ _) Hv tau Hin). }
    destruct (K2 tau) as [pred Hpred].
    { right. exists tau. split; [now apply sortFloat64s_In|exact Htt]. }
    destruct (Hfit tau Hin) as (fit & pred' & HRQ & Hget & Hpred').
    exists fit, pred. split; [exact HRQ|].
    destruct (K1 tau pred Hpred) as [Hm|(tau' & _ & He & Hpr)]; [discriminate|].
    rewrite (map_get_eqb _ _ _ He), Hget in Hpr. now split.
  - intros y x model beta0 taus m newX H Hv Hx.
    destruct (NLRQProcess_ok_inv _ _ _ _ _ _ H) as (fits & first & Hs & ->).
    pose proof (aggregate_lookup _ _ _ _ _ Hs) as Hlook.
    unfold MultiNLRQFit_Predict. cbn [MultiNLRQFit.Taus MultiNLRQFit.Fits].
    destruct (predict_loop_ok _ fits (fun fit => NLRQFit_Predict_ptr fit newX)
                (sortFloat64s taus) 0 []) as [preds Hp].
    { intros tau Hin. apply (proj1 (sortFloat64s_In taus tau)) in Hin.
      destruct (Hlook tau Hin (proj1 (List.Forall_forall _ _) Hv tau Hin))
        as (fit & Hget & _).
      rewrite Hget. cbn [NLRQFit_Predict_ptr].
      rewrite (NLRQFit_Predict_rows fit newX Hx). eauto. }
    exists preds. split; [exact Hp|].
    destruct (predict_loop_inv _ fits (fun fit => NLRQFit_Predict_ptr fit newX)
                _ _ _ _ Hp) as (K1 & K2 & _).
    intros tau Hin.
    pose proof (proj1 (List.Forall_forall _ _) Hv tau Hin) as Hvt.
    destruct (K2 tau) as [pred Hpred].
    { right. exists tau. split; [now apply sortFloat64s_In|].
      now apply float_eqb_refl, valid_tau_not_nan. }
    destruct (Hlook tau Hin Hvt) as (fit & Hget & HRQ).
    exists fit. split; [exact HRQ|].
    destruct (K1 tau pred Hpred) as [Hm|(tau' & _ & He & Hpr)]; [discriminate|].
    rewrite (map_get_eqb _ _ _ He), Hget in Hpr. cbn [NLRQFit_Predict_ptr] in Hpr.
    rewrite (NLRQFit_Predict_rows fit newX Hx) in Hpr.
    destruct (NLRQ_ok_inv _ _ _ _ _ _ HRQ) as (coef & fr & _ & _ & Hrec).
    assert (HM : NLRQFit.Model fit = model) by (rewrite Hrec; reflexivity).
    rewrite HM in Hpr. rewrite Hpred. now inversion Hpr.
Qed.
Lemma predict_after_process_witness :
  (exists m predictions,
     RQProcess readme_y readme_x [0.75%float; 0.25%float] = Ok m /\
     MultiRQFit_Predict m [[1%float; 3%float]] = Ok predictions /\
     exists fit pred, RQ readme_y readme_x 0.25%float = Ok fit /\
       RQFit_Predict fit [[1%float; 3%float]] = Ok pred /\
       map_get predictions 0.25%float = Some pred) /\
  (exists m predictions,
     NLRQProcess line_y test_x affine_model test_beta0 [0.5%float] = Ok m /\
     MultiNLRQFit_Predict m test_newX = Ok predictions /\
     exists fit, NLRQ line_y test_x affine_model test_beta0 0.5%float = Ok fit /\
       map_get predictions 0.5%float
       = Some (map (F affine_model (NLRQFit.Coefficients fit)) test_newX)).
Proof.
  split.
  - destruct (RQProcess readme_y readme_x [0.75%float; 0.25%float])
      as [m| |] eqn:H;
      [|vm_compute in H; discriminate H|vm_compute in H; discriminate H].
    destruct (proj1 predict_after_process readme_y readme_x
                [0.75%float; 0.25%float] m [[1%float; 3%float]] H)
      as (preds & Hp & Hall).
    + repeat constructor.
    + discriminate.
    + reflexivity.
    + repeat constructor.
    + exists m, preds. split; [reflexivity|]. split; [exact Hp|].
      apply Hall. right. now left.
  - destruct (NLRQProcess line_y test_x affine_model test_beta0 [0.5%float])
      as [m| |] eqn:H;
      [|vm_compute in H; discriminate H|vm_compute in H; discriminate H].
    destruct (proj2 predict_after_process line_y test_x affine_model
                test_beta0 [0.5%float] m test_newX H)
      as (preds & Hp & Hall).
    + repeat constructor.
    + discriminate.
    + exists m, preds. split; [reflexivity|]. split; [exact Hp|].
      apply Hall. now left.
Defined.

(** ** When the diagnostics return, and the statistics they hold *)

Lemma pseudo_loop_ok_inv (fitted : list float) (med : float) (l : list float)
  (i : nat) (s s' : float * float) :
  i <= length fitted ->
  range_from i l (fun i res '(sumRes, sumTot) =>
    fi <- idx fitted i ;;
    Ok ((sumRes + abs res)%float, (sumTot + abs (fi - med))%float)) s = Ok s' ->
  i + length l <= length fitted.
Proof.
  revert i s. induction l as [|res l IH]; intros i [sumRes sumTot] Hi H.
  - simpl. lia.
  - cbn [range_from] in H. unfold idx at 1 in H.
    destruct (fitted !! i) as [fi|] eqn:Hfi; [|discriminate].
    cbn [bind] in H. apply lookup_lt_Some in Hfi.
    apply IH in H; [|lia]. simpl. lia.
Qed.

Lemma computePseudoRSquared_ok_inv (fit : RQFit.t) (v : float) :
  computePseudoRSquared fit = Ok v ->
  length (RQFit.Residuals fit) <= length (RQFit.Fitted fit).
Proof.
  unfold computePseudoRSquared, range_loop. cbv zeta. intros H.
  apply bind_ok_inv in H as (s & Hs & _).
  apply pseudo_loop_ok_inv in Hs; lia.
Qed.

Lemma no_err_range_from {A S : Type} (l : list A) (i : nat)
  (body : nat -> A -> S -> result S) (s : S) :
  (forall k v s0, no_err (body k v s0)) -> no_err (range_from i l body s).
Proof.
  intros H. revert i s. induction l as [|v l IH]; intros i s; cbn [range_from].
  - apply no_err_Ok.
  - apply no_err_bind; [apply H|]. intros s'. apply IH.
Qed.

Lemma no_err_mat_set (c : list (list Z)) (i j : nat) (v : Z) :
  no_err (mat_set c i j v).
Proof.
  unfold mat_set. apply no_err_bind; [apply no_err_idx|].
  intros row. destruct (j <? length row); [apply no_err_Ok|apply no_err_Panic].
Qed.

Lemma no_err_computePseudoRSquared (fit : RQFit.t) :
  no_err (computePseudoRSquared fit).
Proof.
  unfold computePseudoRSquared, range_loop. cbv zeta.
  apply no_err_bind.
  - apply no_err_range_from. intros k v [sumRes sumTot].
    apply no_err_bind; [apply no_err_idx|]. intros fi. apply no_err_Ok.
  - intros [sumRes sumTot]. destruct (sumTot =? 0)%float; apply no_err_Ok.
Qed.

Lemma no_err_ComputeDiagnostics (m : MultiRQFit.t) :
  no_err (ComputeDiagnostics m).
Proof.
  unfold ComputeDiagnostics, range_loop. cbv zeta.
  apply no_err_bind.
  - apply no_err_range_from. intros i tau1 [stats crossing].
    destruct (map_get (MultiRQFit.Fits m) tau1) as [fit1|];
      [|apply no_err_Panic].
    cbv zeta. apply no_err_bind; [|intros c; apply no_err_Ok].
    apply no_err_range_from. intros j tau2 c.
    destruct (j <=? i); [apply no_err_Ok|].
    destruct (map_get (MultiRQFit.Fits m) tau2) as [fit2|];
      [|apply no_err_Panic].
    cbv zeta. apply no_err_bind; [apply no_err_mat_set|].
    intros c'. apply no_err_mat_set.
  - intros [stats crossing].
    destruct (map_get (MultiRQFit.Fits m) 0.5%float) as [fit|];
      [|apply no_err_Ok].
    apply no_err_bind; [apply no_err_computePseudoRSquared|].
    intros r2. apply no_err_Ok.
Qed.

Section ResidualStatistics.
Variable m : MultiRQFit.t.

(** What the loop of [ComputeDiagnostics] has stored as statistics once it
    returns, and that every level it visited had a fit. *)
Lemma diagnostics_loop_stats (l : list float) (i : nat)
  (stats stats' : fmap Stats) (c c' : list (list Z)) :
  range_from i l (fun i tau1 '(stats, crossing) =>
    match map_get (MultiRQFit.Fits m) tau1 with
    | None => Panic
    | Some fit1 =>
        let st := computeStats (RQFit.Residuals fit1) in
        let stats := map_set stats tau1 st in
        bind
          (range_loop (MultiRQFit.Taus m) (fun j tau2 crossing =>
            if j <=? i then Ok crossing
            else
              match map_get (MultiRQFit.Fits m) tau2 with
              | None => Panic
              | Some fit2 =>
                  let crossings :=
                    countCrossings (RQFit.Fitted fit1) (RQFit.Fitted fit2) in
                  bind (mat_set crossing i j crossings) (fun crossing =>
                    mat_set crossing j i crossings)
              end) crossing)
          (fun crossing => Ok (stats, crossing))
    end) (stats, c) = Ok (stats', c') ->
  (forall tau, In tau l ->
     exists fit, map_get (MultiRQFit.Fits m) tau = Some fit) /\
  (forall k st, map_get stats' k = Some st ->
     map_get stats k = Some st \/
     exists tau fit, In tau l /\ (tau =? k)%float = true /\
       map_get (MultiRQFit.Fits m) tau = Some fit /\
       st = computeStats (RQFit.Residuals fit)) /\
  (forall k,
     (exists st, map_get stats k = Some st) \/
     (exists tau, In tau l /\ (tau =? k)%float = true) ->
     exists st, map_get stats' k = Some st).
Proof.
  revert i stats c. induction l as [|tau l IH]; intros i stats c H.
  - cbn [range_from] in H. inversion H; subst. repeat split.
    + intros tau [].
    + intros k st Hk. now left.
    + intros k [Hk|(tau & [] & _)]. exact Hk.
  - cbn [range_from] in H.
    destruct (map_get (MultiRQFit.Fits m) tau) as [fit1|] eqn:Hfit1;
      [|discriminate].
    cbv zeta in H.
    match type of H with
    | bind (bind ?L _) _ = _ => destruct L as [c1| |]
    end; cbn [bind] in H; try discriminate.
    destruct (IH _ _ _ H) as (K0 & K1 & K2). repeat split.
    + intros tau' [<-|Hin]; [eauto|now apply K0].
    + intros k st Hk.
      destruct (K1 k st Hk) as [Hm|(tau' & fit & Hin & He & Hf & Hst)].
      * rewrite map_get_set in Hm. destruct (tau =? k)%float eqn:Hk'.
        -- right. exists tau, fit1. repeat split; [now left|exact Hk'|exact Hfit1|].
           now inversion Hm.
        -- now left.
      * right. exists tau', fit. repeat split; [now right|exact He|exact Hf|exact Hst].
    + intros k Hk. apply K2. rewrite map_get_set.
      destruct (tau =? k)%float eqn:Hk'; [left; eauto|].
      destruct Hk as [Hk|(tau' & [<-|Hin] & He)].
      * now left.
      * congruence.
      * right. eauto.
Qed.

Lemma ComputeDiagnostics_ok_inv (d : Diagnostics) :
  ComputeDiagnostics m = Ok d ->
  exists stats c,
    range_loop (MultiRQFit.Taus m) (fun i tau1 '(stats, crossing) =>
      match map_get (MultiRQFit.Fits m) tau1 with
      | None => Panic
      | Some fit1 =>
          let st := computeStats (RQFit.Residuals fit1) in
          let stats := map_set stats tau1 st in
          bind
            (range_loop (MultiRQFit.Taus m) (fun j tau2 crossing =>
              if j <=? i then Ok crossing
              else
                match map_get (MultiRQFit.Fits m) tau2 with
                | None => Panic
                | Some fit2 =>
                    let crossings :=
                      countCrossings (RQFit.Fitted fit1) (RQFit.Fitted fit2) in
                    bind (mat_set crossing i j crossings) (fun crossing =>
                      mat_set crossing j i crossings)
                end) crossing)
            (fun crossing => Ok (stats, crossing))
      end)
      ([], replicate (length (MultiRQFit.Taus m))
             (replicate (length (MultiRQFit.Taus m)) 0%Z))
    = Ok (stats, c) /\
    ResidualStats d = stats /\
    (forall fit, map_get (MultiRQFit.Fits m) 0.5%float = Some fit ->
       length (RQFit.Residuals fit) <= length (RQFit.Fitted fit)).
Proof.
  unfold ComputeDiagnostics. cbv zeta.
  match goal with
  | |- bind ?L _ = _ -> _ => destruct L as [[stats c]| |] eqn:Hloop
  end; cbn [bind]; try discriminate.
  intros Hd. exists stats, c. split; [reflexivity|].
  destruct (map_get (MultiRQFit.Fits m) 0.5%float) as [fit|].
  - destruct (computePseudoRSquared fit) as [v| |] eqn:Hv; cbn [bind] in Hd;
      try discriminate.
    split; [now inversion Hd|]. intros fit' Hf. inversion Hf; subst fit'.
    exact (computePseudoRSquared_ok_inv _ _ Hv).
  - split; [now inversion Hd|]. intros fit' Hf. discriminate.
Qed.

End ResidualStatistics.
Lemma ComputeDiagnostics_returns (m : MultiRQFit.t) :
  (forall tau, In tau (MultiRQFit.Taus m) ->
     exists fit, map_get (MultiRQFit.Fits m) tau = Some fit) ->
  (forall fit, map_get (MultiRQFit.Fits m) 0.5%float = Some fit ->
     length (RQFit.Residuals fit) <= length (RQFit.Fitted fit)) ->
  exists d, ComputeDiagnostics m = Ok d.
Proof.
  intros Hall Hlen. unfold ComputeDiagnostics. cbv zeta.
  set (T := length (MultiRQFit.Taus m)).
  pose (sq := fun c : list (list Z) =>
          length c = T /\ forall a, a < T -> length (nth a c []) = T).
  match goal with
  | |- exists d, bind ?L _ = Ok d =>
      assert (Hloop : exists st, L = Ok st /\ sq (snd st))
  end.
  { rewrite range_loop_for.
    apply (for_loop_inv (fun _ (st : fmap Stats * list (list Z)) => sq (snd st))).
    - split; [apply length_replicate|].
      intros a Ha. now apply (zero_matrix_get m a a).
    - intros i [stats c] Hi Hsq. cbn [snd] in Hsq.
      destruct (lookup_lt_is_Some_2 _ i Hi) as [tau1 Htau1]. rewrite Htau1.
      destruct (Hall tau1) as [fit1 Hfit1].
      { apply list_elem_of_In. now apply (list_elem_of_lookup_2 _ i). }
      rewrite Hfit1. cbv zeta.
      match goal with
      | |- exists s', bind ?L _ = Ok s' /\ _ =>
          assert (Hinner : exists c', L = Ok c' /\ sq c')
      end.
      { rewrite range_loop_for.
        apply (for_loop_inv (fun _ (c : list (list Z)) => sq c));
          [exact Hsq|].
        intros j c0 Hj [Hl0 Hr0].
        destruct (lookup_lt_is_Some_2 _ j Hj) as [tau2 Htau2]. rewrite Htau2.
        destruct (j <=? i); [exists c0; split; [reflexivity|now split]|].
        destruct (Hall tau2) as [fit2 Hfit2].
        { apply list_elem_of_In. now apply (list_elem_of_lookup_2 _ j). }
        rewrite Hfit2. cbv zeta.
        destruct (mat_set_ok c0 i j
                    (countCrossings (RQFit.Fitted fit1) (RQFit.Fitted fit2)))
          as [c1 Hc1]; [fold T in Hi; lia|rewrite Hr0; fold T in Hi, Hj; lia|].
        rewrite Hc1. cbn [bind].
        destruct (mat_set_spec _ _ _ _ _ Hc1) as (L1 & R1 & _).
        destruct (mat_set_ok c1 j i
                    (countCrossings (RQFit.Fitted fit1) (RQFit.Fitted fit2)))
          as [c2 Hc2];
          [fold T in Hj; lia|rewrite R1, Hr0; fold T in Hi, Hj; lia|].
        exists c2. split; [exact Hc2|].
        destruct (mat_set_spec _ _ _ _ _ Hc2) as (L2 & R2 & _).
        split; [congruence|]. intros a Ha. rewrite R2, R1. now apply Hr0. }
      destruct Hinner as (c' & Hc' & Hsq'). rewrite Hc'. cbn [bind].
      eexists. split; [reflexivity|exact Hsq']. }
  destruct Hloop as ([stats c] & Hloop & _). rewrite Hloop. cbn [bind].
  destruct (map_get (MultiRQFit.Fits m) 0.5%float) as [fit|] eqn:Hfit;
    [|eauto].
  destruct (computePseudoRSquared_ok fit (Hlen fit eq_refl)) as [v Hv].
  rewrite Hv. cbn [bind]. eauto.
Qed.

(** X9.  [ComputeDiagnostics] never returns an error: it returns its
    diagnostics or it panics.  It returns exactly when every level of [Taus]
    has a stored fit and the fit stored under 0.5, if there is one, has at
    least as many fitted values as residuals; in every other case it
    panics. *)
Theorem diagnostics_return_or_panic (m : MultiRQFit.t) :
  ((exists d, ComputeDiagnostics m = Ok d) <->
   (forall tau, In tau (MultiRQFit.Taus m) ->
      exists fit, map_get (MultiRQFit.Fits m) tau = Some fit) /\
   (forall fit, map_get (MultiRQFit.Fits m) 0.5%float = Some fit ->
      length (RQFit.Residuals fit) <= length (RQFit.Fitted fit))) /\
  ((exists d, ComputeDiagnostics m = Ok d) \/ ComputeDiagnostics m = Panic).
Proof.
  split.
  - split.
    + intros [d Hd].
      destruct (ComputeDiagnostics_ok_inv m d Hd) as (stats & c & Hloop & _ & H5).
      split; [|exact H5].
      exact (proj1 (diagnostics_loop_stats m _ _ _ _ _ _ Hloop)).
    + intros [Hall Hlen]. now apply ComputeDiagnostics_returns.
  - pose proof (no_err_ComputeDiagnostics m) as Hne.
    destruct (ComputeDiagnostics m) as [d|e|]; [left; eauto| |now right].
    now destruct (Hne e).
Qed.

Lemma diagnostics_return_or_panic_witness :
  (exists d, ComputeDiagnostics doubling_aggregate = Ok d) /\
  ComputeDiagnostics orphan_aggregate = Panic.
Proof.
  split.
  - apply (proj2 (proj1 (diagnostics_return_or_panic doubling_aggregate))).
    split.
    + intros tau [<-|[]]. exists doubling_fit. reflexivity.
    + intros fit H. inversion H. simpl. lia.
  - destruct (diagnostics_return_or_panic orphan_aggregate) as [Hiff [Hd|Hp]];
      [|exact Hp].
    destruct (proj1 (proj1 Hiff Hd) 0.5%float (or_introl eq_refl))
      as [fit Hfit].
    discriminate Hfit.
Defined.

(** X10.  The residual statistics of returned diagnostics have an entry
    exactly under the levels of [Taus], and the entry under a key is
    [computeStats] of the residuals of the fit stored under that key. *)
Theorem diagnostics_residual_stats (m : MultiRQFit.t) (d : Diagnostics) :
  ComputeDiagnostics m = Ok d ->
  (forall k, (exists st, map_get (ResidualStats d) k = Some st) <->
             (exists tau, In tau (MultiRQFit.Taus m) /\
                          (tau =? k)%float = true)) /\
  (forall k st, map_get (ResidualStats d) k = Some st ->
     exists fit, map_get (MultiRQFit.Fits m) k = Some fit /\
                 st = computeStats (RQFit.Residuals fit)).
Proof.
  intros Hd.
  destruct (ComputeDiagnostics_ok_inv m d Hd) as (stats & c & Hloop & -> & _).
  destruct (diagnostics_loop_stats m _ _ _ _ _ _ Hloop) as (_ & K1 & K2).
  split.
  - intros k. split.
    + intros [st Hk].
      destruct (K1 k st Hk) as [Hm|(tau & fit & Hin & He & _)];
        [discriminate|eauto].
    + intros Hk. apply K2. now right.
  - intros k st Hk.
    destruct (K1 k st Hk) as [Hm|(tau & fit & Hin & He & Hf & Hst)];
      [discriminate|].
    exists fit. split; [|exact Hst].
    now rewrite <- (map_get_eqb _ _ _ He).
Qed.

Lemma diagnostics_residual_stats_witness :
  exists d, ComputeDiagnostics doubling_aggregate = Ok d /\
    exists st fit, map_get (ResidualStats d) 0.5%float = Some st /\
      map_get (MultiRQFit.Fits doubling_aggregate) 0.5%float = Some fit /\
      st = computeStats (RQFit.Residuals fit).
Proof.
  destruct (ComputeDiagnostics doubling_aggregate) as [d| |] eqn:H;
    [|vm_compute in H; discriminate H|vm_compute in H; discriminate H].
  exists d. split; [reflexivity|].
  destruct (diagnostics_residual_stats _ _ H) as (HK & HV).
  destruct (proj2 (HK 0.5%float)) as [st Hst].
  { exists 0.5%float. split; [now left|reflexivity]. }
  destruct (HV _ _ Hst) as (fit & Hfit & Heq).
  exists st, fit. now repeat split.
Defined.
(** ** A level that is not a number *)

Lemma float_eqb_nan_r (a b : float) : is_nan b = true -> (a =? b)%float = false.
Proof.
  intros Hb. apply is_nan_spec in Hb.
  rewrite FloatAxioms.eqb_spec, Hb. unfold SFeqb, SFcompare.
  now destruct (Prim2SF a) as [| | |[] ? ?].
Qed.

Lemma ltb_nan_r (a b : float) : is_nan b = true -> (a <? b)%float = false.
Proof.
  intros Hb. destruct (a <? b)%float eqn:H; [|reflexivity].
  destruct (ltb_not_nan _ _ H) as [_ Hb']. congruence.
Qed.

Lemma map_get_nan {V : Type} (m : fmap V) (k : float) :
  is_nan k = true -> map_get m k = None.
Proof.
  intros Hk. induction m as [|[k' v] m IH]; [reflexivity|]. cbn [map_get].
  now rewrite (float_eqb_nan_r k' k Hk).
Qed.

(** [sort.Float64s] puts a NaN, when there is one, in front. *)
Lemma sortFloat64s_nan_first (l : list float) :
  Exists (fun v => is_nan v = true) l ->
  exists v rest, sortFloat64s l = v :: rest /\ is_nan v = true.
Proof.
  induction l as [|x l IH]; intros H; [inversion H|].
  cbn [sortFloat64s].
  destruct (is_nan x) eqn:Hx.
  - destruct (sortFloat64s l) as [|y s]; cbn [sort_insert]; [eauto|].
    unfold float_less. rewrite (ltb_nan_r y x Hx), Hx, andb_false_r.
    cbn [orb negb]. eauto.
  - assert (Hl : Exists (fun v => is_nan v = true) l)
      by (inversion H; subst; [congruence|assumption]).
    destruct (IH Hl) as (y & s & Hs & Hy). rewrite Hs. cbn [sort_insert].
    unfold float_less. rewrite Hy, Hx. cbn [negb andb].
    rewrite orb_true_r. eauto.
Qed.

(** X11.  The level test lets NaN through, so a process can return an
    aggregate fitted with a NaN among its levels; but the fit stored under
    NaN can never be looked up again, and sorting puts that level first.
    Every use of such an aggregate therefore fails at once:
    [ComputeDiagnostics] panics, and [Predict] panics on any rows that are
    not empty, for the linear and for the non-linear aggregate. *)
Theorem nan_level_aggregate_is_unusable :
  (forall y x taus m, RQProcess y x taus = Ok m ->
     Exists (fun tau => is_nan tau = true) taus ->
     ComputeDiagnostics m = Panic /\
     forall newX, newX <> [] -> MultiRQFit_Predict m newX = Panic) /\
  (forall y x model beta0 taus m, NLRQProcess y x model beta0 taus = Ok m ->
     Exists (fun tau => is_nan tau = true) taus ->
     forall newX, newX <> [] -> MultiNLRQFit_Predict m newX = Panic).
Proof.
  split.
  - intros y x taus m H Hnan.
    destruct (RQProcess_ok_inv _ _ _ _ H) as (fits & first & _ & ->).
    destruct (sortFloat64s_nan_first taus Hnan) as (v & rest & Hs & Hv).
    split.
    + unfold ComputeDiagnostics, range_loop. cbn [MultiRQFit.Taus MultiRQFit.Fits].
      cbv zeta. rewrite Hs. cbn [range_from].
      now rewrite (map_get_nan fits v Hv).
    + intros newX Hx. unfold MultiRQFit_Predict, range_loop.
      cbn [MultiRQFit.Taus MultiRQFit.Fits]. rewrite Hs. cbn [range_from].
      rewrite (map_get_nan fits v Hv). cbn [RQFit_Predict_ptr].
      now rewrite (length_nonempty _ Hx).
  - intros y x model beta0 taus m H Hnan newX Hx.
    destruct (NLRQProcess_ok_inv _ _ _ _ _ _ H) as (fits & first & _ & ->).
    destruct (sortFloat64s_nan_first taus Hnan) as (v & rest & Hs & Hv).
    unfold MultiNLRQFit_Predict, range_loop.
    cbn [MultiNLRQFit.Taus MultiNLRQFit.Fits]. rewrite Hs. cbn [range_from].
    rewrite (map_get_nan fits v Hv). cbn [NLRQFit_Predict_ptr].
    now rewrite (length_nonempty _ Hx).
Qed.

Lemma nan_level_aggregate_is_unusable_witness :
  (exists m, RQProcess readme_y readme_x [0.5%float; nan] = Ok m /\
     ComputeDiagnostics m = Panic /\
     MultiRQFit_Predict m readme_x = Panic) /\
  (exists m,
     NLRQProcess line_y test_x affine_model test_beta0 [nan] = Ok m /\
     MultiNLRQFit_Predict m test_newX = Panic).
Proof.
  split.
  - destruct (RQProcess readme_y readme_x [0.5%float; nan]) as [m| |] eqn:H;
      [|vm_compute in H; discriminate H|vm_compute in H; discriminate H].
    exists m. split; [reflexivity|].
    destruct (proj1 nan_level_aggregate_is_unusable _ _ _ _ H) as [HD HP].
    { right. now left. }
    split; [exact HD|]. apply HP. discriminate.
  - destruct (NLRQProcess line_y test_x affine_model test_beta0 [nan])
      as [m| |] eqn:H;
      [|vm_compute in H; discriminate H|vm_compute in H; discriminate H].
    exists m. split; [reflexivity|].
    apply (proj2 nan_level_aggregate_is_unusable _ _ _ _ _ _ H).
    + now left.
    + discriminate.
Defined.
(** ** Order statistics *)

Lemma computeStats_order_fields (data : list float) :
  data <> [] ->
  Min (computeStats data) = nth 0 (sortFloat64s data) 0%float /\
  Max (computeStats data) = nth (length data - 1) (sortFloat64s data) 0%float /\
  Median (computeStats data)
  = nth (length data / 2) (sortFloat64s data) 0%float.
Proof.
  intros Hd. unfold computeStats. rewrite (length_nonempty _ Hd). cbv zeta.
  destruct (fold_left _ data (0%float, 0%float)) as [sum sumSq].
  repeat split.
Qed.

Lemma leb_refl (a : float) : is_nan a = false -> (a <=? a)%float = true.
Proof.
  intros Ha. apply not_ltb_leb; [exact Ha|exact Ha|].
  destruct (a <? a)%float eqn:H; [|reflexivity].
  pose proof (ltb_asym _ _ H). congruence.
Qed.

Lemma sorted_nth_le (l : list float) :
  Forall (fun v => is_nan v = false) l ->
  Sorted (fun a b => (a <=? b)%float = true) l ->
  forall i j, i <= j -> j < length l ->
  (nth i l 0 <=? nth j l 0)%float = true.
Proof.
  intros Hn Hs.
  apply Sorted_StronglySorted in Hs;
    [|intros a b c; apply leb_trans].
  induction Hs as [|a l Hs IH Hall]; intros i j Hij Hj; [simpl in Hj; lia|].
  inversion Hn as [|? ? Ha Hl]; subst.
  destruct j as [|j].
  - replace i with 0 by lia. cbn [nth]. now apply leb_refl.
  - destruct i as [|i].
    + cbn [nth]. apply (proj1 (List.Forall_forall _ _) Hall).
      apply nth_In. simpl in Hj. lia.
    + cbn [nth]. apply IH; [exact Hl|lia|simpl in Hj; lia].
Qed.

(** The element [sort.Float64s] leaves at index [k] has rank [k]: in the
    order of the sort always, and among numbers in their own order, where
    every ascending arrangement of the data has an equal element there. *)
Lemma sorted_position_value (data : list float) (k : nat) :
  k < length data ->
  has_sort_rank data k (nth k (sortFloat64s data) 0%float) /\
  (Forall (fun v => is_nan v = false) data ->
   has_rank data k (nth k (sortFloat64s data) 0%float) /\
   forall s, Permutation data s ->
     Sorted (fun a b => (a <=? b)%float = true) s ->
     (nth k s 0 =? nth k (sortFloat64s data) 0)%float = true).
Proof.
  intros Hk. pose proof (sorted_position_sort_rank data k Hk) as Hr.
  split; [exact Hr|]. intros Hn.
  pose proof (proj1 (sort_rank_of_numbers data _ _ Hn) Hr) as Hr'.
  split; [exact Hr'|]. intros s Hp Hs.
  apply (rank_unique data k); [exact Hn| |exact Hr'].
  now apply ascending_position_rank.
Qed.

(** X12.  For data that are not empty, [computeStats] reports as [Min],
    [Max] and [Median] the elements at index 0, [n-1] and [n/2] of the
    sorted data: values of rank 0, [n-1] and [n/2], that is, values of the
    data with at most that many of the data below them and more than that
    many at or below them, in the order of the sort and, when the data hold
    no NaN, in the order of the numbers, where every ascending arrangement
    of the data has an equal value at that index.  So [Median] is the upper
    of the two middle values for an even count, never an average.  With no
    NaN, [Min] is below and [Max] above every value of the data; if the
    data hold a NaN, [Min] is a NaN.  [median] is the [Median] that
    [computeStats] reports, on every input, and 0 for no data. *)
Theorem order_statistics :
  (forall data, data <> [] -> Forall (fun v => is_nan v = false) data ->
     In (Min (computeStats data)) data /\
     In (Max (computeStats data)) data /\
     In (Median (computeStats data)) data /\
     (forall v, In v data ->
        (Min (computeStats data) <=? v)%float = true /\
        (v <=? Max (computeStats data))%float = true)) /\
  (forall data, Exists (fun v => is_nan v = true) data ->
     is_nan (Min (computeStats data)) = true) /\
  (forall data, median data = Median (computeStats data)) /\
  (forall data, data <> [] -> In (median data) data) /\
  (forall data, data <> [] ->
     Min (computeStats data) = nth 0 (sortFloat64s data) 0%float /\
     Max (computeStats data)
     = nth (length data - 1) (sortFloat64s data) 0%float /\
     Median (computeStats data)
     = nth (length data / 2) (sortFloat64s data) 0%float /\
     has_sort_rank data 0 (Min (computeStats data)) /\
     has_sort_rank data (length data - 1) (Max (computeStats data)) /\
     has_sort_rank data (length data / 2) (Median (computeStats data)) /\
     (Forall (fun v => is_nan v = false) data ->
      has_rank data 0 (Min (computeStats data)) /\
      has_rank data (length data - 1) (Max (computeStats data)) /\
      has_rank data (length data / 2) (Median (computeStats data)) /\
      forall s, Permutation data s ->
        Sorted (fun a b => (a <=? b)%float = true) s ->
        (nth 0 s 0 =? Min (computeStats data))%float = true /\
        (nth (length data - 1) s 0 =? Max (computeStats data))%float = true /\
        (nth (length data / 2) s 0 =? Median (computeStats data))%float
        = true)) /\
  median [] = 0%float.
Proof.
  assert (Hin : forall data k, k < length data ->
            In (nth k (sortFloat64s data) 0%float) data).
  { intros data k Hk. apply (proj1 (sortFloat64s_In data _)).
    apply nth_In. now rewrite sortFloat64s_length. }
  assert (Hpos : forall data : list float, data <> [] -> 0 < length data).
  { intros [|v data] H; [congruence|simpl; lia]. }
  assert (Hhalf : forall n, 0 < n -> n / 2 < n).
  { intros n Hn. apply Nat.div_lt; lia. }
  assert (Hmed : forall data, median data = Median (computeStats data)).
  { intros data. unfold median, computeStats. rewrite sortFloat64s_length.
    destruct (length data =? 0); [reflexivity|]. cbv zeta.
    now destruct (fold_left _ data (0%float, 0%float)). }
  split; [|split; [|split; [|split; [|split; [|reflexivity]]]]].
  - intros data Hd Hn.
    destruct (computeStats_order_fields data Hd) as (-> & -> & ->).
    pose proof (Hpos data Hd) as Hl.
    split; [apply Hin; lia|]. split; [apply Hin; lia|].
    split; [apply Hin, Hhalf, Hl|].
    intros v Hv. apply (proj2 (sortFloat64s_In data v)) in Hv.
    destruct (In_nth _ _ 0%float Hv) as (k & Hk & <-).
    rewrite sortFloat64s_length in Hk.
    assert (Hsn : Forall (fun v => is_nan v = false) (sortFloat64s data))
      by exact (Permutation_Forall (sortFloat64s_perm data) Hn).
    pose proof (sortFloat64s_sorted data Hn) as Hs.
    split; apply sorted_nth_le; try assumption;
      rewrite ?sortFloat64s_length; lia.
  - intros data Hnan.
    assert (Hd : data <> []) by (intros ->; inversion Hnan).
    destruct (computeStats_order_fields data Hd) as (-> & _).
    destruct (sortFloat64s_nan_first data Hnan) as (v & rest & -> & Hv).
    exact Hv.
  - exact Hmed.
  - intros data Hd. rewrite Hmed.
    destruct (computeStats_order_fields data Hd) as (_ & _ & ->).
    apply Hin, Hhalf, Hpos, Hd.
  - intros data Hd.
    destruct (computeStats_order_fields data Hd) as (-> & -> & ->).
    pose proof (Hpos data Hd) as Hl.
    assert (H0 : 0 < length data) by exact Hl.
    assert (H1 : length data - 1 < length data) by lia.
    assert (H2 : length data / 2 < length data) by now apply Hhalf.
    destruct (sorted_position_value data 0 H0) as [S0 N0].
    destruct (sorted_position_value data _ H1) as [S1 N1].
    destruct (sorted_position_value data _ H2) as [S2 N2].
    repeat (split; [reflexivity || assumption|]).
    intros Hn.
    destruct (N0 Hn) as [R0 A0], (N1 Hn) as [R1 A1], (N2 Hn) as [R2 A2].
    repeat (split; [assumption|]).
    intros s Hp Hs. repeat split; [apply A0|apply A1|apply A2]; assumption.
Qed.

Lemma order_statistics_witness :
  In (Min (computeStats spread_y)) spread_y /\
  (Min (computeStats spread_y) <=? 1)%float = true /\
  (1 <=? Max (computeStats spread_y))%float = true /\
  is_nan (Min (computeStats [1%float; nan])) = true /\
  In (median spread_y) spread_y /\
  has_rank spread_y 2 (Median (computeStats spread_y)) /\
  (nth 2 [0.1; 1; 1; 3]%float 0 =? Median (computeStats spread_y))%float
  = true.
Proof.
  destruct order_statistics as (HO & HN & _ & HM & HR & _).
  assert (Hd : spread_y <> []) by discriminate.
  assert (Hn : Forall (fun v => is_nan v = false) spread_y)
    by (repeat constructor).
  destruct (HO spread_y Hd Hn) as (Hmin & _ & _ & Hall).
  destruct (HR spread_y Hd) as (_ & _ & _ & _ & _ & _ & Hnum).
  destruct (Hnum Hn) as (_ & _ & Hrank & Harr).
  split; [exact Hmin|].
  split; [apply (Hall 1%float); right; now left|].
  split; [apply (Hall 1%float); right; now left|].
  split; [apply HN; right; now left|].
  split; [apply HM, Hd|]. split; [exact Hrank|].
  apply (Harr [0.1; 1; 1; 3]%float).
  - apply Permutation_refl.
  - repeat constructor.
Defined.

(** ** Counting crossings *)

(** X13.  [countCrossings] is never negative and at most one less than the
    length of its sequences; it is 0 for two sequences of unequal length,
    0 for a sequence against itself, and does not depend on the order of
    its two arguments. *)
Theorem crossing_count_bounds :
  (forall s1 s2, (0 <= countCrossings s1 s2 <= Z.of_nat (length s1 - 1))%Z) /\
  (forall s1 s2, length s1 <> length s2 -> countCrossings s1 s2 = 0%Z) /\
  (forall s, countCrossings s s = 0%Z) /\
  (forall s1 s2, countCrossings s1 s2 = countCrossings s2 s1).
Proof.
  split; [|split; [|split]].
  - intros s1 s2. rewrite countCrossings_flip_count.
    destruct (length s1 =? length s2); [|lia].
    unfold flip_count.
    pose proof (List.filter_length_le (ordering_flips s1 s2)
                  (seq 1 (length s1 - 1))) as H.
    rewrite length_seq in H. lia.
  - intros s1 s2 Hne. rewrite countCrossings_flip_count.
    now rewrite (proj2 (Nat.eqb_neq _ _) Hne).
  - intros s. rewrite countCrossings_flip_count, Nat.eqb_refl.
    unfold flip_count.
    assert (H : forall l, List.filter (ordering_flips s s) l = []).
    { induction l as [|k l IH]; [reflexivity|]. cbn [List.filter].
      unfold ordering_flips at 1.
      assert (Hirr : forall a : float, (a <? a)%float = false).
      { intros a. destruct (a <? a)%float eqn:E; [|reflexivity].
        pose proof (ltb_asym _ _ E). congruence. }
      now rewrite Hirr, !andb_false_r. }
    now rewrite H.
  - exact countCrossings_sym.
Qed.

Lemma crossing_count_bounds_witness :
  countCrossings [1%float; 2%float] [1%float] = 0%Z /\
  (0 <= countCrossings [1%float; 3%float; 1%float]
                       [2%float; 2%float; 2%float] <= 2)%Z.
Proof.
  destruct crossing_count_bounds as (HB & HU & _).
  split; [apply HU; simpl; lia|].
  exact (HB [1%float; 3%float; 1%float] [2%float; 2%float; 2%float]).
Defined.

(** ** Summaries *)

Lemma string_app_assoc (a b c : string) : (a +:+ b) +:+ c = a +:+ (b +:+ c).
Proof.
  induction a as [|ch a IH]; [reflexivity|].
  change (String ch ((a +:+ b) +:+ c) = String ch (a +:+ (b +:+ c))).
  now rewrite IH.
Qed.

Lemma string_app_nil_r (a : string) : a +:+ EmptyString = a.
Proof.
  induction a as [|ch a IH]; [reflexivity|].
  change (String ch (a +:+ EmptyString) = String ch a). now rewrite IH.
Qed.

Lemma coefficient_lines_from (fmt : Formatter) (coefficients : list float)
  (i : nat) (out : string) :
  exists rest,
    range_from i coefficients (fun i coef out =>
      Ok (out +:+ "  Beta[" +:+ verb_d fmt (Z.of_nat i) +:+ "]: "
              +:+ verb_6f fmt coef +:+ nl)) out
    = Ok (out +:+ rest).
Proof.
  revert i out. induction coefficients as [|coef l IH]; intros i out.
  - exists EmptyString. cbn [range_from]. now rewrite string_app_nil_r.
  - cbn [range_from bind]. destruct (IH (S i) (out +:+ "  Beta[" +:+ verb_d fmt (Z.of_nat i) +:+ "]: "
              +:+ verb_6f fmt coef +:+ nl)) as [rest Hrest].
    rewrite Hrest, string_app_assoc. eauto.
Qed.

Lemma coefficient_lines_ok (fmt : Formatter) (coefficients : list float)
  (out : string) :
  exists rest, coefficient_lines fmt coefficients out = Ok (out +:+ rest).
Proof. apply coefficient_lines_from. Qed.

Lemma residual_summary_empty (fmt : Formatter) (out : string) :
  residual_summary fmt [] out = Panic.
Proof. reflexivity. Qed.

Lemma residual_summary_ok (fmt : Formatter) (residuals : list float)
  (out : string) :
  residuals <> [] ->
  residual_summary fmt residuals out
  = Ok (out +:+ nl +:+ "Residual summary:" +:+ nl
        +:+ "  Min: " +:+ verb_6f fmt (Min (computeStats residuals)) +:+ nl
        +:+ "  Max: " +:+ verb_6f fmt (Max (computeStats residuals)) +:+ nl
        +:+ "  Median: " +:+ verb_6f fmt (Median (computeStats residuals))
        +:+ nl).
Proof.
  intros Hr. destruct (computeStats_order_fields residuals Hr) as (-> & -> & ->).
  assert (Hl : 0 < length residuals)
    by (destruct residuals; [congruence|simpl; lia]).
  unfold residual_summary. cbv zeta. rewrite sortFloat64s_length.
  rewrite (idx_ok _ 0 0%float) by (rewrite sortFloat64s_length; lia).
  cbn [bind].
  rewrite (idx_ok _ (length residuals - 1) 0%float)
    by (rewrite sortFloat64s_length; lia).
  cbn [bind].
  rewrite (idx_ok _ (length residuals / 2) 0%float)
    by (rewrite sortFloat64s_length; apply Nat.div_lt; lia).
  cbn [bind]. f_equal. now rewrite !string_app_assoc.
Qed.

(** X14.  [RQFit.Summary] and [NLRQFit.Summary] panic on a fit without
    residuals, whatever else it holds.  On any other fit they return a text
    that opens with the title line carrying the level and closes with the
    residual block, whose three figures are the [Min], [Max] and [Median]
    that [computeStats] gives for the fit's residuals.  A fit that [RQ] or
    [NLRQ] returned always has a summary. *)
Theorem single_summaries (fmt : Formatter) :
  (forall fit, RQFit.Residuals fit = [] -> RQFit_Summary fmt fit = Panic) /\
  (forall fit, NLRQFit.Residuals fit = [] ->
     NLRQFit_Summary fmt fit = Panic) /\
  (forall fit, RQFit.Residuals fit <> [] ->
     exists middle,
       RQFit_Summary fmt fit
       = Ok ("Quantile Regression (tau = " +:+ verb_2f fmt (RQFit.Tau fit)
             +:+ ")" +:+ nl +:+ middle
             +:+ nl +:+ "Residual summary:" +:+ nl
             +:+ "  Min: "
             +:+ verb_6f fmt (Min (computeStats (RQFit.Residuals fit))) +:+ nl
             +:+ "  Max: "
             +:+ verb_6f fmt (Max (computeStats (RQFit.Residuals fit))) +:+ nl
             +:+ "  Median: "
             +:+ verb_6f fmt (Median (computeStats (RQFit.Residuals fit)))
             +:+ nl)) /\
  (forall fit, NLRQFit.Residuals fit <> [] ->
     exists middle,
       NLRQFit_Summary fmt fit
       = Ok ("Non-linear Quantile Regression (tau = "
             +:+ verb_2f fmt (NLRQFit.Tau fit)
             +:+ ")" +:+ nl +:+ middle
             +:+ nl +:+ "Residual summary:" +:+ nl
             +:+ "  Min: "
             +:+ verb_6f fmt (Min (computeStats (NLRQFit.Residuals fit)))
             +:+ nl
             +:+ "  Max: "
             +:+ verb_6f fmt (Max (computeStats (NLRQFit.Residuals fit)))
             +:+ nl
             +:+ "  Median: "
             +:+ verb_6f fmt (Median (computeStats (NLRQFit.Residuals fit)))
             +:+ nl)) /\
  (forall y x tau fit, RQ y x tau = Ok fit ->
     exists text, RQFit_Summary fmt fit = Ok text) /\
  (forall y x model beta0 tau fit, NLRQ y x model beta0 tau = Ok fit ->
     exists text, NLRQFit_Summary fmt fit = Ok text).
Proof.
  assert (HL : forall fit, RQFit.Residuals fit <> [] ->
     exists middle,
       RQFit_Summary fmt fit
       = Ok ("Quantile Regression (tau = " +:+ verb_2f fmt (RQFit.Tau fit)
             +:+ ")" +:+ nl +:+ middle
             +:+ nl +:+ "Residual summary:" +:+ nl
             +:+ "  Min: "
             +:+ verb_6f fmt (Min (computeStats (RQFit.Residuals fit))) +:+ nl
             +:+ "  Max: "
             +:+ verb_6f fmt (Max (computeStats (RQFit.Residuals fit))) +:+ nl
             +:+ "  Median: "
             +:+ verb_6f fmt (Median (computeStats (RQFit.Residuals fit)))
             +:+ nl)).
  { intros fit Hr. unfold RQFit_Summary. cbv zeta.
    match goal with
    | |- context [coefficient_lines fmt ?c ?o] =>
        destruct (coefficient_lines_ok fmt c o) as [rest ->]
    end.
    cbn [bind]. rewrite (residual_summary_ok fmt _ _ Hr).
    exists ("Number of observations: " +:+ verb_d fmt (RQFit.N fit) +:+ nl
            +:+ "Number of parameters: " +:+ verb_d fmt (RQFit.P fit)
            +:+ nl +:+ nl +:+ "Coefficients:" +:+ nl +:+ rest).
    f_equal. now rewrite !string_app_assoc. }
  assert (HN : forall fit, NLRQFit.Residuals fit <> [] ->
     exists middle,
       NLRQFit_Summary fmt fit
       = Ok ("Non-linear Quantile Regression (tau = "
             +:+ verb_2f fmt (NLRQFit.Tau fit)
             +:+ ")" +:+ nl +:+ middle
             +:+ nl +:+ "Residual summary:" +:+ nl
             +:+ "  Min: "
             +:+ verb_6f fmt (Min (computeStats (NLRQFit.Residuals fit)))
             +:+ nl
             +:+ "  Max: "
             +:+ verb_6f fmt (Max (computeStats (NLRQFit.Residuals fit)))
             +:+ nl
             +:+ "  Median: "
             +:+ verb_6f fmt (Median (computeStats (NLRQFit.Residuals fit)))
             +:+ nl)).
  { intros fit Hr. unfold NLRQFit_Summary. cbv zeta.
    match goal with
    | |- context [coefficient_lines fmt ?c ?o] =>
        destruct (coefficient_lines_ok fmt c o) as [rest ->]
    end.
    cbn [bind]. rewrite (residual_summary_ok fmt _ _ Hr).
    exists ("Number of observations: " +:+ verb_d fmt (NLRQFit.N fit) +:+ nl
            +:+ "Number of parameters: " +:+ verb_d fmt (NLRQFit.P fit)
            +:+ nl +:+ nl +:+ "Coefficients:" +:+ nl +:+ rest).
    f_equal. now rewrite !string_app_assoc. }
  split; [|split; [|split; [exact HL|split; [exact HN|split]]]].
  - intros fit Hr. unfold RQFit_Summary. cbv zeta.
    match goal with
    | |- context [coefficient_lines fmt ?c ?o] =>
        destruct (coefficient_lines_ok fmt c o) as [rest ->]
    end.
    cbn [bind]. now rewrite Hr.
  - intros fit Hr. unfold NLRQFit_Summary. cbv zeta.
    match goal with
    | |- context [coefficient_lines fmt ?c ?o] =>
        destruct (coefficient_lines_ok fmt c o) as [rest ->]
    end.
    cbn [bind]. now rewrite Hr.
  - intros y x tau fit H.
    destruct (RQ_ok_valid _ _ _ _ H) as (Hy & _).
    destruct (RQ_lengths _ _ _ _ H) as [Hlen _].
    destruct (HL fit) as [middle Hm]; [|eauto].
    intros Hr. rewrite Hr in Hlen. destruct y; [congruence|discriminate].
  - intros y x model beta0 tau fit H.
    destruct (NLRQ_ok_valid _ _ _ _ _ _ H) as (Hy & _).
    destruct (NLRQ_ok_inv _ _ _ _ _ _ H) as (coef & fr & _ & Hfr & Hrec).
    destruct (nlrq_fitted_residuals_spec _ _ _ _ _ _ Hfr) as [Hlen _].
    destruct (HN fit) as [middle Hm]; [|eauto].
    rewrite Hrec. cbn [NLRQFit.Residuals]. intros Hr.
    apply (f_equal (@length float)) in Hr. rewrite length_map, Hlen in Hr.
    destruct y; [congruence|discriminate].
Qed.
Lemma single_summaries_witness :
  RQFit_Summary mute_formatter bare_fit = Panic /\
  (exists middle,
     RQFit_Summary mute_formatter doubling_fit
     = Ok ("Quantile Regression (tau = " +:+ "?" +:+ ")" +:+ nl +:+ middle
           +:+ nl +:+ "Residual summary:" +:+ nl
           +:+ "  Min: " +:+ "?" +:+ nl
           +:+ "  Max: " +:+ "?" +:+ nl
           +:+ "  Median: " +:+ "?" +:+ nl)) /\
  (exists fit text, RQ readme_y readme_x 0.5%float = Ok fit /\
     RQFit_Summary mute_formatter fit = Ok text).
Proof.
  destruct (single_summaries mute_formatter) as (HE & _ & HL & _ & HR & _).
  split; [apply HE; reflexivity|].
  split; [apply (HL doubling_fit); discriminate|].
  destruct (RQ readme_y readme_x 0.5%float) as [fit| |] eqn:H;
    [|vm_compute in H; discriminate H|vm_compute in H; discriminate H].
  destruct (HR _ _ _ _ H) as [text Ht]. exists fit, text. now split.
Defined.

Section LevelBlocks.
Variables (Fit : Type) (coefficients : Fit -> list float).
Variables (fmt : Formatter) (fits : fmap Fit).

Lemma level_blocks_from_ok (taus : list float) (i : nat) (out : string) :
  (forall tau, In tau taus -> exists fit, map_get fits tau = Some fit) ->
  exists rest,
    range_from i taus (fun (_ : nat) tau out =>
      let fit := map_get fits tau in
      let out := out +:+ "=== Quantile " +:+ verb_f fmt tau +:+ " ==="
                 +:+ nl in
      let out := out +:+ "Coefficients:" +:+ nl in
      match fit with
      | None => Panic
      | Some fit =>
          out <- coefficient_lines fmt (coefficients fit) out ;;
          Ok (out +:+ nl)
      end) out
    = Ok (out +:+ rest).
Proof.
  revert i out. induction taus as [|tau l IH]; intros i out Hall.
  - exists EmptyString. cbn [range_from]. now rewrite string_app_nil_r.
  - cbn [range_from]. cbv zeta.
    destruct (Hall tau (or_introl eq_refl)) as [fit ->].
    match goal with
    | |- context [coefficient_lines fmt ?c ?o] =>
        destruct (coefficient_lines_ok fmt c o) as [lines ->]
    end.
    cbn [bind].
    match goal with
    | |- context [range_from (S i) l _ ?o] =>
        destruct (IH (S i) o) as [rest Hrest]
    end.
    { intros tau' Hin. apply Hall. now right. }
    exists ("=== Quantile " +:+ verb_f fmt tau +:+ " ===" +:+ nl
            +:+ "Coefficients:" +:+ nl +:+ lines +:+ nl +:+ rest).
    etransitivity; [exact Hrest|]. f_equal. now rewrite !string_app_assoc.
Qed.

Lemma level_blocks_from_panic (taus : list float) (i : nat) (out : string)
  (tau : float) :
  In tau taus -> map_get fits tau = None ->
  range_from i taus (fun (_ : nat) tau out =>
    let fit := map_get fits tau in
    let out := out +:+ "=== Quantile " +:+ verb_f fmt tau +:+ " ==="
               +:+ nl in
    let out := out +:+ "Coefficients:" +:+ nl in
    match fit with
    | None => Panic
    | Some fit =>
        out <- coefficient_lines fmt (coefficients fit) out ;;
        Ok (out +:+ nl)
    end) out
  = Panic.
Proof.
  revert i out. induction taus as [|tau0 l IH]; intros i out Hin Hnone;
    [destruct Hin|].
  cbn [range_from]. cbv zeta.
  destruct (map_get fits tau0) as [fit0|] eqn:H0; [|reflexivity].
  match goal with
  | |- context [coefficient_lines fmt ?c ?o] =>
      destruct (coefficient_lines_ok fmt c o) as [lines ->]
  end.
  cbn [bind]. apply IH; [|exact Hnone].
  destruct Hin as [->|Hin]; [congruence|exact Hin].
Qed.

End LevelBlocks.

(** X15.  [MultiRQFit.Summary] and [MultiNLRQFit.Summary] return a text,
    opening with their title line, exactly when every level of [Taus] has a
    stored fit, and panic as soon as one has none; they never look at a
    residual, so an aggregate of fits without residuals is summarised where
    the summary of each single fit would panic.  The aggregate a process
    returns for valid levels always has a summary; one fitted with a NaN
    among its levels never has. *)
Theorem aggregate_summaries (fmt : Formatter) :
  (forall m,
     (forall tau, In tau (MultiRQFit.Taus m) ->
        exists fit, map_get (MultiRQFit.Fits m) tau = Some fit) ->
     exists rest, MultiRQFit_Summary fmt m
       = Ok ("Multiple Quantile Regression" +:+ nl +:+ rest)) /\
  (forall m tau, In tau (MultiRQFit.Taus m) ->
     map_get (MultiRQFit.Fits m) tau = None ->
     MultiRQFit_Summary fmt m = Panic) /\
  (forall m,
     (forall tau, In tau (MultiNLRQFit.Taus m) ->
        exists fit, map_get (MultiNLRQFit.Fits m) tau = Some fit) ->
     exists rest, MultiNLRQFit_Summary fmt m
       = Ok ("Multiple Non-linear Quantile Regression" +:+ nl +:+ rest)) /\
  (forall m tau, In tau (MultiNLRQFit.Taus m) ->
     map_get (MultiNLRQFit.Fits m) tau = None ->
     MultiNLRQFit_Summary fmt m = Panic) /\
  (forall y x taus m, RQProcess y x taus = Ok m ->
     (Forall valid_tau taus ->
      exists text, MultiRQFit_Summary fmt m = Ok text) /\
     (Exists (fun tau => is_nan tau = true) taus ->
      MultiRQFit_Summary fmt m = Panic)) /\
  (forall y x model beta0 taus m, NLRQProcess y x model beta0 taus = Ok m ->
     (Forall valid_tau taus ->
      exists text, MultiNLRQFit_Summary fmt m = Ok text) /\
     (Exists (fun tau => is_nan tau = true) taus ->
      MultiNLRQFit_Summary fmt m = Panic)).
Proof.
  assert (HL : forall m,
     (forall tau, In tau (MultiRQFit.Taus m) ->
        exists fit, map_get (MultiRQFit.Fits m) tau = Some fit) ->
     exists rest, MultiRQFit_Summary fmt m
       = Ok ("Multiple Quantile Regression" +:+ nl +:+ rest)).
  { intros m Hall. unfold MultiRQFit_Summary, level_blocks, range_loop.
    cbv zeta.
    match goal with
    | |- context [range_from 0 _ ?body ?o] =>
        destruct (level_blocks_from_ok _ RQFit.Coefficients fmt
                    (MultiRQFit.Fits m) (MultiRQFit.Taus m) 0 o Hall)
          as [rest Hrest]
    end.
    exists ("Number of observations: " +:+ verb_d fmt (MultiRQFit.N m) +:+ nl
            +:+ "Number of parameters: " +:+ verb_d fmt (MultiRQFit.P m)
            +:+ nl +:+ "Quantile levels: "
            +:+ verb_v fmt (MultiRQFit.Taus m) +:+ nl +:+ nl +:+ rest).
    etransitivity; [exact Hrest|]. f_equal. now rewrite !string_app_assoc. }
  assert (HLp : forall m tau, In tau (MultiRQFit.Taus m) ->
     map_get (MultiRQFit.Fits m) tau = None ->
     MultiRQFit_Summary fmt m = Panic).
  { intros m tau Hin Hnone. unfold MultiRQFit_Summary, level_blocks, range_loop.
    cbv zeta.
    exact (level_blocks_from_panic _ RQFit.Coefficients fmt
             (MultiRQFit.Fits m) (MultiRQFit.Taus m) 0 _ tau Hin Hnone). }
  assert (HN : forall m,
     (forall tau, In tau (MultiNLRQFit.Taus m) ->
        exists fit, map_get (MultiNLRQFit.Fits m) tau = Some fit) ->
     exists rest, MultiNLRQFit_Summary fmt m
       = Ok ("Multiple Non-linear Quantile Regression" +:+ nl +:+ rest)).
  { intros m Hall. unfold MultiNLRQFit_Summary, level_blocks, range_loop.
    cbv zeta.
    match goal with
    | |- context [range_from 0 _ ?body ?o] =>
        destruct (level_blocks_from_ok _ NLRQFit.Coefficients fmt
                    (MultiNLRQFit.Fits m) (MultiNLRQFit.Taus m) 0 o Hall)
          as [rest Hrest]
    end.
    exists ("Number of observations: " +:+ verb_d fmt (MultiNLRQFit.N m)
            +:+ nl
            +:+ "Number of parameters: " +:+ verb_d fmt (MultiNLRQFit.P m)
            +:+ nl +:+ "Quantile levels: "
            +:+ verb_v fmt (MultiNLRQFit.Taus m) +:+ nl +:+ nl +:+ rest).
    etransitivity; [exact Hrest|]. f_equal. now rewrite !string_app_assoc. }
  assert (HNp : forall m tau, In tau (MultiNLRQFit.Taus m) ->
     map_get (MultiNLRQFit.Fits m) tau = None ->
     MultiNLRQFit_Summary fmt m = Panic).
  { intros m tau Hin Hnone.
    unfold MultiNLRQFit_Summary, level_blocks, range_loop. cbv zeta.
    exact (level_blocks_from_panic _ NLRQFit.Coefficients fmt
             (MultiNLRQFit.Fits m) (MultiNLRQFit.Taus m) 0 _ tau Hin Hnone). }
  split; [exact HL|]. split; [exact HLp|]. split; [exact HN|].
  split; [exact HNp|]. split.
  - intros y x taus m H.
    destruct (RQProcess_ok_inv _ _ _ _ H) as (fits & first & Hs & Hm). split.
    + intros Hv. destruct (HL m) as [rest Hrest]; [|eauto].
      rewrite Hm. cbn [MultiRQFit.Taus MultiRQFit.Fits]. intros tau Hin.
      apply (proj1 (sortFloat64s_In taus tau)) in Hin.
      destruct (aggregate_lookup _ _ _ _ _ Hs tau Hin
                  (proj1 (List.Forall_forall _ _) Hv tau Hin)) as (fit & Hf & _).
      eauto.
    + intros Hnan.
      destruct (sortFloat64s_nan_first taus Hnan) as (v & rest & Hsort & Hv).
      apply (HLp m v); rewrite Hm; cbn [MultiRQFit.Taus MultiRQFit.Fits].
      * rewrite Hsort. now left.
      * now apply map_get_nan.
  - intros y x model beta0 taus m H.
    destruct (NLRQProcess_ok_inv _ _ _ _ _ _ H) as (fits & first & Hs & Hm).
    split.
    + intros Hv. destruct (HN m) as [rest Hrest]; [|eauto].
      rewrite Hm. cbn [MultiNLRQFit.Taus MultiNLRQFit.Fits]. intros tau Hin.
      apply (proj1 (sortFloat64s_In taus tau)) in Hin.
      destruct (aggregate_lookup _ _ _ _ _ Hs tau Hin
                  (proj1 (List.Forall_forall _ _) Hv tau Hin)) as (fit & Hf & _).
      eauto.
    + intros Hnan.
      destruct (sortFloat64s_nan_first taus Hnan) as (v & rest & Hsort & Hv).
      apply (HNp m v); rewrite Hm; cbn [MultiNLRQFit.Taus MultiNLRQFit.Fits].
      * rewrite Hsort. now left.
      * now apply map_get_nan.
Qed.

Lemma aggregate_summaries_witness :
  (exists rest, MultiRQFit_Summary mute_formatter bare_aggregate
     = Ok ("Multiple Quantile Regression" +:+ nl +:+ rest)) /\
  MultiRQFit_Summary mute_formatter orphan_aggregate = Panic /\
  MultiNLRQFit_Summary mute_formatter orphan_nl_aggregate = Panic /\
  (exists m text,
     RQProcess readme_y readme_x [0.75%float; 0.25%float] = Ok m /\
     MultiRQFit_Summary mute_formatter m = Ok text) /\
  (exists m, RQProcess readme_y readme_x [0.5%float; nan] = Ok m /\
     MultiRQFit_Summary mute_formatter m = Panic).
Proof.
  destruct (aggregate_summaries mute_formatter)
    as (HL & HLp & _ & HNp & HP & _).
  split; [|split; [|split; [|split]]].
  - apply HL. intros tau [<-|[]]. exists bare_fit. reflexivity.
  - apply (HLp orphan_aggregate 0.5%float); [now left|reflexivity].
  - apply (HNp orphan_nl_aggregate 0.5%float); [now left|reflexivity].
  - destruct (RQProcess readme_y readme_x [0.75%float; 0.25%float])
      as [m| |] eqn:H;
      [|vm_compute in H; discriminate H|vm_compute in H; discriminate H].
    destruct (proj1 (HP _ _ _ _ H)) as [text Ht]; [repeat constructor|].
    exists m, text. now split.
  - destruct (RQProcess readme_y readme_x [0.5%float; nan]) as [m| |] eqn:H;
      [|vm_compute in H; discriminate H|vm_compute in H; discriminate H].
    exists m. split; [reflexivity|].
    apply (proj2 (HP _ _ _ _ H)). right. now left.
Defined.

(** ** The errors that can come back *)

Ltac unfold_loops :=
  unfold br_residuals, br_gradients, br_grad, br_update, ip_residuals,
    ip_objGrad, ip_maxGrad, ip_update, rq_fitted_residuals,
    nlrq_fitted_residuals, fill, for_loop.

Lemma no_err_br_loop (iters : nat) (tau : float) (y : list float)
  (x : CSRMatrix) (n p : nat) (solution : list float) :
  no_err (br_loop iters tau y x n p solution).
Proof.
  revert solution. induction iters as [|iters IH]; intros solution;
    cbn [br_loop]; [apply no_err_Ok|].
  apply no_err_bind; [unfold_loops; no_err_tac|]. intros residuals.
  apply no_err_bind; [unfold_loops; no_err_tac|]. intros [gradients maxGrad].
  destruct (maxGrad <? tolerance)%float; [apply no_err_Ok|].
  apply no_err_bind; [unfold_loops; no_err_tac|]. intros solution'. apply IH.
Qed.

Lemma no_err_ip_loop (iters : nat) (tau : float) (model : NonLinearModel)
  (y : list float) (x : list (list float)) (n p : nat) (beta : list float)
  (t : float) :
  no_err (ip_loop iters tau model y x n p beta t).
Proof.
  revert beta t. induction iters as [|iters IH]; intros beta t;
    cbn [ip_loop]; [apply no_err_Ok|].
  apply no_err_bind; [unfold_loops; no_err_tac|]. intros rg. cbv zeta.
  apply no_err_bind; [unfold_loops; no_err_tac|]. intros objGrad.
  apply no_err_bind; [unfold_loops; no_err_tac|]. intros maxGrad.
  destruct (maxGrad <? tolerance)%float; [apply no_err_Ok|].
  apply no_err_bind; [unfold_loops; no_err_tac|]. intros beta'. apply IH.
Qed.

Lemma RQ_errors (y : list float) (x : list (list float)) (tau : float)
  (e : error) :
  RQ y x tau = Err e ->
  e = EmptyInput \/ e = DimensionMismatch \/
  (e = InvalidTau /\ tau_rejected tau = true).
Proof.
  unfold RQ, tau_rejected.
  destruct ((length y =? 0) || (length x =? 0)); [intros H; inversion H; auto|].
  cbv zeta.
  destruct (negb (length y =? length x)); [intros H; inversion H; auto|].
  destruct ((tau <=? 0)%float || (1 <=? tau)%float);
    [intros H; inversion H; auto|].
  unfold solveBarrodaleRoberts. cbv zeta.
  pose proof (no_err_br_loop maxIter tau y (NewCSRMatrix x) (length y)
                (Cols (NewCSRMatrix x))
                (replicate (Cols (NewCSRMatrix x)) 0%float)) as Hs.
  destruct (br_loop _ _ _ _ _ _ _) as [coef|e'|]; [|now destruct (Hs e')|discriminate].
  intros H. exfalso. revert H.
  assert (Hne : no_err (rq_fitted_residuals y x coef (length y)
                          (length (hd [] x))))
    by (unfold_loops; no_err_tac).
  destruct (rq_fitted_residuals _ _ _ _ _) as [fr|e'|]; cbn [bind];
    [discriminate|now destruct (Hne e')|discriminate].
Qed.

Lemma NLRQ_errors (y : list float) (x : list (list float))
  (model : NonLinearModel) (beta0 : list float) (tau : float) (e : error) :
  NLRQ y x model beta0 tau = Err e ->
  e = EmptyInput \/ e = DimensionMismatch \/
  (e = InvalidTau /\ tau_rejected tau = true).
Proof.
  unfold NLRQ, tau_rejected.
  destruct ((length y =? 0) || (length x =? 0)); [intros H; inversion H; auto|].
  cbv zeta.
  destruct (negb (length y =? length x)); [intros H; inversion H; auto|].
  destruct ((tau <=? 0)%float || (1 <=? tau)%float);
    [intros H; inversion H; auto|].
  unfold solveInteriorPoint. cbv zeta.
  pose proof (no_err_ip_loop maxIter tau model y x (length y) (length beta0)
                beta0 1%float) as Hs.
  destruct (ip_loop _ _ _ _ _ _ _ _ _) as [coef|e'|];
    [|now destruct (Hs e')|discriminate].
  intros H. exfalso. revert H.
  assert (Hne : no_err (nlrq_fitted_residuals model y x coef (length y)))
    by (unfold_loops; no_err_tac).
  destruct (nlrq_fitted_residuals _ _ _ _ _) as [fr|e'|]; cbn [bind];
    [discriminate|now destruct (Hne e')|discriminate].
Qed.

Section FitLoopErrors.
Variables (Fit : Type) (fitf : float -> result Fit).

Lemma fit_loop_err (l : list float) (i : nat) (s : fmap Fit * option Fit)
  (e : error) :
  range_from i l (fun (_ : nat) (tau : float) '(fits, firstFit) =>
    match fitf tau with
    | Err e => Err (FitFailed tau e)
    | Panic => Panic
    | Ok fit =>
        Ok (map_set fits tau fit,
            match firstFit with None => Some fit | Some _ => firstFit end)
    end) s = Err e ->
  exists tau e', In tau l /\ fitf tau = Err e' /\ e = FitFailed tau e'.
Proof.
  revert i s. induction l as [|tau l IH]; intros i [fits ff] H;
    cbn [range_from] in H; [discriminate|].
  destruct (fitf tau) as [fit|e'|] eqn:Hf; cbn [bind] in H.
  - destruct (IH _ _ H) as (tau' & e'' & Hin & Hf' & He).
    exists tau', e''. repeat split; [now right|exact Hf'|exact He].
  - inversion H. exists tau, e'. repeat split; [now left|exact Hf].
  - discriminate.
Qed.

End FitLoopErrors.

(** X16.  The errors each operation can return are few.  [RQ] and [NLRQ]
    return only [EmptyInput], [DimensionMismatch] or [InvalidTau]: neither
    solver ever reports an error, so the wrapper for a failed optimization
    is never produced.  [RQFit.Predict] returns only [EmptyInput] or
    [DimensionMismatch], and [NLRQFit.Predict] only [EmptyInput].  A process
    returns only [EmptyTauSet], [InvalidTau], or the [EmptyInput] or
    [DimensionMismatch] of the fit at one of the requested levels, wrapped
    together with that level. *)
Theorem possible_errors :
  (forall y x tau e, RQ y x tau = Err e ->
     e = EmptyInput \/ e = DimensionMismatch \/ e = InvalidTau) /\
  (forall y x model beta0 tau e, NLRQ y x model beta0 tau = Err e ->
     e = EmptyInput \/ e = DimensionMismatch \/ e = InvalidTau) /\
  (forall fit newX e, RQFit_Predict fit newX = Err e ->
     e = EmptyInput \/ e = DimensionMismatch) /\
  (forall fit newX e, NLRQFit_Predict fit newX = Err e -> e = EmptyInput) /\
  (forall y x taus e, RQProcess y x taus = Err e ->
     e = EmptyTauSet \/ e = InvalidTau \/
     exists tau, In tau taus /\
       (e = FitFailed tau EmptyInput \/ e = FitFailed tau DimensionMismatch)) /\
  (forall y x model beta0 taus e, NLRQProcess y x model beta0 taus = Err e ->
     e = EmptyTauSet \/ e = InvalidTau \/
     exists tau, In tau taus /\
       (e = FitFailed tau EmptyInput \/ e = FitFailed tau DimensionMismatch)).
Proof.
  split; [|split; [|split; [|split; [|split]]]].
  - intros y x tau e H. destruct (RQ_errors _ _ _ _ H) as [?|[?|[? _]]]; auto.
  - intros y x model beta0 tau e H.
    destruct (NLRQ_errors _ _ _ _ _ _ H) as [?|[?|[? _]]]; auto.
  - intros fit newX e. unfold RQFit_Predict.
    destruct (length newX =? 0); [intros H; inversion H; auto|].
    destruct (negb _); [intros H; inversion H; auto|]. cbv zeta.
    intros H. exfalso. revert H.
    assert (Hne : forall r : result (list float), r =
      fill (length newX) 0%float (fun i =>
        for_loop (Z.to_nat (RQFit.P fit)) (fun j pred =>
          row <- idx newX i ;;
          xij <- idx row j ;;
          cj <- idx (RQFit.Coefficients fit) j ;;
          Ok (pred + xij * cj)%float) 0%float) -> no_err r)
      by (intros r ->; unfold_loops; no_err_tac).
    intros H. exact (Hne _ eq_refl e H).
  - intros fit newX e. unfold NLRQFit_Predict.
    destruct (length newX =? 0); [intros H; now inversion H|]. cbv zeta.
    intros H. exfalso. revert H.
    assert (Hne : forall r : result (list float), r =
      fill (length newX) 0%float (fun i =>
        xi <- idx newX i ;;
        Ok (F (NLRQFit.Model fit) (NLRQFit.Coefficients fit) xi)) -> no_err r)
      by (intros r ->; unfold_loops; no_err_tac).
    intros H. exact (Hne _ eq_refl e H).
  - intros y x taus e. unfold RQProcess.
    destruct (length taus =? 0); [intros H; inversion H; auto|]. cbv zeta.
    rewrite check_taus_spec.
    destruct (forallb _ (sortFloat64s taus)) eqn:Hall; cbn [bind];
      [|intros H; inversion H; auto].
    unfold range_loop.
    match goal with
    | |- bind ?L _ = _ -> _ => destruct L as [[fits [first|]]|e0|] eqn:Hs
    end; cbn [bind]; try discriminate.
    intros H. inversion H; subst e0. right. right.
    destruct (fit_loop_err _ _ _ _ _ _ Hs) as (tau & e' & Hin & Hf & ->).
    exists tau. split; [now apply (proj1 (sortFloat64s_In taus tau))|].
    destruct (RQ_errors _ _ _ _ Hf) as [->|[->|[_ Hrej]]]; auto.
    rewrite forallb_forall in Hall. specialize (Hall tau Hin).
    rewrite Hrej in Hall. discriminate.
  - intros y x model beta0 taus e. unfold NLRQProcess.
    destruct (length taus =? 0); [intros H; inversion H; auto|]. cbv zeta.
    rewrite check_taus_spec.
    destruct (forallb _ (sortFloat64s taus)) eqn:Hall; cbn [bind];
      [|intros H; inversion H; auto].
    unfold range_loop.
    match goal with
    | |- bind ?L _ = _ -> _ => destruct L as [[fits [first|]]|e0|] eqn:Hs
    end; cbn [bind]; try discriminate.
    intros H. inversion H; subst e0. right. right.
    destruct (fit_loop_err _ _ _ _ _ _ Hs) as (tau & e' & Hin & Hf & ->).
    exists tau. split; [now apply (proj1 (sortFloat64s_In taus tau))|].
    destruct (NLRQ_errors _ _ _ _ _ _ Hf) as [->|[->|[_ Hrej]]]; auto.
    rewrite forallb_forall in Hall. specialize (Hall tau Hin).
    rewrite Hrej in Hall. discriminate.
Qed.
Lemma possible_errors_witness :
  RQ readme_y readme_x 1.5%float = Err InvalidTau /\
  (InvalidTau = EmptyInput \/ InvalidTau = DimensionMismatch \/
   InvalidTau = InvalidTau) /\
  RQFit_Predict doubling_fit [[1%float; 2%float]] = Err DimensionMismatch /\
  (DimensionMismatch = EmptyInput \/ DimensionMismatch = DimensionMismatch).
Proof.
  destruct possible_errors as (HR & _ & HP & _).
  assert (H1 : RQ readme_y readme_x 1.5%float = Err InvalidTau)
    by reflexivity.
  assert (H2 : RQFit_Predict doubling_fit [[1%float; 2%float]]
               = Err DimensionMismatch) by reflexivity.
  split; [exact H1|]. split; [exact (HR _ _ _ _ H1)|].
  split; [exact H2|exact (HP _ _ _ H2)].
Defined.

(** ** What an aggregate holds *)

Lemma RQ_fields (y : list float) (x : list (list float)) (tau : float)
  (fit : RQFit.t) :
  RQ y x tau = Ok fit ->
  RQFit.Tau fit = tau /\ RQFit.N fit = Z.of_nat (length y) /\
  RQFit.P fit = Z.of_nat (length (hd [] x)) /\
  length (RQFit.Coefficients fit) = length (hd [] x).
Proof.
  intros H. pose proof (RQ_coefficients_length _ _ _ _ H) as Hc.
  destruct (RQ_ok_inv _ _ _ _ H) as (coef & fr & _ & _ & ->).
  cbn [RQFit.Tau RQFit.N RQFit.P RQFit.Coefficients] in *.
  repeat split. lia.
Qed.

Lemma NLRQ_fields (y : list float) (x : list (list float))
  (model : NonLinearModel) (beta0 : list float) (tau : float)
  (fit : NLRQFit.t) :
  NLRQ y x model beta0 tau = Ok fit ->
  NLRQFit.Tau fit = tau /\ NLRQFit.N fit = Z.of_nat (length y) /\
  NLRQFit.P fit = Z.of_nat (length beta0) /\
  length (NLRQFit.Coefficients fit) = length beta0 /\
  NLRQFit.Model fit = model /\
  length (NLRQFit.Residuals fit) = length y /\
  length (NLRQFit.Fitted fit) = length y.
Proof.
  intros H.
  destruct (NLRQ_ok_inv _ _ _ _ _ _ H) as (coef & fr & Hc & Hfr & ->).
  destruct (nlrq_fitted_residuals_spec _ _ _ _ _ _ Hfr) as [Hlen _].
  cbn [NLRQFit.Tau NLRQFit.N NLRQFit.P NLRQFit.Coefficients NLRQFit.Model
       NLRQFit.Residuals NLRQFit.Fitted].
  rewrite !length_map. repeat split; try exact Hlen.
  unfold solveInteriorPoint in Hc. now apply ip_loop_length in Hc.
Qed.

(** X17.  In the aggregate a process returns, [N] is the number of
    responses and [P] the width of the first covariate row (for the
    non-linear process, the length of the starting vector), and [Taus] has
    as many entries as the request.  Every stored fit carries a level equal
    to its key, the aggregate's [N] and [P], exactly [P] coefficients, and
    one fitted value and one residual per response; every stored non-linear
    fit carries the model of the request. *)
Theorem aggregate_invariants :
  (forall y x taus m, RQProcess y x taus = Ok m ->
     MultiRQFit.N m = Z.of_nat (length y) /\
     MultiRQFit.P m = Z.of_nat (length (hd [] x)) /\
     length (MultiRQFit.Taus m) = length taus /\
     forall k fit, map_get (MultiRQFit.Fits m) k = Some fit ->
       (RQFit.Tau fit =? k)%float = true /\
       RQFit.N fit = MultiRQFit.N m /\ RQFit.P fit = MultiRQFit.P m /\
       length (RQFit.Coefficients fit) = length (hd [] x) /\
       length (RQFit.Fitted fit) = length y /\
       length (RQFit.Residuals fit) = length y) /\
  (forall y x model beta0 taus m, NLRQProcess y x model beta0 taus = Ok m ->
     MultiNLRQFit.N m = Z.of_nat (length y) /\
     MultiNLRQFit.P m = Z.of_nat (length beta0) /\
     MultiNLRQFit.Model m = model /\
     length (MultiNLRQFit.Taus m) = length taus /\
     forall k fit, map_get (MultiNLRQFit.Fits m) k = Some fit ->
       (NLRQFit.Tau fit =? k)%float = true /\
       NLRQFit.N fit = MultiNLRQFit.N m /\
       NLRQFit.P fit = MultiNLRQFit.P m /\
       NLRQFit.Model fit = model /\
       length (NLRQFit.Coefficients fit) = length beta0 /\
       length (NLRQFit.Fitted fit) = length y /\
       length (NLRQFit.Residuals fit) = length y).
Proof.
  split.
  - intros y x taus m H.
    destruct (RQProcess_ok_inv _ _ _ _ H) as (fits & first & Hs & ->).
    cbn [MultiRQFit.N MultiRQFit.P MultiRQFit.Taus MultiRQFit.Fits].
    destruct (aggregate_first _ _ _ _ _ Hs first eq_refl)
      as (tau0 & rest & _ & Hf0).
    destruct (RQ_fields _ _ _ _ Hf0) as (_ & HN & HP & _).
    split; [exact HN|]. split; [exact HP|].
    split; [apply sortFloat64s_length|].
    intros k fit Hk.
    destruct (aggregate_values _ _ _ _ _ Hs k fit Hk) as (tau & _ & He & Hf).
    destruct (RQ_fields _ _ _ _ Hf) as (HT & HN' & HP' & HC).
    destruct (RQ_lengths _ _ _ _ Hf) as [HR HF].
    rewrite HT, HN, HP. repeat split; assumption.
  - intros y x model beta0 taus m H.
    destruct (NLRQProcess_ok_inv _ _ _ _ _ _ H) as (fits & first & Hs & ->).
    cbn [MultiNLRQFit.N MultiNLRQFit.P MultiNLRQFit.Taus MultiNLRQFit.Fits
         MultiNLRQFit.Model].
    destruct (aggregate_first _ _ _ _ _ Hs first eq_refl)
      as (tau0 & rest & _ & Hf0).
    destruct (NLRQ_fields _ _ _ _ _ _ Hf0) as (_ & HN & HP & _).
    split; [exact HN|]. split; [exact HP|]. split; [reflexivity|].
    split; [apply sortFloat64s_length|].
    intros k fit Hk.
    destruct (aggregate_values _ _ _ _ _ Hs k fit Hk) as (tau & _ & He & Hf).
    destruct (NLRQ_fields _ _ _ _ _ _ Hf) as (HT & HN' & HP' & HC & HM & HR & HF).
    rewrite HT, HN, HP. repeat split; assumption.
Qed.

Lemma aggregate_invariants_witness :
  exists m, RQProcess readme_y readme_x [0.75%float; 0.25%float] = Ok m /\
    MultiRQFit.N m = 5%Z /\ MultiRQFit.P m = 2%Z /\
    length (MultiRQFit.Taus m) = 2.
Proof.
  destruct (RQProcess readme_y readme_x [0.75%float; 0.25%float])
    as [m| |] eqn:H;
    [|vm_compute in H; discriminate H|vm_compute in H; discriminate H].
  exists m. split; [reflexivity|].
  destruct (proj1 aggregate_invariants _ _ _ _ H) as (HN & HP & HT & _).
  split; [exact HN|]. split; [exact HP|exact HT].
Defined.

(** ** One prediction per row *)

Lemma fill_length {A : Type} (n : nat) (zero : A) (f : nat -> result A)
  (a : list A) :
  fill n zero f = Ok a -> length a = n.
Proof.
  rewrite fill_mapM. intros H. apply mapM_length in H.
  now rewrite length_seq in H.
Qed.

Lemma RQFit_Predict_length (fit : RQFit.t) (newX : list (list float))
  (pred : list float) :
  RQFit_Predict fit newX = Ok pred -> length pred = length newX.
Proof.
  unfold RQFit_Predict. destruct (length newX =? 0); [discriminate|].
  destruct (negb _); [discriminate|]. cbv zeta. apply fill_length.
Qed.

Lemma NLRQFit_Predict_length (fit : NLRQFit.t) (newX : list (list float))
  (pred : list float) :
  NLRQFit_Predict fit newX = Ok pred -> length pred = length newX.
Proof.
  unfold NLRQFit_Predict. destruct (length newX =? 0); [discriminate|].
  cbv zeta. apply fill_length.
Qed.

(** X18.  Every prediction that is returned has exactly one value per row
    of the rows given: for [RQFit.Predict] and [NLRQFit.Predict], and for
    every entry of the maps that [MultiRQFit.Predict] and
    [MultiNLRQFit.Predict] return. *)
Theorem one_prediction_per_row :
  (forall fit newX pred, RQFit_Predict fit newX = Ok pred ->
     length pred = length newX) /\
  (forall fit newX pred, NLRQFit_Predict fit newX = Ok pred ->
     length pred = length newX) /\
  (forall m newX predictions k pred,
     MultiRQFit_Predict m newX = Ok predictions ->
     map_get predictions k = Some pred -> length pred = length newX) /\
  (forall m newX predictions k pred,
     MultiNLRQFit_Predict m newX = Ok predictions ->
     map_get predictions k = Some pred -> length pred = length newX).
Proof.
  split; [exact RQFit_Predict_length|]. split; [exact NLRQFit_Predict_length|].
  split.
  - intros m newX preds k pred H Hk.
    destruct (predict_loop_inv _ (MultiRQFit.Fits m)
                (fun fit => RQFit_Predict_ptr fit newX) _ _ _ _ H)
      as (K1 & _).
    destruct (K1 k pred Hk) as [Hm|(tau & _ & _ & Hp)]; [discriminate|].
    destruct (map_get (MultiRQFit.Fits m) tau) as [fit|];
      cbn [RQFit_Predict_ptr] in Hp.
    + exact (RQFit_Predict_length _ _ _ Hp).
    + now destruct (length newX =? 0).
  - intros m newX preds k pred H Hk.
    destruct (predict_loop_inv _ (MultiNLRQFit.Fits m)
                (fun fit => NLRQFit_Predict_ptr fit newX) _ _ _ _ H)
      as (K1 & _).
    destruct (K1 k pred Hk) as [Hm|(tau & _ & _ & Hp)]; [discriminate|].
    destruct (map_get (MultiNLRQFit.Fits m) tau) as [fit|];
      cbn [NLRQFit_Predict_ptr] in Hp.
    + exact (NLRQFit_Predict_length _ _ _ Hp).
    + now destruct (length newX =? 0).
Qed.

Lemma one_prediction_per_row_witness :
  exists pred, RQFit_Predict doubling_fit [[1%float]; [3%float]] = Ok pred /\
    length pred = 2.
Proof.
  destruct (RQFit_Predict doubling_fit [[1%float]; [3%float]])
    as [pred| |] eqn:H;
    [|vm_compute in H; discriminate H|vm_compute in H; discriminate H].
  exists pred. split; [reflexivity|].
  exact (proj1 one_prediction_per_row _ _ _ H).
Defined.

(** ** Fits without parameters *)

(** X19.  With no parameter to fit, nothing is iterated: when every
    covariate row is empty, [RQ] returns the empty coefficient vector, every
    fitted value 0 and every residual the response less 0; with an empty
    starting vector [NLRQ] returns the empty coefficient vector and as
    fitted values the model at no parameters. *)
Theorem fits_without_parameters :
  (forall y x tau,
     y <> [] -> length y = length x -> tau_rejected tau = false ->
     Forall (fun row => row = []) x ->
     exists fit, RQ y x tau = Ok fit /\
       RQFit.Coefficients fit = [] /\
       RQFit.Fitted fit = map (fun _ => 0%float) y /\
       RQFit.Residuals fit = map (fun v => (v - 0)%float) y) /\
  (forall y x model tau,
     y <> [] -> length y = length x -> tau_rejected tau = false ->
     exists fit, NLRQ y x model [] tau = Ok fit /\
       NLRQFit.Coefficients fit = [] /\
       NLRQFit.Fitted fit = map (F model []) x /\
       NLRQFit.Residuals fit
       = map (fun i => (nth i y 0 - F model [] (nth i x []))%float)
             (seq 0 (length y))).
Proof.
  split.
  - intros y x tau Hy Hlen Htau Hrows.
    assert (Hx : hd [] x = []).
    { destruct x as [|x0 x]; [reflexivity|]. now inversion Hrows. }
    pose proof (RQ_closed y x tau Hy Hlen Htau) as H. rewrite Hx in H.
    cbn [length] in H. cbv zeta in H.
    eexists. split; [apply H|].
    { apply List.Forall_forall. intros row _. lia. }
    cbn [RQFit.Coefficients RQFit.Fitted RQFit.Residuals].
    split; [reflexivity|].
    split.
    + rewrite <- (map_nth_seq (fun _ : float => 0%float) y 0%float).
      reflexivity.
    + rewrite <- (map_nth_seq (fun v : float => (v - 0)%float) y 0%float).
      reflexivity.
  - intros y x model tau Hy Hlen Htau.
    pose proof (NLRQ_closed y x model [] tau Hy Hlen Htau) as H.
    cbn [length] in H. cbv zeta in H.
    eexists. split; [apply H|].
    { intros beta i _. lia. }
    cbn [NLRQFit.Coefficients NLRQFit.Fitted NLRQFit.Residuals].
    split; [reflexivity|]. split; [|reflexivity].
    rewrite Hlen. apply (map_nth_seq (F model []) x []).
Qed.

Lemma fits_without_parameters_witness :
  (exists fit, RQ ragged_y [[]; []] 0.5%float = Ok fit /\
     RQFit.Coefficients fit = [] /\
     RQFit.Fitted fit = map (fun _ => 0%float) ragged_y) /\
  (exists fit, NLRQ line_y test_x covariate_model [] 0.5%float = Ok fit /\
     NLRQFit.Coefficients fit = [] /\
     NLRQFit.Fitted fit = map (F covariate_model []) test_x).
Proof.
  destruct fits_without_parameters as (HL & HN).
  split.
  - destruct (HL ragged_y [[]; []] 0.5%float)
      as (fit & Hfit & Hc & Hf & _);
      [discriminate|reflexivity|reflexivity|repeat constructor|].
    exists fit. now repeat split.
  - destruct (HN line_y test_x covariate_model 0.5%float)
      as (fit & Hfit & Hc & Hf & _); [discriminate|reflexivity|reflexivity|].
    exists fit. now repeat split.
Defined.

(** ** When the pseudo R-squared is defined *)

(** X20.  [computePseudoRSquared] never returns an error: it returns a
    value exactly when the fit has at least as many fitted values as
    residuals, and panics otherwise.  For a fit without residuals the value
    is 0, whatever fitted values it holds. *)
Theorem pseudo_r_squared_domain :
  (forall fit, (exists v, computePseudoRSquared fit = Ok v) <->
     length (RQFit.Residuals fit) <= length (RQFit.Fitted fit)) /\
  (forall fit, length (RQFit.Fitted fit) < length (RQFit.Residuals fit) ->
     computePseudoRSquared fit = Panic) /\
  (forall fit, RQFit.Residuals fit = [] ->
     computePseudoRSquared fit = Ok 0%float).
Proof.
  assert (Hiff : forall fit, (exists v, computePseudoRSquared fit = Ok v) <->
     length (RQFit.Residuals fit) <= length (RQFit.Fitted fit)).
  { intros fit. split.
    - intros [v Hv]. exact (computePseudoRSquared_ok_inv fit v Hv).
    - apply computePseudoRSquared_ok. }
  split; [exact Hiff|]. split.
  - intros fit Hlt. pose proof (no_err_computePseudoRSquared fit) as Hne.
    destruct (computePseudoRSquared fit) as [v|e|] eqn:Hv; [|now destruct (Hne e)|reflexivity].
    pose proof (proj1 (Hiff fit) (ex_intro _ v Hv)). lia.
  - intros fit Hr. unfold computePseudoRSquared. now rewrite Hr.
Qed.

Lemma pseudo_r_squared_domain_witness :
  (exists v, computePseudoRSquared doubling_fit = Ok v) /\
  computePseudoRSquared bare_fit = Ok 0%float /\
  computePseudoRSquared
    {| RQFit.Coefficients := []; RQFit.Residuals := [1%float];
       RQFit.Fitted := []; RQFit.Tau := 0.5%float;
       RQFit.N := 1; RQFit.P := 0 |} = Panic.
Proof.
  destruct pseudo_r_squared_domain as (Hiff & Hp & Hz).
  split; [apply (proj2 (Hiff doubling_fit)); simpl; lia|].
  split; [apply Hz; reflexivity|].
  apply Hp. simpl. lia.
Defined.
